(** * Akari: the invariant evaluation layer, embedded and verified

  A shallow embedding of the Go packages [dsl], [types], [authority],
  [state], [invariants] and [engine] of aonescu/akari, followed by the
  theorems that settle the properties stated about them.

  Conventions of the embedding:
  - a Go [map] is a [gmap]; a [range] over a map visits every entry once,
    in an order the language leaves unspecified, so every function that
    ranges over a map takes the visiting order as data;
  - an [interface{}] value is a tagged sum carrying its dynamic type;
  - a run-time panic and the exhaustion of the recursion budget are
    explicit outcomes;
  - [time.Time] and [time.Duration] are integers (nanoseconds);
  - the verb [%v] of package [fmt] is a parameter. *)

From Stdlib Require Import ZArith String List Bool.
From Stdlib Require Import Floats.SpecFloat.
From stdpp Require Import gmap strings list fin_maps.

#[local] Set Warnings "-register-all,-clear-no-such-hyp".
Local Open Scope string_scope.
Local Open Scope Z_scope.
Local Open Scope list_scope.

(* ===================================================================== *)
(** * Go run-time values *)
(* ===================================================================== *)

Module golang.

(** The dynamic values an [interface{}] holds in this program: what the
    tests and the JSON decoder put into [FieldDiff] and [Predicate.Value].
    Integers are kept as mathematical integers inside the range of their
    type; floats are IEEE-754 values. *)
Inductive value : Type :=
| VNil
| VBool (b : bool)
| VString (s : string)
| VInt (n : Z)
| VInt32 (n : Z)
| VInt64 (n : Z)
| VFloat32 (f : spec_float)
| VFloat64 (f : spec_float)
| VSlice (items : list value)               (* []interface{} *)
| VMap (entries : list (string * value)).   (* map[string]interface{} *)

Inductive gotype : Type :=
| TBool | TString | TInt | TInt32 | TInt64 | TFloat32 | TFloat64
| TSlice | TMap.

#[global] Instance gotype_eq_dec : EqDecision gotype.
Proof. solve_decision. Defined.

(** The dynamic type of an interface value; [None] for the nil interface. *)
Definition dyntype (v : value) : option gotype :=
  match v with
  | VNil => None
  | VBool _ => Some TBool
  | VString _ => Some TString
  | VInt _ => Some TInt
  | VInt32 _ => Some TInt32
  | VInt64 _ => Some TInt64
  | VFloat32 _ => Some TFloat32
  | VFloat64 _ => Some TFloat64
  | VSlice _ => Some TSlice
  | VMap _ => Some TMap
  end.

(** Slices and maps are not comparable types. *)
Definition comparable (t : gotype) : bool :=
  match t with
  | TSlice | TMap => false
  | _ => true
  end.

(** [a == b] on interface values panics ("comparing uncomparable type")
    exactly when both hold the same uncomparable dynamic type. *)
Definition eq_panics (a b : value) : bool :=
  match dyntype a, dyntype b with
  | Some ta, Some tb => bool_decide (ta = tb) && negb (comparable ta)
  | _, _ => false
  end.

(** The result of [a == b] when it does not panic: two interface values
    are equal when both are nil, or when they have identical dynamic types
    and equal dynamic values. *)
Definition iface_eqb (a b : value) : bool :=
  match a, b with
  | VNil, VNil => true
  | VBool x, VBool y => Bool.eqb x y
  | VString x, VString y => String.eqb x y
  | VInt x, VInt y => Z.eqb x y
  | VInt32 x, VInt32 y => Z.eqb x y
  | VInt64 x, VInt64 y => Z.eqb x y
  | VFloat32 x, VFloat32 y => SFeqb x y
  | VFloat64 x, VFloat64 y => SFeqb x y
  | _, _ => false
  end.

(** Outcome of a computation that may panic or exhaust its budget. *)
Inductive outcome (A : Type) : Type :=
| Ok (a : A)
| Panic (msg : string)
| OutOfFuel.
Arguments Ok {A} a.
Arguments Panic {A} msg.
Arguments OutOfFuel {A}.

(** [a == b] as an operation. *)
Definition iface_eq (a b : value) : outcome bool :=
  if eq_panics a b
  then Panic "runtime error: comparing uncomparable type"
  else Ok (iface_eqb a b).

(** Conversions to [float64]. *)
Definition float64_of_int (n : Z) : spec_float :=
  binary_normalize 53 1024 n 0 false.

Definition float64_of_float32 (f : spec_float) : spec_float :=
  match f with
  | S754_finite s m e => binary_normalize 53 1024 (cond_Zopp s (Zpos m)) e s
  | _ => f
  end.

Definition float64_zero : spec_float := S754_zero false.

End golang.
Export golang.

(* ===================================================================== *)
(** * Package dsl *)
(* ===================================================================== *)

Module dsl.

Definition Operator := string.
Definition Equals : Operator := "equals".
Definition NotEquals : Operator := "not_equals".
Definition Exists : Operator := "exists".
Definition NotExists : Operator := "not_exists".
Definition GreaterThan : Operator := "gt".
Definition LessThan : Operator := "lt".
Definition Contains : Operator := "contains".
Definition AnyTrue : Operator := "any_true".
Definition AllTrue : Operator := "all_true".

Definition Relation := string.
Definition Same : Relation := "same".
Definition Owner : Relation := "owner".
Definition Selector : Relation := "selector".
Definition Node : Relation := "node".

Definition Severity := string.
Definition Critical : Severity := "critical".
Definition Degraded : Severity := "degraded".
Definition Warning : Severity := "warning".

Record Predicate : Type := mkPredicate {
  pred_Field : string;
  pred_Operator : Operator;
  pred_Value : value
}.

Record Scope : Type := mkScope { scope_Relation : Relation }.

Record Requirement : Type := mkRequirement {
  req_Invariant : string;
  req_Scope : Scope
}.

Record Subject : Type := mkSubject {
  subj_Kind : string;
  subj_Namespace : string;
  subj_Selector : gmap string string
}.

Record Responsibility : Type := mkResponsibility {
  resp_Primary : string;
  resp_Secondary : string;
  resp_Team : string
}.

Record Invariant : Type := mkInvariant {
  inv_ID : string;
  inv_Version : Z;
  inv_Description : string;
  inv_Subject : Subject;
  inv_Predicate : option Predicate;      (* *Predicate, nil when absent *)
  inv_Requires : list Requirement;
  inv_Blocks : list string;
  inv_Responsibility : Responsibility;
  inv_Severity : Severity
}.

End dsl.
Export dsl.

(* ===================================================================== *)
(** * Package types *)
(* ===================================================================== *)

Module types.

Record StateEvent : Type := mkStateEvent {
  ev_UID : string;
  ev_Kind : string;
  ev_Namespace : string;
  ev_Name : string;
  ev_Version : string;
  ev_Timestamp : Z;
  ev_FieldDiff : gmap string value;
  ev_Actor : string;
  ev_FullState : value
}.

Record EvaluationContext : Type := mkEvaluationContext {
  ctx_Resource : StateEvent;
  ctx_RelatedStates : gmap string StateEvent;
  ctx_Timestamp : Z
}.

End types.
Export types.

(* ===================================================================== *)
(** * Package authority *)
(* ===================================================================== *)

Module authority.

Record ControllerMetadata : Type := mkControllerMetadata {
  meta_Name : string;
  meta_Description : string;
  meta_Team : string;
  meta_Contact : string;
  meta_Priority : Z
}.

Record ControllerAuthorityMap : Type := mkControllerAuthorityMap {
  mappings : gmap string (list string);   (* field -> []controllers *)
  metadata : gmap string ControllerMetadata
}.

(** [cam.mappings[field] = controllers] *)
Definition addAuthority (field : string) (controllers : list string)
    (cam : ControllerAuthorityMap) : ControllerAuthorityMap :=
  {| mappings := <[field := controllers]> (mappings cam);
     metadata := metadata cam |}.

(** [cam.metadata[name] = md] *)
Definition setMetadata (name : string) (md : ControllerMetadata)
    (cam : ControllerAuthorityMap) : ControllerAuthorityMap :=
  {| mappings := mappings cam;
     metadata := <[name := md]> (metadata cam) |}.

(** The [addAuthority] calls of [initializeAuthorities], in program order. *)
Definition defaultAuthorities : list (string * list string) :=
  [ (* Pod-related authorities *)
    ("status.phase", ["kubelet"]);
    ("status.conditions", ["kubelet"]);
    ("status.containerStatuses", ["kubelet"]);
    ("status.initContainerStatuses", ["kubelet"]);
    ("status.hostIP", ["kubelet"]);
    ("status.podIP", ["kubelet"]);
    ("status.startTime", ["kubelet"]);
    (* Scheduling authorities *)
    ("spec.nodeName", ["kube-scheduler"]);
    (* Deployment/ReplicaSet authorities *)
    ("spec.replicas",
       ["deployment-controller"; "replicaset-controller"; "statefulset-controller"]);
    ("status.replicas",
       ["replicaset-controller"; "deployment-controller"; "statefulset-controller"]);
    ("status.readyReplicas",
       ["replicaset-controller"; "deployment-controller"; "statefulset-controller"]);
    ("status.availableReplicas", ["deployment-controller"]);
    ("status.updatedReplicas", ["deployment-controller"]);
    (* Service/Endpoints authorities *)
    ("status.loadBalancer", ["service-controller"; "cloud-controller-manager"]);
    ("status.endpoints", ["endpoint-controller"; "endpointslice-controller"]);
    (* Node authorities *)
    ("status.conditions", ["node-controller"; "kubelet"]);
    ("status.allocatable", ["kubelet"]);
    ("status.capacity", ["kubelet"]);
    ("status.addresses", ["kubelet"; "cloud-controller-manager"]);
    (* Volume authorities *)
    ("status.phase", ["pv-controller"; "pvc-protection-controller"]);
    (* Garbage collection *)
    ("metadata.deletionTimestamp", ["garbage-collector"]);
    ("metadata.finalizers", ["*"]) ].

(** The [cam.metadata[...] = ...] assignments of [initializeAuthorities]. *)
Definition defaultMetadata : list (string * ControllerMetadata) :=
  [ ("kubelet", mkControllerMetadata "kubelet"
       "Node agent that manages pod lifecycle and reports status"
       "platform-node" "platform-team@company.com" 1);
    ("kube-scheduler", mkControllerMetadata "kube-scheduler"
       "Assigns pods to nodes based on resource requirements"
       "platform" "platform-team@company.com" 2);
    ("deployment-controller", mkControllerMetadata "deployment-controller"
       "Manages deployment rollouts and ReplicaSets"
       "platform" "platform-team@company.com" 3);
    ("replicaset-controller", mkControllerMetadata "replicaset-controller"
       "Ensures desired number of pod replicas are running"
       "platform" "platform-team@company.com" 3);
    ("node-controller", mkControllerMetadata "node-controller"
       "Monitors node health and manages node lifecycle"
       "infrastructure" "infra-team@company.com" 1);
    ("service-controller", mkControllerMetadata "service-controller"
       "Manages service endpoints and load balancers"
       "platform" "platform-team@company.com" 3);
    ("pv-controller", mkControllerMetadata "pv-controller"
       "Manages PersistentVolume binding and lifecycle"
       "storage" "storage-team@company.com" 4);
    ("garbage-collector", mkControllerMetadata "garbage-collector"
       "Cleans up orphaned resources"
       "platform" "platform-team@company.com" 5) ].

(** Running a sequence of [addAuthority] calls, first call first. *)
Definition addAuthorities (calls : list (string * list string))
    (cam : ControllerAuthorityMap) : ControllerAuthorityMap :=
  fold_left (fun c call => addAuthority call.1 call.2 c) calls cam.

Definition initializeAuthorities (cam : ControllerAuthorityMap)
    : ControllerAuthorityMap :=
  fold_left (fun c kv => setMetadata kv.1 kv.2 c) defaultMetadata
    (addAuthorities defaultAuthorities cam).

Definition NewControllerAuthorityMap : ControllerAuthorityMap :=
  initializeAuthorities {| mappings := ∅; metadata := ∅ |}.

(** A [range] over [cam.mappings] visits each entry exactly once; the
    order is not specified by the language. [visits cam order] says that
    [order] is one of the orders such a traversal may take. *)
Definition visits (cam : ControllerAuthorityMap)
    (order : list (string * list string)) : Prop :=
  order ≡ₚ map_to_list (mappings cam).

(** [strings.HasPrefix(field, mappedField)] *)
Definition HasPrefix (s pre : string) : bool := String.prefix pre s.

(** [order] is the order in which the [range] of the prefix scan visits
    the entries. *)
Definition GetAuthorizedControllers (cam : ControllerAuthorityMap)
    (order : list (string * list string)) (field : string) : list string :=
  (* Check exact match *)
  match mappings cam !! field with
  | Some controllers => controllers
  | None =>
      (* Check prefix match *)
      match find (fun entry => HasPrefix field entry.1) order with
      | Some entry => entry.2
      | None => []
      end
  end.

(** Inner loop of [GetAllControllers]: the state is [(seen, controllers)]. *)
Definition collectControllers (acc : gmap string bool * list string)
    (ctrls : list string) : gmap string bool * list string :=
  fold_left
    (fun '(seen, controllers) ctrl =>
       if negb (default false (seen !! ctrl)) && negb (String.eqb ctrl "*")
       then (<[ctrl := true]> seen, controllers ++ [ctrl])
       else (seen, controllers))
    ctrls acc.

Definition GetAllControllers (cam : ControllerAuthorityMap)
    (order : list (string * list string)) : list string :=
  (fold_left (fun acc entry => collectControllers acc entry.2) order (∅, [])).2.

Definition GetControllerMetadata (cam : ControllerAuthorityMap)
    (controller : string) : option ControllerMetadata :=
  metadata cam !! controller.

Definition ValidateAuthority (cam : ControllerAuthorityMap)
    (order : list (string * list string)) (controller field : string) : bool :=
  existsb (fun ctrl => String.eqb ctrl controller || String.eqb ctrl "*")
    (GetAuthorizedControllers cam order field).

(** No key of the map is a proper prefix of another key. *)
Definition prefixFree (m : gmap string (list string)) : Prop :=
  forall k1 k2 v1 v2,
    m !! k1 = Some v1 -> m !! k2 = Some v2 -> String.prefix k1 k2 = true -> k1 = k2.

(** ** The lookup as the specification words it

    The specification's words: "first try exact-key match, then iterate
    entries in insertion order and return the first whose key is a prefix
    of field"; "implement with an ordered sequence plus a separate
    exact-hit index". The ordered sequence is rebuilt from the
    registration calls: a key registered again keeps its place and takes
    the new actors. *)
Fixpoint replaceEntry (field : string) (controllers : list string)
    (entries : list (string * list string)) : list (string * list string) :=
  match entries with
  | [] => [(field, controllers)]
  | (k, v) :: rest =>
      if String.eqb k field then (k, controllers) :: rest
      else (k, v) :: replaceEntry field controllers rest
  end.

Definition insertionOrder (calls : list (string * list string))
    : list (string * list string) :=
  fold_left (fun es call => replaceEntry call.1 call.2 es) calls [].

Definition spec_authorized_controllers (calls : list (string * list string))
    (field : string) : list string :=
  let entries := insertionOrder calls in
  match find (fun entry => String.eqb entry.1 field) entries with
  | Some entry => entry.2
  | None =>
      match find (fun entry => HasPrefix field entry.1) entries with
      | Some entry => entry.2
      | None => []
      end
  end.

End authority.
Export authority.

(* ===================================================================== *)
(** * Package state *)
(* ===================================================================== *)

Module state.

(** The in-memory implementation of the [StateStore] interface. *)
Record MemoryStore : Type := mkMemoryStore {
  events : list StateEvent;
  latestByUID : gmap string StateEvent;
  uidsByKind : gmap string (list string)
}.

Definition NewMemoryStore : MemoryStore :=
  {| events := []; latestByUID := ∅; uidsByKind := ∅ |}.

(** Method [Record] ([Record] is a keyword here, hence the longer name).
    It always returns the nil error, so only the new store is returned. *)
Definition MemoryStore_Record (s : MemoryStore) (event : StateEvent) : MemoryStore :=
  let uids := default [] (uidsByKind s !! ev_Kind event) in
  let found := existsb (fun uid => String.eqb uid (ev_UID event)) uids in
  {| events := events s ++ [event];
     latestByUID := <[ev_UID event := event]> (latestByUID s);
     uidsByKind :=
       if found then uidsByKind s
       else <[ev_Kind event := uids ++ [ev_UID event]]> (uidsByKind s) |}.

Definition GetLatestByKind (s : MemoryStore) (kind : string) : list StateEvent :=
  omap (fun uid => latestByUID s !! uid) (default [] (uidsByKind s !! kind)).

Definition GetByUID (s : MemoryStore) (uid : string) : option StateEvent :=
  latestByUID s !! uid.

(** A sequence of [Record] calls, first call first. *)
Definition recordAll (s : MemoryStore) (evs : list StateEvent) : MemoryStore :=
  fold_left MemoryStore_Record evs s.

(** The events of [uid] are recorded in non-decreasing order of their
    timestamps. *)
Definition recordedInTimeOrder (evs : list StateEvent) (uid : string) : Prop :=
  forall pre ev mid ev' post,
    evs = pre ++ ev :: mid ++ ev' :: post ->
    ev_UID ev = uid -> ev_UID ev' = uid -> ev_Timestamp ev <= ev_Timestamp ev'.

(** ** "Latest" as the specification words it

    The specification's words: "The latest event for a uid is the one with
    the greatest timestamp observed; ties broken by insertion order." Scanning
    the recorded events in insertion order, the candidate is replaced by a
    later event of the same uid when that event's timestamp is not smaller
    (so that, among equal timestamps, the later insertion wins). *)
Definition spec_latest (evs : list StateEvent) (uid : string) : option StateEvent :=
  fold_left
    (fun best ev =>
       if String.eqb (ev_UID ev) uid then
         match best with
         | Some b => if ev_Timestamp b <=? ev_Timestamp ev then Some ev else Some b
         | None => Some ev
         end
       else best)
    evs None.

End state.
Export state.

(* ===================================================================== *)
(** * Package invariants *)
(* ===================================================================== *)

Module invariants.

Definition kindOnly (kind : string) : Subject :=
  {| subj_Kind := kind; subj_Namespace := ""; subj_Selector := ∅ |}.

(** The minimum viable set of invariants. *)
Definition GetMVPInvariants : list Invariant :=
  [ {| inv_ID := "pod_exists";
       inv_Version := 1;
       inv_Description := "Pod should not be deleted";
       inv_Subject := kindOnly "Pod";
       inv_Predicate := Some (mkPredicate "metadata.deletionTimestamp" NotExists VNil);
       inv_Requires := [];
       inv_Blocks := [];
       inv_Responsibility := mkResponsibility "garbage-collector" "" "platform";
       inv_Severity := Critical |};
    {| inv_ID := "pod_scheduled";
       inv_Version := 1;
       inv_Description := "Pod should be assigned to a node";
       inv_Subject := kindOnly "Pod";
       inv_Predicate := Some (mkPredicate "spec.nodeName" Exists VNil);
       inv_Requires := [];
       inv_Blocks := [];
       inv_Responsibility := mkResponsibility "kube-scheduler" "" "platform";
       inv_Severity := Critical |};
    {| inv_ID := "node_ready";
       inv_Version := 1;
       inv_Description := "Node should be in Ready state";
       inv_Subject := kindOnly "Node";
       inv_Predicate :=
         Some (mkPredicate "status.conditions[Ready].status" Equals (VString "True"));
       inv_Requires := [];
       inv_Blocks := [];
       inv_Responsibility := mkResponsibility "node-controller" "kubelet" "infrastructure";
       inv_Severity := Critical |};
    {| inv_ID := "containers_running";
       inv_Version := 1;
       inv_Description := "All containers in pod should be running";
       inv_Subject := kindOnly "Pod";
       inv_Predicate :=
         Some (mkPredicate "status.containerStatuses[*].state.running" AllTrue VNil);
       inv_Requires := [];
       inv_Blocks := ["pod_ready"];
       inv_Responsibility := mkResponsibility "kubelet" "" "platform-node";
       inv_Severity := Critical |};
    {| inv_ID := "pod_ready";
       inv_Version := 1;
       inv_Description := "Pod should be in Ready state";
       inv_Subject := kindOnly "Pod";
       inv_Predicate :=
         Some (mkPredicate "status.conditions[Ready].status" Equals (VString "True"));
       inv_Requires :=
         [ mkRequirement "containers_running" (mkScope Same);
           mkRequirement "node_ready" (mkScope Node) ];
       inv_Blocks := ["service_has_endpoints"];
       inv_Responsibility := mkResponsibility "kubelet" "" "platform-node";
       inv_Severity := Critical |};
    {| inv_ID := "service_has_endpoints";
       inv_Version := 1;
       inv_Description := "Service should have ready endpoints";
       inv_Subject := kindOnly "Service";
       inv_Predicate := Some (mkPredicate "endpoints[*].addresses" AnyTrue VNil);
       inv_Requires := [ mkRequirement "pod_ready" (mkScope Selector) ];
       inv_Blocks := [];
       inv_Responsibility := mkResponsibility "kubelet" "service-controller" "platform";
       inv_Severity := Critical |} ].

End invariants.
Export invariants.

(* ===================================================================== *)
(** * Package engine *)
(* ===================================================================== *)

Module engine.

Record ViolationResult : Type := mkViolationResult {
  vr_InvariantID : string;
  vr_Violated : bool;
  vr_Reason : string;
  vr_ResponsibleActor : string;
  vr_EliminatedActors : list string;
  vr_AffectedResource : string;
  vr_DetectedAt : Z;
  vr_Severity : Severity
}.

Record EvaluationLogEntry : Type := mkEvaluationLogEntry {
  le_InvariantID : string;
  le_ResourceUID : string;
  le_Result : bool;
  le_Reason : string;
  le_Timestamp : Z;
  le_Duration : Z
}.

(** The fields of [EvaluationEngine] that are written only by its
    constructor. The store is never read by the evaluation engine itself and
    lives in [InvariantEngine] below. *)
Record EvaluationEngine : Type := mkEvaluationEngine {
  invariants : gmap string Invariant;
  authorityMap : ControllerAuthorityMap
}.

(** The part of the engine that evaluation mutates, [evaluationLog], with
    the number of choices the run has taken from its environment so far. *)
Record EngineState : Type := mkEngineState {
  evaluationLog : list EvaluationLogEntry;
  tick : nat
}.

(** What the environment decides: the successive readings of the wall clock
    and the order of each traversal of a map. *)
Record Runtime : Type := mkRuntime {
  clock : nat -> Z;
  rangeOrder : nat -> forall A : Type, list A -> list A
}.

(** Every traversal visits each entry exactly once. *)
Definition lawful (rt : Runtime) : Prop :=
  forall (n : nat) (A : Type) (l : list A), rangeOrder rt n A l ≡ₚ l.

(** ** The evaluation monad: state, panics, recursion budget *)

Definition M (A : Type) : Type := EngineState -> outcome (A * EngineState).

Definition ret {A : Type} (a : A) : M A := fun s => Ok (a, s).

Definition bind {A B : Type} (m : M A) (k : A -> M B) : M B :=
  fun s =>
    match m s with
    | Ok (a, s') => k a s'
    | Panic msg => Panic msg
    | OutOfFuel => OutOfFuel
    end.

Notation "x <- c ;; k" := (bind c (fun x => k))
  (at level 100, c at next level, right associativity).

Definition liftO {A : Type} (o : outcome A) : M A :=
  fun s =>
    match o with
    | Ok a => Ok (a, s)
    | Panic msg => Panic msg
    | OutOfFuel => OutOfFuel
    end.

Definition outOfFuel {A : Type} : M A := fun _ => OutOfFuel.

(** ** Pure helpers *)

Definition isTruthy (value : value) : bool :=
  match value with
  | VBool v => v
  | VString v =>
      negb (String.eqb v "") && negb (String.eqb v "False")
        && negb (String.eqb v "false")
  (* [case int, int32, int64: return v != 0]. A clause that lists several
     types leaves [v] with the static type of the switched expression,
     [interface{}]; the constant is converted to it with its default type,
     so the comparison is against [interface{}(int(0))]. *)
  | VInt _ | VInt32 _ | VInt64 _ => negb (iface_eqb value (VInt 0))
  (* [case float32, float64: return v != 0.0], against
     [interface{}(float64(0))] *)
  | VFloat32 _ | VFloat64 _ => negb (iface_eqb value (VFloat64 float64_zero))
  | VNil => false
  | _ => true (* Non-nil objects are truthy *)
  end.

Definition toNumber (value : value) : option spec_float :=
  match value with
  | VInt v => Some (float64_of_int v)
  | VInt32 v => Some (float64_of_int v)
  | VInt64 v => Some (float64_of_int v)
  | VFloat32 v => Some (float64_of_float32 v)
  | VFloat64 v => Some v
  | _ => None
  end.

Definition contains (slice : list string) (item : string) : bool :=
  existsb (fun s => String.eqb s item) slice.

(** The loop [for _, item := range arr { if item == pred.Value {...} }]. *)
Fixpoint containsValue (arr : list value) (v : value) : outcome bool :=
  match arr with
  | [] => Ok false
  | item :: rest =>
      match iface_eq item v with
      | Ok true => Ok true
      | Ok false => containsValue rest v
      | Panic msg => Panic msg
      | OutOfFuel => OutOfFuel
      end
  end.

Definition zeroViolation (id reason : string) : ViolationResult :=
  {| vr_InvariantID := id;
     vr_Violated := true;
     vr_Reason := reason;
     vr_ResponsibleActor := "";
     vr_EliminatedActors := [];
     vr_AffectedResource := "";
     vr_DetectedAt := 0;
     vr_Severity := "" |}.

(** The responsible actor of a violation is not among its eliminated actors. *)
Definition consistentActors (v : ViolationResult) : Prop :=
  vr_ResponsibleActor v ∉ vr_EliminatedActors v.

(** [result.Violated = true; result.Reason = ...; result.ResponsibleActor =
    ...; result.EliminatedActors = ...] *)
Definition violated (result : ViolationResult) (reason responsible : string)
    (eliminated : list string) : ViolationResult :=
  {| vr_InvariantID := vr_InvariantID result;
     vr_Violated := true;
     vr_Reason := reason;
     vr_ResponsibleActor := responsible;
     vr_EliminatedActors := eliminated;
     vr_AffectedResource := vr_AffectedResource result;
     vr_DetectedAt := vr_DetectedAt result;
     vr_Severity := vr_Severity result |}.

(** [e.evaluationLog = append(e.evaluationLog, entry)], then the cut to the
    last 1000 entries. *)
Definition appendBounded (log : list EvaluationLogEntry)
    (entry : EvaluationLogEntry) : list EvaluationLogEntry :=
  let log' := log ++ [entry] in
  if (1000 <? length log')%nat then drop (length log' - 1000)%nat log' else log'.

(** Appending several entries, oldest first. *)
Definition appendAll (log : list EvaluationLogEntry) (entries : list EvaluationLogEntry)
    : list EvaluationLogEntry :=
  fold_left appendBounded entries log.

(** The last [n] elements of a list. *)
Definition keepLast {A : Type} (n : nat) (l : list A) : list A :=
  drop (length l - n)%nat l.

(** One more choice taken from the environment. *)
Definition advance (s : EngineState) : EngineState :=
  {| evaluationLog := evaluationLog s; tick := S (tick s) |}.

(** [inv] with its [Requires] replaced. *)
Definition withRequires (inv : Invariant) (requires : list Requirement) : Invariant :=
  {| inv_ID := inv_ID inv;
     inv_Version := inv_Version inv;
     inv_Description := inv_Description inv;
     inv_Subject := inv_Subject inv;
     inv_Predicate := inv_Predicate inv;
     inv_Requires := requires;
     inv_Blocks := inv_Blocks inv;
     inv_Responsibility := inv_Responsibility inv;
     inv_Severity := inv_Severity inv |}.

(** The operand of the invariant's predicate, if any, is nil or of a
    comparable type. *)
Definition comparableOperand (inv : Invariant) : bool :=
  match inv_Predicate inv with
  | Some pred =>
      match dyntype (pred_Value pred) with
      | Some t => comparable t
      | None => true
      end
  | None => true
  end.

(** Following [same] requirements from [inv] through the registry, no chain
    is longer than [n] and every invariant on the way has a comparable
    operand. *)
Fixpoint safeWithin (e : EvaluationEngine) (n : nat) (inv : Invariant) : bool :=
  match n with
  | O => false
  | S n' =>
      comparableOperand inv
      && forallb
           (fun req =>
              match invariants e !! req_Invariant req with
              | Some reqInv =>
                  if String.eqb (scope_Relation (req_Scope req)) Same
                  then safeWithin e n' reqInv
                  else true
              | None => true
              end)
           (inv_Requires inv)
  end.

Section Evaluation.

(** Go's [fmt] verb [%v], from the standard library. *)
Variable fmt_v : value -> string.

Variable rt : Runtime.

(** [time.Now()] *)
Definition timeNow : M Z :=
  fun s => Ok (clock rt (tick s), advance s).

(** [time.Since(t)] *)
Definition timeSince (t : Z) : M Z :=
  now <- timeNow ;; ret (now - t).

(** The order one [range] over map [m] takes. *)
Definition rangeMap {V : Type} (m : gmap string V) : M (list (string * V)) :=
  fun s => Ok (rangeOrder rt (tick s) _ (map_to_list m), advance s).

Definition evaluatePredicateWithReason (pred : Predicate) (subject : StateEvent)
    : outcome (bool * string) :=
  let field := pred_Field pred in
  let lookup := ev_FieldDiff subject !! field in
  let op := pred_Operator pred in
  if String.eqb op Exists then
    match lookup with
    | None => Ok (false, "Field " +:+ field +:+ " does not exist")
    | Some _ => Ok (true, "")
    end
  else if String.eqb op NotExists then
    match lookup with
    | Some value =>
        Ok (false, "Field " +:+ field +:+ " exists but should not (value: "
                     +:+ fmt_v value +:+ ")")
    | None => Ok (true, "")
    end
  else if String.eqb op Equals then
    match lookup with
    | None =>
        Ok (false, "Field " +:+ field +:+ " does not exist (expected: "
                     +:+ fmt_v (pred_Value pred) +:+ ")")
    | Some value =>
        match iface_eq value (pred_Value pred) with
        | Ok false =>
            Ok (false, "Field " +:+ field +:+ " is '" +:+ fmt_v value
                         +:+ "' (expected: " +:+ fmt_v (pred_Value pred) +:+ ")")
        | Ok true => Ok (true, "")
        | Panic msg => Panic msg
        | OutOfFuel => OutOfFuel
        end
    end
  else if String.eqb op NotEquals then
    match lookup with
    | None => Ok (true, "")
    | Some value =>
        match iface_eq value (pred_Value pred) with
        | Ok true =>
            Ok (false, "Field " +:+ field +:+ " is '" +:+ fmt_v value
                         +:+ "' (must not equal: " +:+ fmt_v (pred_Value pred) +:+ ")")
        | Ok false => Ok (true, "")
        | Panic msg => Panic msg
        | OutOfFuel => OutOfFuel
        end
    end
  else if String.eqb op GreaterThan then
    match lookup with
    | None => Ok (false, "Field " +:+ field +:+ " does not exist")
    | Some value =>
        match toNumber value with
        | None =>
            Ok (false, "Field " +:+ field +:+ " is not numeric: " +:+ fmt_v value)
        | Some numValue =>
            match toNumber (pred_Value pred) with
            | None => Ok (false, "Comparison value is not numeric")
            | Some expectedNum =>
                if SFleb numValue expectedNum then
                  Ok (false, "Field " +:+ field +:+ " is " +:+ fmt_v (VFloat64 numValue)
                               +:+ " (must be > " +:+ fmt_v (VFloat64 expectedNum) +:+ ")")
                else Ok (true, "")
            end
        end
    end
  else if String.eqb op LessThan then
    match lookup with
    | None => Ok (false, "Field " +:+ field +:+ " does not exist")
    | Some value =>
        match toNumber value with
        | None =>
            Ok (false, "Field " +:+ field +:+ " is not numeric: " +:+ fmt_v value)
        | Some numValue =>
            match toNumber (pred_Value pred) with
            | None => Ok (false, "Comparison value is not numeric")
            | Some expectedNum =>
                if SFleb expectedNum numValue then
                  Ok (false, "Field " +:+ field +:+ " is " +:+ fmt_v (VFloat64 numValue)
                               +:+ " (must be < " +:+ fmt_v (VFloat64 expectedNum) +:+ ")")
                else Ok (true, "")
            end
        end
    end
  else if String.eqb op AnyTrue then
    match lookup with
    | None => Ok (false, "Field " +:+ field +:+ " does not exist")
    | Some (VSlice arr) =>
        if existsb isTruthy arr then Ok (true, "")
        else Ok (false, "Field " +:+ field +:+ " has no truthy elements")
    | Some value =>
        if isTruthy value then Ok (true, "")
        else Ok (false, "Field " +:+ field +:+ " is not true")
    end
  else if String.eqb op AllTrue then
    match lookup with
    | None => Ok (false, "Field " +:+ field +:+ " does not exist")
    | Some (VSlice arr) =>
        if (length arr =? 0)%nat then
          Ok (false, "Field " +:+ field +:+ " is empty array")
        else
          match find (fun item => negb (isTruthy item)) arr with
          | Some item =>
              Ok (false, "Field " +:+ field +:+ " has non-truthy element: "
                           +:+ fmt_v item)
          | None => Ok (true, "")
          end
    | Some value =>
        if isTruthy value then Ok (true, "")
        else Ok (false, "Field " +:+ field +:+ " is not true")
    end
  else if String.eqb op Contains then
    match lookup with
    | None => Ok (false, "Field " +:+ field +:+ " does not exist")
    | Some (VSlice arr) =>
        match containsValue arr (pred_Value pred) with
        | Ok true => Ok (true, "")
        | Ok false =>
            Ok (false, "Field " +:+ field +:+ " does not contain "
                         +:+ fmt_v (pred_Value pred))
        | Panic msg => Panic msg
        | OutOfFuel => OutOfFuel
        end
    | Some _ => Ok (false, "Field " +:+ field +:+ " is not an array")
    end
  else Ok (false, "Unknown operator: " +:+ op).

Definition determineResponsibility (e : EvaluationEngine) (inv : Invariant)
    (resource : StateEvent) : M string :=
  let primary := resp_Primary (inv_Responsibility inv) in
  match inv_Predicate inv with
  | Some pred =>
      order <- rangeMap (mappings (authorityMap e)) ;;
      let authorizedControllers :=
        GetAuthorizedControllers (authorityMap e) order (pred_Field pred) in
      match authorizedControllers with
      | [controller] => ret controller
      | _ =>
          (* If multiple controllers have authority, use primary from invariant *)
          match find (fun controller => String.eqb controller primary)
                  authorizedControllers with
          | Some controller => ret controller
          | None => ret primary
          end
      end
  | None => ret primary
  end.

Definition eliminateActors (e : EvaluationEngine) (field primary : string)
    : M (list string) :=
  order <- rangeMap (mappings (authorityMap e)) ;;
  let authorized := GetAuthorizedControllers (authorityMap e) order field in
  order' <- rangeMap (mappings (authorityMap e)) ;;
  let allControllers := GetAllControllers (authorityMap e) order' in
  ret (List.filter
         (fun controller =>
            negb (String.eqb controller primary) && negb (contains authorized controller))
         allControllers).

Definition logEvaluation (invID resourceUID : string) (result : bool)
    (reason : string) (duration : Z) : M unit :=
  now <- timeNow ;;
  fun s =>
    let entry :=
      {| le_InvariantID := invID;
         le_ResourceUID := resourceUID;
         le_Result := result;
         le_Reason := reason;
         le_Timestamp := now;
         le_Duration := duration |} in
    Ok (tt, {| evaluationLog := appendBounded (evaluationLog s) entry;
               tick := tick s |}).

(** The state after [e.logEvaluation(invID, resourceUID, result, reason,
    time.Since(startTime))] has run in state [s]. *)
Definition logged (invID resourceUID : string) (result : bool) (reason : string)
    (startTime : Z) (s : EngineState) : EngineState :=
  {| evaluationLog :=
       appendBounded (evaluationLog s)
         {| le_InvariantID := invID;
            le_ResourceUID := resourceUID;
            le_Result := result;
            le_Reason := reason;
            le_Timestamp := clock rt (S (tick s));
            le_Duration := clock rt (tick s) - startTime |};
     tick := S (S (tick s)) |}.

(** The invariant has no predicate, or the subject satisfies it. *)
Definition ownPredicateHolds (inv : Invariant) (ctx : EvaluationContext) : Prop :=
  match inv_Predicate inv with
  | Some pred =>
      exists reason,
        evaluatePredicateWithReason pred (ctx_Resource ctx) = Ok (true, reason)
  | None => True
  end.

(** [evaluateDependency]; [rec] stands for the method [EvaluateWithContext]
    that it calls back. *)
Definition evaluateDependency (e : EvaluationEngine)
    (rec : Invariant -> EvaluationContext -> M (option ViolationResult))
    (req : Requirement) (ctx : EvaluationContext) : M (option ViolationResult) :=
  match invariants e !! req_Invariant req with
  | None =>
      ret (Some (zeroViolation (req_Invariant req) "Required invariant not registered"))
  | Some reqInv =>
      let relation := scope_Relation (req_Scope req) in
      if String.eqb relation Same then
        (* Evaluate on the same resource *)
        rec reqInv ctx
      else if String.eqb relation Owner || String.eqb relation Node
              || String.eqb relation Selector then
        (* Not yet supported by StateStore *)
        ret (Some (zeroViolation (inv_ID reqInv)
                     "Dependency relation not supported by StateStore"))
      else
        ret (Some (zeroViolation (inv_ID reqInv) "Unknown dependency relation"))
  end.

(** The [ViolationResult] that [EvaluateWithContext] allocates on entry. *)
Definition newResult (inv : Invariant) (ctx : EvaluationContext) : ViolationResult :=
  {| vr_InvariantID := inv_ID inv;
     vr_Violated := false;
     vr_Reason := "";
     vr_ResponsibleActor := "";
     vr_EliminatedActors := [];
     vr_AffectedResource :=
       ev_Namespace (ctx_Resource ctx) +:+ "/" +:+ ev_Name (ctx_Resource ctx);
     vr_DetectedAt := ctx_Timestamp ctx;
     vr_Severity := inv_Severity inv |}.

(** Step 3 of [EvaluateWithContext], the loop over [inv.Requires]: it
    returns the violation with which the method returns from inside the
    loop, or [None] when the loop runs to its end. *)
Fixpoint evaluateRequires (e : EvaluationEngine)
    (rec : Invariant -> EvaluationContext -> M (option ViolationResult))
    (inv : Invariant) (ctx : EvaluationContext) (result : ViolationResult)
    (startTime : Z) (reqs : list Requirement) : M (option ViolationResult) :=
  match reqs with
  | [] => ret None
  | req :: rest =>
      match invariants e !! req_Invariant req with
      | None => evaluateRequires e rec inv ctx result startTime rest  (* continue *)
      | Some reqInv =>
          depViolation <- evaluateDependency e rec req ctx ;;
          match depViolation with
          | Some dep =>
              let reason :=
                "Dependency " +:+ inv_ID reqInv +:+ " failed: " +:+ vr_Reason dep in
              d <- timeSince startTime ;;
              _ <- logEvaluation (inv_ID inv) (ev_UID (ctx_Resource ctx)) false reason d ;;
              ret (Some (violated result reason (vr_ResponsibleActor dep)
                           (vr_EliminatedActors dep)))
          | None => evaluateRequires e rec inv ctx result startTime rest
          end
      end
  end.

(** Steps 1 and 2 of [EvaluateWithContext]: the predicate, and on its
    failure the violation with which the method returns; [None] when there
    is no predicate or it is satisfied. *)
Definition evaluateOwnPredicate (e : EvaluationEngine) (inv : Invariant)
    (ctx : EvaluationContext) (result : ViolationResult) (startTime : Z)
    : M (option ViolationResult) :=
  match inv_Predicate inv with
  | Some pred =>
      check <- liftO (evaluatePredicateWithReason pred (ctx_Resource ctx)) ;;
      if negb check.1 then
        (* Step 2: Determine responsibility through authority analysis *)
        responsible <- determineResponsibility e inv (ctx_Resource ctx) ;;
        eliminated <- eliminateActors e (pred_Field pred) responsible ;;
        d <- timeSince startTime ;;
        _ <- logEvaluation (inv_ID inv) (ev_UID (ctx_Resource ctx)) false check.2 d ;;
        ret (Some (violated result check.2 responsible eliminated))
      else ret None
  | None => ret None
  end.

(** [EvaluateWithContext] performs evaluation with full context. [fuel]
    bounds the depth of the recursion through [same] requirements, which the
    source does not bound. *)
Fixpoint EvaluateWithContext (e : EvaluationEngine) (fuel : nat) (inv : Invariant)
    (ctx : EvaluationContext) : M (option ViolationResult) :=
  match fuel with
  | O => outOfFuel
  | S fuel' =>
      startTime <- timeNow ;;
      let result := newResult inv ctx in
      (* Step 1: Evaluate predicate if present *)
      own <- evaluateOwnPredicate e inv ctx result startTime ;;
      match own with
      | Some violation => ret (Some violation)
      | None =>
          (* Step 3: Evaluate dependencies (requires) *)
          dep <- evaluateRequires e (EvaluateWithContext e fuel') inv ctx result
                   startTime (inv_Requires inv) ;;
          match dep with
          | Some violation => ret (Some violation)
          | None =>
              (* All checks passed *)
              d <- timeSince startTime ;;
              _ <- logEvaluation (inv_ID inv) (ev_UID (ctx_Resource ctx)) true
                     "satisfied" d ;;
              ret None
          end
      end
  end.

(** A sequence of single-subject evaluations, first call first, with the
    results in the same order. *)
Fixpoint evaluateMany (e : EvaluationEngine) (fuel : nat)
    (calls : list (Invariant * EvaluationContext)) : M (list (option ViolationResult)) :=
  match calls with
  | [] => ret []
  | (inv, ctx) :: rest =>
      r <- EvaluateWithContext e fuel inv ctx ;;
      rs <- evaluateMany e fuel rest ;;
      ret (r :: rs)
  end.

(** ** The entries of the log, evaluation by evaluation

    The entries that the evaluations append, written down call by call;
    the theorem on the log compares the log of the engine with them. *)

(** The entry that [logEvaluation] appends at the exit of the evaluation of
    [inv] on the subject of [ctx] that was entered in state [s] and returns
    [r] in state [s']. Every exit reads the clock twice, for
    [time.Since(startTime)] and then for the timestamp of the entry;
    [startTime] is the reading at the entry. *)
Definition exitEntry (inv : Invariant) (ctx : EvaluationContext) (s : EngineState)
    (r : option ViolationResult) (s' : EngineState) : EvaluationLogEntry :=
  {| le_InvariantID := inv_ID inv;
     le_ResourceUID := ev_UID (ctx_Resource ctx);
     le_Result := match r with Some _ => false | None => true end;
     le_Reason := match r with Some v => vr_Reason v | None => "satisfied" end;
     le_Timestamp := clock rt (tick s' - 1)%nat;
     le_Duration := clock rt (tick s' - 2)%nat - clock rt (tick s) |}.

(** The entries of the evaluations that the loop over [reqs] calls, in the
    order of the calls: a requirement is evaluated when it names a
    registered invariant and is on the same subject, and the loop goes on
    to the next requirement when that evaluation reports no violation.
    [rec] is the evaluation that the loop calls and [recEntries] its
    entries. *)
Fixpoint requiresEntries (e : EvaluationEngine)
    (rec : Invariant -> EvaluationContext -> M (option ViolationResult))
    (recEntries : Invariant -> EvaluationContext -> EngineState -> list EvaluationLogEntry)
    (ctx : EvaluationContext) (reqs : list Requirement) (s : EngineState)
    : list EvaluationLogEntry :=
  match reqs with
  | [] => []
  | req :: rest =>
      match invariants e !! req_Invariant req with
      | None => requiresEntries e rec recEntries ctx rest s
      | Some reqInv =>
          if String.eqb (scope_Relation (req_Scope req)) Same then
            recEntries reqInv ctx s
            ++ match rec reqInv ctx s with
               | Ok (None, s1) => requiresEntries e rec recEntries ctx rest s1
               | _ => []
               end
          else []
      end
  end.

(** The entries of one evaluation that returns: one entry for each
    invocation of [EvaluateWithContext], in the order in which the
    invocations return; those of the evaluations it calls for its
    requirements come first, its own entry comes last. *)
Fixpoint entriesOf (e : EvaluationEngine) (fuel : nat) (inv : Invariant)
    (ctx : EvaluationContext) (s : EngineState) : list EvaluationLogEntry :=
  match fuel with
  | O => []
  | S fuel' =>
      match EvaluateWithContext e (S fuel') inv ctx s with
      | Ok (r, s') =>
          match evaluateOwnPredicate e inv ctx (newResult inv ctx) (clock rt (tick s))
                  (advance s) with
          | Ok (None, s1) =>
              requiresEntries e (EvaluateWithContext e fuel') (entriesOf e fuel') ctx
                (inv_Requires inv) s1
          | _ => []
          end
          ++ [exitEntry inv ctx s r s']
      | _ => []
      end
  end.

(** The entries of a sequence of evaluations, one list for each call. *)
Fixpoint entriesOfMany (e : EvaluationEngine) (fuel : nat)
    (calls : list (Invariant * EvaluationContext)) (s : EngineState)
    : list (list EvaluationLogEntry) :=
  match calls with
  | [] => []
  | (inv, ctx) :: rest =>
      match EvaluateWithContext e fuel inv ctx s with
      | Ok (_, s1) => entriesOf e fuel inv ctx s :: entriesOfMany e fuel rest s1
      | _ => []
      end
  end.

(** ** InvariantEngine *)

Record InvariantEngine : Type := mkInvariantEngine {
  store : MemoryStore;
  evalEngine : EvaluationEngine   (* its [invariants] map is shared *)
}.

Definition evaluateSubject (ie : InvariantEngine) (fuel : nat) (inv : Invariant)
    (subject : StateEvent) : M (option ViolationResult) :=
  now <- timeNow ;;
  EvaluateWithContext (evalEngine ie) fuel inv
    {| ctx_Resource := subject; ctx_RelatedStates := ∅; ctx_Timestamp := now |}.

Fixpoint evaluateSubjects (ie : InvariantEngine) (fuel : nat) (inv : Invariant)
    (subjects : list StateEvent) (violations : list ViolationResult)
    : M (list ViolationResult) :=
  match subjects with
  | [] => ret violations
  | subject :: rest =>
      violation <- evaluateSubject ie fuel inv subject ;;
      evaluateSubjects ie fuel inv rest
        match violation with
        | Some v => violations ++ [v]
        | None => violations
        end
  end.

Definition Evaluate (ie : InvariantEngine) (fuel : nat) (inv : Invariant)
    : M (list ViolationResult) :=
  evaluateSubjects ie fuel inv
    (GetLatestByKind (store ie) (subj_Kind (inv_Subject inv))) [].

Fixpoint evaluateEach (ie : InvariantEngine) (fuel : nat)
    (invs : list (string * Invariant)) (violations : list ViolationResult)
    : M (list ViolationResult) :=
  match invs with
  | [] => ret violations
  | (_, inv) :: rest =>
      results <- Evaluate ie fuel inv ;;
      evaluateEach ie fuel rest (violations ++ results)
  end.

Definition EvaluateAll (ie : InvariantEngine) (fuel : nat) : M (list ViolationResult) :=
  order <- rangeMap (invariants (evalEngine ie)) ;;
  evaluateEach ie fuel order [].

End Evaluation.

(** ** Constructors *)

Definition LoadDefaultInvariants (registry : gmap string Invariant)
    : gmap string Invariant :=
  fold_left (fun m inv => <[inv_ID inv := inv]> m) GetMVPInvariants registry.

Definition NewEvaluationEngine (authorityMap : ControllerAuthorityMap)
    : EvaluationEngine :=
  {| invariants := LoadDefaultInvariants ∅; authorityMap := authorityMap |}.

Definition NewInvariantEngine (store : MemoryStore) : InvariantEngine :=
  {| store := store; evalEngine := NewEvaluationEngine NewControllerAuthorityMap |}.

(** The mutable part of a freshly constructed engine. *)
Definition initialState : EngineState := {| evaluationLog := []; tick := 0 |}.

(** ** Readers of the engine *)

(** [GetInvariants]: [order] is the order in which the [range] visits the
    registry. *)
Definition GetInvariants (ie : InvariantEngine) (order : list (string * Invariant))
    : list Invariant :=
  order.*2.

(** [GetInvariantByID] returns an invariant by its ID. *)
Definition GetInvariantByID (ie : InvariantEngine) (id : string) : option Invariant :=
  invariants (evalEngine ie) !! id.

(** [order] is one of the orders a traversal of the registry may take. *)
Definition visitsRegistry (e : EvaluationEngine) (order : list (string * Invariant))
    : Prop :=
  order ≡ₚ map_to_list (invariants e).

(** Arithmetic of [int64] ([time.Duration]): the result taken modulo 2^64
    into the signed range. *)
Definition wrap64 (z : Z) : Z := (z + 2 ^ 63) mod 2 ^ 64 - 2 ^ 63.

(** The loop of [GetEvaluationStats]: the state is
    [(violations, totalDuration)]. *)
Definition statsLoop (log : list EvaluationLogEntry) : Z * Z :=
  fold_left
    (fun '(violations, totalDuration) entry =>
       (if le_Result entry then violations else violations + 1,
        wrap64 (totalDuration + le_Duration entry)))
    log (0, 0).

(** [GetEvaluationStats]: the keyed mapping it returns, read in state [s]. *)
Definition GetEvaluationStats (e : EvaluationEngine) (s : EngineState)
    : gmap string value :=
  let totalEvaluations := Z.of_nat (length (evaluationLog s)) in
  let '(violations, totalDuration) := statsLoop (evaluationLog s) in
  let avgDuration :=
    if 0 <? totalEvaluations then Z.quot totalDuration totalEvaluations else 0 in
  <[ "total_evaluations" := VInt totalEvaluations ]>
    (<[ "violations_found" := VInt violations ]>
       (<[ "avg_duration_ms" := VInt64 (Z.quot avgDuration 1000000) ]>
          {[ "total_invariants" := VInt (Z.of_nat (size (invariants e))) ]})).

End engine.
Export engine.

(* ===================================================================== *)
(** * Package authority, file model.go *)
(* ===================================================================== *)

Module authority_table.

Record AuthorityMapping : Type := mkAuthorityMapping {
  am_Controller : string;
  am_AllowedFields : list string
}.

(** The initial value of the package variable [AuthorityTable]. *)
Definition AuthorityTable : list AuthorityMapping :=
  [ mkAuthorityMapping "kubelet"
      ["status.conditions"; "status.phase"; "status.containerStatuses"];
    mkAuthorityMapping "kube-scheduler" ["spec.nodeName"];
    mkAuthorityMapping "deployment-controller" ["spec.replicas"];
    mkAuthorityMapping "service-controller" ["status.loadBalancer"];
    mkAuthorityMapping "replicaset-controller" ["spec.replicas"];
    mkAuthorityMapping "node-controller" ["status.conditions"];
    mkAuthorityMapping "garbage-collector" ["metadata.deletionTimestamp"] ].

(** The package function [GetAuthorizedControllers(field)]; [table] is the
    value of the variable [AuthorityTable] that it reads. A mapping gives
    its controller once, at its first allowed field that is a prefix of
    [field]. *)
Definition GetAuthorizedControllers (table : list AuthorityMapping) (field : string)
    : list string :=
  am_Controller
    <$> List.filter
          (fun mapping =>
             existsb (fun allowedField => HasPrefix field allowedField)
               (am_AllowedFields mapping))
          table.

End authority_table.

(* ===================================================================== *)
(** * Package formatting *)
(* ===================================================================== *)

Module formatting.

(** The line feed. *)
Definition nl : string := String (Ascii.ascii_of_nat 10) EmptyString.

Definition rule : string := "────────────────────────" +:+ nl.

(** What reading a field through a nil [*ViolationResult] raises. *)
Definition nilDereference : string :=
  "runtime error: invalid memory address or nil pointer dereference".

Definition FormatExplanation (violation : ViolationResult) : string :=
  String.concat ""
    ([ nl +:+ "ISSUE" +:+ nl;
       rule;
       vr_InvariantID violation +:+ ": " +:+ vr_AffectedResource violation +:+ nl;
       "Severity: " +:+ vr_Severity violation +:+ nl +:+ nl;
       "CAUSE" +:+ nl;
       rule;
       vr_Reason violation +:+ nl +:+ nl;
       "RESPONSIBILITY" +:+ nl;
       rule;
       vr_ResponsibleActor violation +:+ nl +:+ nl ]
     ++ (if (0 <? length (vr_EliminatedActors violation))%nat then
           [ "ELIMINATED" +:+ nl; rule ]
           ++ map (fun actor => "✓ " +:+ actor +:+ nl) (vr_EliminatedActors violation)
           ++ [ nl ]
         else [])
     ++ [ "NEXT ACTION" +:+ nl;
          rule;
          "Inspect " +:+ vr_ResponsibleActor violation +:+ " and related components"
            +:+ nl ]).

(** [violations] is a slice of pointers; [None] is the nil pointer. *)
Fixpoint FormatMultipleExplanations (violations : list (option ViolationResult))
    : outcome (list string) :=
  match violations with
  | [] => Ok []
  | None :: _ => Panic nilDereference
  | Some v :: rest =>
      match FormatMultipleExplanations rest with
      | Ok explanations =>
          Ok (if vr_Violated v then FormatExplanation v :: explanations
              else explanations)
      | Panic msg => Panic msg
      | OutOfFuel => OutOfFuel
      end
  end.

(** The mapping that [GenerateSummary] returns, by its keys. *)
Record Summary : Type := mkSummary {
  sum_total : Z;
  sum_violated : Z;
  sum_satisfied : Z;
  sum_critical : Z;
  sum_responsible : gmap string Z
}.

(** One turn of the loop of [GenerateSummary]. *)
Definition summarize (summary : Summary) (v : ViolationResult) : Summary :=
  if vr_Violated v then
    {| sum_total := sum_total summary;
       sum_violated := sum_violated summary + 1;
       sum_satisfied := sum_satisfied summary;
       sum_critical :=
         if String.eqb (vr_Severity v) Critical then sum_critical summary + 1
         else sum_critical summary;
       sum_responsible :=
         <[ vr_ResponsibleActor v :=
              default 0 (sum_responsible summary !! vr_ResponsibleActor v) + 1 ]>
           (sum_responsible summary) |}
  else
    {| sum_total := sum_total summary;
       sum_violated := sum_violated summary;
       sum_satisfied := sum_satisfied summary + 1;
       sum_critical := sum_critical summary;
       sum_responsible := sum_responsible summary |}.

Fixpoint summarizeAll (violations : list (option ViolationResult)) (summary : Summary)
    : outcome Summary :=
  match violations with
  | [] => Ok summary
  | None :: _ => Panic nilDereference
  | Some v :: rest => summarizeAll rest (summarize summary v)
  end.

Definition GenerateSummary (violations : list (option ViolationResult))
    : outcome Summary :=
  summarizeAll violations
    {| sum_total := Z.of_nat (length violations);
       sum_violated := 0;
       sum_satisfied := 0;
       sum_critical := 0;
       sum_responsible := ∅ |}.

End formatting.
Export formatting.

(* ===================================================================== *)
(** * Package server: the causal chain *)
(* ===================================================================== *)

Module server.

(** An element of the chain, by the keys of the mapping the source builds;
    the first element has no "relation". *)
Record ChainEntry : Type := mkChainEntry {
  ce_invariant_id : string;
  ce_description : string;
  ce_severity : Severity;
  ce_actor : string;
  ce_relation : option Relation
}.

Definition buildCausalChain (ie : InvariantEngine) (invariantID : string)
    : list ChainEntry :=
  match GetInvariantByID ie invariantID with
  | None => []
  | Some inv =>
      (* Add current invariant *)
      {| ce_invariant_id := inv_ID inv;
         ce_description := inv_Description inv;
         ce_severity := inv_Severity inv;
         ce_actor := resp_Primary (inv_Responsibility inv);
         ce_relation := None |}
      (* Traverse requirements *)
      :: omap
           (fun req =>
              match GetInvariantByID ie (req_Invariant req) with
              | Some reqInv =>
                  Some {| ce_invariant_id := inv_ID reqInv;
                          ce_description := inv_Description reqInv;
                          ce_severity := inv_Severity reqInv;
                          ce_actor := resp_Primary (inv_Responsibility reqInv);
                          ce_relation := Some (scope_Relation (req_Scope req)) |}
              | None => None
              end)
           (inv_Requires inv)
  end.

End server.
Export server.

(* ===================================================================== *)
(** * Sample inputs *)
(* ===================================================================== *)

Module samples.

(** An environment whose clock advances by one at each reading and whose
    map traversals follow [map_to_list]. *)
Definition sampleRuntime : Runtime :=
  {| clock := fun n => Z.of_nat n; rangeOrder := fun _ _ l => l |}.

(** A stand-in for [%v] that prints strings and booleans. *)
Definition showValue (v : value) : string :=
  match v with
  | VString s => s
  | VBool true => "true"
  | VBool false => "false"
  | VNil => "<nil>"
  | _ => "?"
  end.

Definition emptyAuthorityMap : ControllerAuthorityMap :=
  {| mappings := ∅; metadata := ∅ |}.

(** Two registrations, the first key a prefix of the second. *)
Definition overlappingAuthorities : list (string * list string) :=
  [ ("status", ["kubelet"]); ("status.phase", ["pv-controller"]) ].

Definition overlappingMap : ControllerAuthorityMap :=
  addAuthorities overlappingAuthorities emptyAuthorityMap.

Definition defaultEngine : EvaluationEngine :=
  NewEvaluationEngine NewControllerAuthorityMap.

Definition podEvent (uid version : string) (timestamp : Z)
    (fieldDiff : gmap string value) : StateEvent :=
  {| ev_UID := uid; ev_Kind := "Pod"; ev_Namespace := "default";
     ev_Name := "test-pod"; ev_Version := version; ev_Timestamp := timestamp;
     ev_FieldDiff := fieldDiff; ev_Actor := "kubelet"; ev_FullState := VNil |}.

Definition podContext (fieldDiff : gmap string value) : EvaluationContext :=
  {| ctx_Resource := podEvent "pod-1" "1" 0 fieldDiff;
     ctx_RelatedStates := ∅;
     ctx_Timestamp := 0 |}.

Definition bareInvariant (id : string) (predicate : option Predicate)
    (requires : list Requirement) : Invariant :=
  {| inv_ID := id; inv_Version := 1; inv_Description := "";
     inv_Subject := kindOnly "Pod"; inv_Predicate := predicate;
     inv_Requires := requires; inv_Blocks := [];
     inv_Responsibility := mkResponsibility "kubelet" "" "";
     inv_Severity := Critical |}.

(** The invariant [pod_ready] of the minimum viable set. *)
Definition podReady : Invariant :=
  bareInvariant "pod_ready"
    (Some (mkPredicate "status.conditions[Ready].status" Equals (VString "True")))
    [ mkRequirement "containers_running" (mkScope Same);
      mkRequirement "node_ready" (mkScope Node) ].

(** A predicate whose operand is a sequence, and a subject whose field
    holds a sequence. *)
Definition containersAre : Predicate :=
  mkPredicate "spec.containers" Equals (VSlice [VString "app"]).

Definition containersAreNot : Predicate :=
  mkPredicate "spec.containers" NotEquals (VSlice [VString "sidecar"]).

Definition withContainers : gmap string value :=
  {[ "spec.containers" := VSlice [VString "app"] ]}.

(** A pod that is ready while one of its containers is not running. *)
Definition readyButNotRunning : gmap string value :=
  <[ "status.conditions[Ready].status" := VString "True" ]>
    {[ "status.containerStatuses[*].state.running" := VSlice [VBool true; VBool false] ]}.

(** A pod that is ready with all its containers running. *)
Definition readyAndRunning : gmap string value :=
  <[ "status.conditions[Ready].status" := VString "True" ]>
    {[ "status.containerStatuses[*].state.running" := VSlice [VBool true; VBool true] ]}.

(** A pod that is not ready. *)
Definition notReady : gmap string value :=
  {[ "status.conditions[Ready].status" := VString "False" ]}.

(** An invariant whose only requirement names an invariant that nobody
    registered. *)
Definition needsUnregistered : Invariant :=
  bareInvariant "needs_unregistered" None
    [ mkRequirement "image_pulled" (mkScope Same) ].

(** An invariant whose only requirement is on the node of the pod. *)
Definition needsNode : Invariant :=
  bareInvariant "on_ready_node" None [ mkRequirement "node_ready" (mkScope Node) ].

(** An invariant without a predicate that requires [containers_running] on
    the same subject. *)
Definition needsRunning : Invariant :=
  bareInvariant "needs_running" None
    [ mkRequirement "containers_running" (mkScope Same) ].

(** An invariant that is registered under its own ID and requires itself on
    the same subject, and an engine that holds it. *)
Definition selfRequiring : Invariant :=
  bareInvariant "self" None [ mkRequirement "self" (mkScope Same) ].

Definition cyclicEngine : EvaluationEngine :=
  {| invariants := {[ "self" := selfRequiring ]};
     authorityMap := NewControllerAuthorityMap |}.

(** A store with two pods, the first recorded twice, and a node. *)
Definition sampleStore : MemoryStore :=
  recordAll NewMemoryStore
    [ podEvent "pod-1" "1" 10 notReady;
      podEvent "pod-2" "1" 20 readyAndRunning;
      {| ev_UID := "node-1"; ev_Kind := "Node"; ev_Namespace := "";
         ev_Name := "node-1"; ev_Version := "1"; ev_Timestamp := 30;
         ev_FieldDiff := ∅; ev_Actor := "node-controller"; ev_FullState := VNil |};
      podEvent "pod-1" "2" 40 readyButNotRunning ].

End samples.
Export samples.

(* ===================================================================== *)
(** * Theorems: the authority map *)
(* ===================================================================== *)

Section AuthorityFacts.

Implicit Types (cam : ControllerAuthorityMap) (order : list (string * list string)).
Implicit Types (field : string) (controllers : list string).

Lemma find_first_match {A : Type} (p : A -> bool) (pre : list A) (x : A) (post : list A) :
  Forall (fun y => p y = false) pre -> p x = true ->
  find p (pre ++ x :: post) = Some x.
Proof.
  induction 1 as [|y pre Hy _ IH]; intros Hx; simpl.
  - by rewrite Hx.
  - rewrite Hy. by apply IH.
Qed.

Lemma find_no_match {A : Type} (p : A -> bool) (l : list A) :
  (forall x, x ∈ l -> p x = false) -> find p l = None.
Proof.
  induction l as [|y l IH]; intros H; simpl; [done|].
  rewrite (H y) by apply list_elem_of_here.
  apply IH. intros x Hx. apply H. by apply list_elem_of_further.
Qed.

Lemma visits_lookup cam order k controllers :
  visits cam order -> (k, controllers) ∈ order -> mappings cam !! k = Some controllers.
Proof.
  intros Hv Hin. unfold visits in Hv. rewrite Hv in Hin.
  by apply elem_of_map_to_list in Hin.
Qed.

(** C9. Registering a field again replaces the earlier actors entirely; in
    the default map, "status.phase" is answered with the volume controllers
    only and "status.conditions" with the node controller and the kubelet. *)
Theorem addAuthority_replaces_earlier_entry :
  (forall cam field c1 c2,
      addAuthority field c2 (addAuthority field c1 cam) = addAuthority field c2 cam)
  /\ (forall cam field c1 c2 order,
      GetAuthorizedControllers (addAuthority field c2 (addAuthority field c1 cam))
        order field = c2)
  /\ (forall order,
      GetAuthorizedControllers NewControllerAuthorityMap order "status.phase"
      = ["pv-controller"; "pvc-protection-controller"])
  /\ (forall order,
      GetAuthorizedControllers NewControllerAuthorityMap order "status.conditions"
      = ["node-controller"; "kubelet"]).
Proof.
  split; [|split; [|split]].
  - intros cam field c1 c2. unfold addAuthority; simpl.
    by rewrite insert_insert_eq.
  - intros cam field c1 c2 order. unfold GetAuthorizedControllers, addAuthority; simpl.
    by rewrite lookup_insert_eq.
  - intros order. unfold GetAuthorizedControllers.
    replace (mappings NewControllerAuthorityMap !! "status.phase")
      with (Some ["pv-controller"; "pvc-protection-controller"])
      by (vm_compute; reflexivity).
    reflexivity.
  - intros order. unfold GetAuthorizedControllers.
    replace (mappings NewControllerAuthorityMap !! "status.conditions")
      with (Some ["node-controller"; "kubelet"])
      by (vm_compute; reflexivity).
    reflexivity.
Qed.

(** ** Maps in which no key is a prefix of another *)

Lemma prefix_comparable (a b f : string) :
  String.prefix a f = true -> String.prefix b f = true ->
  String.prefix a b = true \/ String.prefix b a = true.
Proof.
  revert a b. induction f as [|c f IH]; intros [|x a] [|y b]; simpl; auto; [done|].
  destruct (Ascii.ascii_dec x c) as [->|]; [|done].
  destruct (Ascii.ascii_dec y c) as [->|]; [|done].
  destruct (Ascii.ascii_dec c c); [|done]. apply IH.
Qed.

(** On such a map the answer does not depend on the traversal. *)
Lemma GetAuthorizedControllers_prefixFree cam order order' field :
  prefixFree (mappings cam) -> visits cam order -> visits cam order' ->
  GetAuthorizedControllers cam order field = GetAuthorizedControllers cam order' field.
Proof.
  intros Hfree Hv Hv'. unfold GetAuthorizedControllers.
  destruct (mappings cam !! field); [done|].
  assert (forall o o' x, visits cam o -> visits cam o' ->
            find (fun entry => HasPrefix field entry.1) o = Some x ->
            find (fun entry => HasPrefix field entry.1) o' = Some x) as Hsame.
  { intros o o' [k v] Ho Ho' Hx. apply find_some in Hx as [Hin Hk]. simpl in Hk.
    apply list_elem_of_In in Hin. pose proof (visits_lookup cam o k v Ho Hin) as Hkv.
    destruct (find (fun entry => HasPrefix field entry.1) o') as [[k' v']|] eqn:Hx'.
    - apply find_some in Hx' as [Hin' Hk']. simpl in Hk'.
      apply list_elem_of_In in Hin'.
      pose proof (visits_lookup cam o' k' v' Ho' Hin') as Hkv'.
      assert (k = k') as <-.
      { destruct (prefix_comparable k k' field Hk Hk') as [Hp|Hp].
        - exact (Hfree k k' v v' Hkv Hkv' Hp).
        - symmetry. exact (Hfree k' k v' v Hkv' Hkv Hp). }
      congruence.
    - exfalso. unfold visits in Ho, Ho'. rewrite Ho, <- Ho' in Hin.
      apply list_elem_of_In in Hin.
      pose proof (find_none _ _ Hx' _ Hin) as Hno. simpl in Hno. congruence. }
  destruct (find _ order) as [x|] eqn:H1.
  - by rewrite (Hsame order order' x Hv Hv' H1).
  - destruct (find _ order') as [x'|] eqn:H2; [|done].
    by rewrite (Hsame order' order x' Hv' Hv H2) in H1.
Qed.

Lemma lookup_list_to_map_find (l : list (string * list string)) (k : string) :
  (list_to_map l : gmap string (list string)) !! k
  = snd <$> find (fun entry => String.eqb entry.1 k) l.
Proof.
  induction l as [|[k' v] l IH]; simpl; [done|].
  destruct (String.eqb_spec k' k) as [->|Hne].
  - by rewrite lookup_insert_eq.
  - by rewrite lookup_insert_ne.
Qed.

Lemma default_mappings_in_insertion_order :
  mappings NewControllerAuthorityMap = list_to_map (insertionOrder defaultAuthorities).
Proof. vm_compute. reflexivity. Qed.

Lemma default_insertion_order_visits :
  visits NewControllerAuthorityMap (insertionOrder defaultAuthorities).
Proof.
  unfold visits. rewrite default_mappings_in_insertion_order.
  symmetry. apply map_to_list_to_map.
  assert (bool_decide (NoDup (insertionOrder defaultAuthorities).*1) = true) as Hnd
    by (vm_compute; reflexivity).
  by apply bool_decide_eq_true in Hnd.
Qed.

Lemma default_prefixFree : prefixFree (mappings NewControllerAuthorityMap).
Proof.
  assert (forallb
            (fun x : string * list string =>
               forallb
                 (fun y : string * list string =>
                    implb (String.prefix x.1 y.1) (String.eqb x.1 y.1))
                 (insertionOrder defaultAuthorities))
            (insertionOrder defaultAuthorities) = true) as Hcheck
    by (vm_compute; reflexivity).
  intros k1 k2 v1 v2 H1 H2 Hp.
  assert (forall k v, mappings NewControllerAuthorityMap !! k = Some v ->
            In (k, v) (insertionOrder defaultAuthorities)) as Hin.
  { intros k v Hkv. apply list_elem_of_In.
    rewrite default_insertion_order_visits. by apply elem_of_map_to_list. }
  rewrite forallb_forall in Hcheck. specialize (Hcheck _ (Hin _ _ H1)).
  rewrite forallb_forall in Hcheck. specialize (Hcheck _ (Hin _ _ H2)).
  simpl in Hcheck. rewrite Hp in Hcheck. by apply String.eqb_eq.
Qed.

(** On the default map, whatever the traversal, the code answers as the scan
    in registration order does. *)
Lemma default_lookup_in_insertion_order order field :
  visits NewControllerAuthorityMap order ->
  GetAuthorizedControllers NewControllerAuthorityMap order field
  = spec_authorized_controllers defaultAuthorities field.
Proof.
  intros Hv.
  rewrite (GetAuthorizedControllers_prefixFree _ order
             (insertionOrder defaultAuthorities) field default_prefixFree Hv
             default_insertion_order_visits).
  unfold GetAuthorizedControllers, spec_authorized_controllers.
  rewrite default_mappings_in_insertion_order, lookup_list_to_map_find.
  by destruct (find (fun entry => String.eqb entry.1 field) _).
Qed.

(** ** The controllers of a map *)

Lemma collectControllers_elem seen controllers ctrls seen' controllers' :
  (forall c, default false (seen !! c) = true <-> c ∈ controllers) ->
  collectControllers (seen, controllers) ctrls = (seen', controllers') ->
  (forall c, default false (seen' !! c) = true <-> c ∈ controllers')
  /\ (forall c, c ∈ controllers' <-> c ∈ controllers \/ (c ∈ ctrls /\ c <> "*")).
Proof.
  unfold collectControllers.
  revert seen controllers. induction ctrls as [|ctrl ctrls IH]; intros seen controllers Hinv.
  - simpl. intros [= <- <-]. split; [done|]. set_solver.
  - simpl.
    destruct (negb (default false (seen !! ctrl)) && negb (String.eqb ctrl "*")) eqn:Hnew.
    + apply andb_true_iff in Hnew as [Hunseen Hstar].
      apply negb_true_iff in Hunseen, Hstar. apply String.eqb_neq in Hstar.
      intros Hfold. apply IH in Hfold as [Hinv' Hmem].
      * split; [exact Hinv'|]. intros c. rewrite Hmem. set_solver.
      * intros c. destruct (decide (ctrl = c)) as [<-|Hne].
        -- rewrite lookup_insert_eq. simpl. set_solver.
        -- rewrite lookup_insert_ne by done. rewrite Hinv. set_solver.
    + intros Hfold. apply IH in Hfold as [Hinv' Hmem]; [|exact Hinv].
      split; [exact Hinv'|]. intros c. rewrite Hmem.
      apply andb_false_iff in Hnew as [Hseen|Hstar].
      * apply negb_false_iff in Hseen. apply Hinv in Hseen. set_solver.
      * apply negb_false_iff, String.eqb_eq in Hstar. set_solver.
Qed.

(** [GetAllControllers] returns the actors that occur in some entry of the
    map, the token "*" left out: as a set, the result does not depend on the
    traversal. *)
Lemma GetAllControllers_elem cam order c :
  visits cam order ->
  c ∈ GetAllControllers cam order
  <-> c <> "*" /\ exists k controllers, mappings cam !! k = Some controllers /\ c ∈ controllers.
Proof.
  intros Hv.
  assert (forall (l : list (string * list string)) seen controllers,
            (forall c, default false (seen !! c) = true <-> c ∈ controllers) ->
            forall c,
              c ∈ (fold_left (fun acc entry => collectControllers acc entry.2) l
                     (seen, controllers)).2
              <-> c ∈ controllers \/ (c <> "*" /\ exists entry, entry ∈ l /\ c ∈ entry.2))
    as Hfold.
  { induction l as [|entry l IH]; intros seen controllers Hinv c'; simpl.
    - split; [by left|]. intros [Hc|(_ & x & Hx & _)]; [done|].
      by apply elem_of_nil in Hx.
    - destruct (collectControllers (seen, controllers) entry.2) as [seen' controllers'] eqn:Hcol.
      destruct (collectControllers_elem _ _ _ _ _ Hinv Hcol) as [Hinv' Hmem].
      rewrite (IH seen' controllers' Hinv' c'), Hmem. split.
      + intros [[Hc|[Hc Hne]]|(Hne & x & Hx & Hc)]; [by left|right|right].
        * split; [done|]. exists entry. split; [apply list_elem_of_here|done].
        * split; [done|]. exists x. split; [by apply list_elem_of_further|done].
      + intros [Hc|(Hne & x & [->|Hx]%elem_of_cons & Hc)].
        * by left; left.
        * by left; right.
        * right. split; [done|]. by exists x. }
  unfold GetAllControllers. rewrite (Hfold order ∅ []).
  - split.
    + intros [Hc|(Hne & [k v] & Hin & Hc)]; [by apply elem_of_nil in Hc|].
      split; [done|]. exists k, v. split; [|done]. by apply (visits_lookup cam order).
    + intros (Hne & k & v & Hkv & Hc). right. split; [done|]. exists (k, v).
      split; [|done]. unfold visits in Hv. rewrite Hv. by apply elem_of_map_to_list.
  - intros c'. rewrite lookup_empty. simpl. split; [done|].
    intros Hc. by apply elem_of_nil in Hc.
Qed.

(** C5, as the code has it. An exact key wins; otherwise the answer is the
    entry that the traversal of the map meets first among those whose key is
    a prefix of the field, and that entry belongs to the map; when no key
    of the map is a prefix of the field the answer is empty. The traversal
    order is the map's own, not the order of registration; it does not
    matter when no key of the map is a proper prefix of another. *)
Theorem GetAuthorizedControllers_lookup cam order field :
  visits cam order ->
  (forall controllers,
      mappings cam !! field = Some controllers ->
      GetAuthorizedControllers cam order field = controllers)
  /\ (forall pre k controllers post,
      mappings cam !! field = None ->
      order = pre ++ (k, controllers) :: post ->
      HasPrefix field k = true ->
      Forall (fun entry => HasPrefix field entry.1 = false) pre ->
      GetAuthorizedControllers cam order field = controllers
      /\ mappings cam !! k = Some controllers)
  /\ ((forall k controllers,
         mappings cam !! k = Some controllers -> HasPrefix field k = false) ->
      GetAuthorizedControllers cam order field = [])
  /\ (prefixFree (mappings cam) ->
      forall order',
        visits cam order' ->
        GetAuthorizedControllers cam order' field
        = GetAuthorizedControllers cam order field).
Proof.
  intros Hv. split; [|split; [|split]];
    [| | |intros Hfree order' Hv'; by apply GetAuthorizedControllers_prefixFree].
  - intros controllers Hex. unfold GetAuthorizedControllers. by rewrite Hex.
  - intros pre k controllers post Hnone -> Hk Hpre. split.
    + unfold GetAuthorizedControllers. rewrite Hnone.
      by rewrite (find_first_match _ pre (k, controllers) post Hpre Hk).
    + apply (visits_lookup cam _ k controllers Hv).
      apply elem_of_app. right. apply list_elem_of_here.
  - intros Hno. unfold GetAuthorizedControllers.
    destruct (mappings cam !! field) as [controllers|] eqn:Hex.
    + apply Hno in Hex. unfold HasPrefix in Hex.
      assert (String.prefix field field = true) as Hrefl.
      { clear. induction field as [|a f IH]; simpl; [done|].
        destruct (Ascii.ascii_dec a a); [done|congruence]. }
      congruence.
    + rewrite find_no_match; [done|].
      intros [k controllers] Hin. simpl.
      apply (Hno k controllers). by apply (visits_lookup cam order).
Qed.

Lemma GetAuthorizedControllers_lookup_witness :
  GetAuthorizedControllers NewControllerAuthorityMap
    (map_to_list (mappings NewControllerAuthorityMap))
    "status.conditions[Ready].status"
  = ["node-controller"; "kubelet"]
  /\ mappings NewControllerAuthorityMap !! "status.conditions"
     = Some ["node-controller"; "kubelet"].
Proof.
  refine (proj1 (proj2 (GetAuthorizedControllers_lookup NewControllerAuthorityMap
            (map_to_list (mappings NewControllerAuthorityMap))
            "status.conditions[Ready].status" _))
          (take 2 (map_to_list (mappings NewControllerAuthorityMap)))
          "status.conditions" ["node-controller"; "kubelet"]
          (drop 3 (map_to_list (mappings NewControllerAuthorityMap))) _ _ _ _).
  - unfold visits. reflexivity.
  - vm_compute. reflexivity.
  - vm_compute. reflexivity.
  - vm_compute. reflexivity.
  - vm_compute. repeat constructor.
Defined.

(** C5, as stated, fails: with "status" registered before "status.phase",
    a traversal that meets "status.phase" first is a traversal of the map,
    and the code then answers with the actors of "status.phase", while the
    scan in registration order answers with those of "status". *)
Lemma prefix_scan_not_in_insertion_order :
  let order := [ ("status.phase", ["pv-controller"]); ("status", ["kubelet"]) ] in
  visits overlappingMap order
  /\ GetAuthorizedControllers overlappingMap order "status.phase.detail"
     = ["pv-controller"]
  /\ spec_authorized_controllers overlappingAuthorities "status.phase.detail"
     = ["kubelet"].
Proof.
  split; [|split].
  - unfold visits.
    replace (map_to_list (mappings overlappingMap))
      with [ ("status.phase", ["pv-controller"]); ("status", ["kubelet"]) ]
      by (vm_compute; reflexivity).
    reflexivity.
  - vm_compute. reflexivity.
  - vm_compute. reflexivity.
Qed.

End AuthorityFacts.

(* ===================================================================== *)
(** * Theorems: the state store *)
(* ===================================================================== *)

Section StoreFacts.

Implicit Types (s : MemoryStore) (ev : StateEvent) (evs : list StateEvent) (uid : string).

(** The events of [uid] among [evs], in recording order. *)
Local Abbreviation recordedFor uid evs :=
  (List.filter (fun ev => String.eqb (ev_UID ev) uid) evs).

Lemma GetByUID_Record s ev uid :
  GetByUID (MemoryStore_Record s ev) uid
  = if String.eqb (ev_UID ev) uid then Some ev else GetByUID s uid.
Proof.
  unfold GetByUID, MemoryStore_Record; simpl.
  destruct (String.eqb_spec (ev_UID ev) uid) as [->|Hne].
  - by rewrite lookup_insert_eq.
  - by rewrite lookup_insert_ne.
Qed.

Lemma GetByUID_recordAll s evs uid :
  GetByUID (recordAll s evs) uid
  = match last (recordedFor uid evs) with
    | Some ev => Some ev
    | None => GetByUID s uid
    end.
Proof.
  revert s. induction evs as [|ev evs IH]; intros s; [done|].
  change (recordAll s (ev :: evs)) with (recordAll (MemoryStore_Record s ev) evs).
  rewrite IH, GetByUID_Record. simpl.
  destruct (String.eqb (ev_UID ev) uid); [|done].
  rewrite last_cons. by destruct (last (recordedFor uid evs)).
Qed.

(** When the events of a uid are recorded in the order of their timestamps,
    the latest event in the specification's sense is the one recorded last. *)
Lemma spec_latest_in_time_order evs uid :
  recordedInTimeOrder evs uid -> spec_latest evs uid = last (recordedFor uid evs).
Proof.
  unfold recordedInTimeOrder.
  induction evs as [|ev evs IH] using rev_ind; intros Hord; [done|].
  unfold spec_latest in *. rewrite fold_left_app. simpl.
  rewrite IH; last first.
  { intros pre e1 mid e2 post -> H1 H2.
    apply (Hord pre e1 mid e2 (post ++ [ev])); [|done..].
    by rewrite <- !app_assoc, <- !app_comm_cons, <- !app_assoc, <- !app_comm_cons. }
  rewrite List.filter_app. simpl.
  destruct (String.eqb_spec (ev_UID ev) uid) as [Huid|_].
  - rewrite last_snoc.
    destruct (last (recordedFor uid evs)) as [b|] eqn:Hlast; [|done].
    assert (b ∈ recordedFor uid evs) as Hb.
    { apply last_Some in Hlast as [l' ->]. apply elem_of_app. right.
      apply list_elem_of_here. }
    apply list_elem_of_In, filter_In in Hb as [Hb Hbuid].
    apply String.eqb_eq in Hbuid.
    apply list_elem_of_In, list_elem_of_split in Hb as (pre & post & ->).
    assert (ev_Timestamp b <= ev_Timestamp ev) as Hle.
    { apply (Hord pre b post ev []); [|done..].
      by rewrite <- app_assoc, <- app_comm_cons. }
    apply Z.leb_le in Hle. by rewrite Hle.
  - by rewrite app_nil_r.
Qed.

(** C2, as the code has it. [GetByUID] returns the event of that uid that was
    recorded last, whatever the timestamps, and nothing exactly when no event
    of that uid was recorded; it is the event with the greatest timestamp,
    ties broken by insertion order, when the events of the uid are recorded
    in the order of their timestamps. *)
Theorem GetByUID_returns_last_recorded evs uid :
  GetByUID (recordAll NewMemoryStore evs) uid = last (recordedFor uid evs)
  /\ (GetByUID (recordAll NewMemoryStore evs) uid = None
      <-> forall ev, ev ∈ evs -> ev_UID ev <> uid)
  /\ (recordedInTimeOrder evs uid ->
      GetByUID (recordAll NewMemoryStore evs) uid = spec_latest evs uid).
Proof.
  assert (GetByUID (recordAll NewMemoryStore evs) uid = last (recordedFor uid evs)) as Heq.
  { rewrite GetByUID_recordAll. by destruct (last (recordedFor uid evs)). }
  split; [exact Heq|]. split; [|intros Hord; by rewrite spec_latest_in_time_order].
  rewrite Heq, last_None. split.
  - intros Hnil ev Hin Huid.
    assert (ev ∈ recordedFor uid evs) as Hmem.
    { apply list_elem_of_In, filter_In. split; [by apply list_elem_of_In|].
      by apply String.eqb_eq. }
    rewrite Hnil in Hmem. by apply elem_of_nil in Hmem.
  - clear Heq. intros Hno. induction evs as [|ev evs IH]; [done|]. simpl.
    destruct (String.eqb_spec (ev_UID ev) uid) as [Huid|_].
    + exfalso. apply (Hno ev); [apply list_elem_of_here|done].
    + apply IH. intros ev' Hin. apply Hno. by apply list_elem_of_further.
Qed.

(** C2, as stated, fails: an event recorded later with a smaller timestamp
    replaces the one with the greatest timestamp. *)
Lemma GetByUID_ignores_timestamps :
  let newer := podEvent "pod-1" "2" 20 ∅ in
  let older := podEvent "pod-1" "1" 10 ∅ in
  GetByUID (recordAll NewMemoryStore [newer; older]) "pod-1" = Some older
  /\ spec_latest [newer; older] "pod-1" = Some newer
  /\ ev_Timestamp older < ev_Timestamp newer.
Proof.
  split; [|split].
  - vm_compute. reflexivity.
  - vm_compute. reflexivity.
  - vm_compute. reflexivity.
Qed.

End StoreFacts.

(* ===================================================================== *)
(** * Theorems: predicates *)
(* ===================================================================== *)

Section PredicateFacts.

Variable fmt_v : value -> string.

(** What [isTruthy] computes, clause by clause. *)
Lemma isTruthy_table :
  (forall b, isTruthy (VBool b) = b)
  /\ (forall s, isTruthy (VString s) = true <-> s <> "" /\ s <> "False" /\ s <> "false")
  /\ (forall n, isTruthy (VInt n) = true <-> n <> 0)
  /\ (forall f, isTruthy (VFloat64 f) = negb (SFeqb f float64_zero))
  /\ isTruthy VNil = false
  /\ (forall items, isTruthy (VSlice items) = true)
  /\ (forall entries, isTruthy (VMap entries) = true)
  /\ (forall n, isTruthy (VInt32 n) = true)
  /\ (forall n, isTruthy (VInt64 n) = true)
  /\ (forall f, isTruthy (VFloat32 f) = true).
Proof.
  split; [by intros []|]. split.
  { intros s. simpl.
    destruct (String.eqb_spec s ""), (String.eqb_spec s "False"),
      (String.eqb_spec s "false"); simpl; split; try done; intros (? & ? & ?); done. }
  split.
  { intros n. simpl. destruct (Z.eqb_spec n 0); simpl; split; done. }
  repeat split.
Qed.

(** C3, where the code departs from it: a zero of type [int32], [int64] or
    [float32] is truthy. *)
Theorem isTruthy_zero_of_sized_type :
  isTruthy (VInt32 0) = true
  /\ isTruthy (VInt64 0) = true
  /\ isTruthy (VFloat32 (S754_zero false)) = true
  /\ isTruthy (VInt 0) = false
  /\ isTruthy (VFloat64 (S754_zero false)) = false.
Proof. repeat split. Qed.

End PredicateFacts.

(* ===================================================================== *)
(** * Theorems: the evaluation engine *)
(* ===================================================================== *)

Section EngineFacts.

Variable fmt_v : value -> string.
Variable rt : Runtime.
Variable e : EvaluationEngine.

Implicit Types (inv : Invariant) (ctx : EvaluationContext) (s : EngineState).
Implicit Types (req : Requirement) (reqs : list Requirement) (fuel : nat).
Implicit Types (rec : Invariant -> EvaluationContext -> M (option ViolationResult)).

Local Abbreviation eval := (EvaluateWithContext fmt_v rt e).
Local Abbreviation uidOf ctx := (ev_UID (ctx_Resource ctx)).

(** ** The monad *)

Lemma bind_Ok {A B : Type} (m : M A) (k : A -> M B) s b s' :
  bind m k s = Ok (b, s') <-> exists a s1, m s = Ok (a, s1) /\ k a s1 = Ok (b, s').
Proof.
  unfold bind. split.
  - destruct (m s) as [[a s1]| |]; [|done..]. intros H. by exists a, s1.
  - intros (a & s1 & -> & H). exact H.
Qed.

Lemma bind_unfold {A B : Type} (m : M A) (k : A -> M B) s :
  bind m k s
  = match m s with
    | Ok (a, s') => k a s'
    | Panic msg => Panic msg
    | OutOfFuel => OutOfFuel
    end.
Proof. reflexivity. Qed.

Lemma log_step {B : Type} id uid result reason start (k : M B) s :
  (d <- timeSince rt start ;; _ <- logEvaluation rt id uid result reason d ;; k) s
  = k (logged rt id uid result reason start s).
Proof. reflexivity. Qed.

(** ** Step 1 and 2: the invariant's own predicate *)

Lemma evaluateOwnPredicate_holds inv ctx result start s :
  ownPredicateHolds fmt_v inv ctx ->
  evaluateOwnPredicate fmt_v rt e inv ctx result start s = Ok (None, s).
Proof.
  unfold ownPredicateHolds, evaluateOwnPredicate.
  destruct (inv_Predicate inv) as [pred|]; [|done].
  intros [reason Hp]. unfold bind, liftO. by rewrite Hp.
Qed.

(** ** Step 3: requirements *)

Lemma evaluateRequires_app rec inv ctx result start pre rest s :
  evaluateRequires rt e rec inv ctx result start (pre ++ rest) s
  = match evaluateRequires rt e rec inv ctx result start pre s with
    | Ok (None, s') => evaluateRequires rt e rec inv ctx result start rest s'
    | other => other
    end.
Proof.
  revert s. induction pre as [|req pre IH]; intros s; [done|]. simpl.
  destruct (invariants e !! req_Invariant req) as [reqInv|]; [|apply IH].
  rewrite !(bind_unfold (evaluateDependency e rec req ctx)).
  destruct (evaluateDependency e rec req ctx s) as [[[dep|] s1]| |]; [|apply IH|done..].
  by rewrite !log_step.
Qed.

Lemma evaluateDependency_unregistered rec req ctx s :
  invariants e !! req_Invariant req = None ->
  evaluateDependency e rec req ctx s
  = Ok (Some (zeroViolation (req_Invariant req) "Required invariant not registered"), s).
Proof. intros H. unfold evaluateDependency. by rewrite H. Qed.

Lemma evaluateDependency_other_relation rec req reqInv ctx s :
  invariants e !! req_Invariant req = Some reqInv ->
  scope_Relation (req_Scope req) <> Same ->
  exists reason,
    evaluateDependency e rec req ctx s = Ok (Some (zeroViolation (inv_ID reqInv) reason), s)
    /\ (scope_Relation (req_Scope req) ∈ [Owner; Selector; Node] ->
        reason = "Dependency relation not supported by StateStore").
Proof.
  intros Hreg Hrel. unfold evaluateDependency. rewrite Hreg.
  destruct (String.eqb_spec (scope_Relation (req_Scope req)) Same) as [|_]; [done|].
  destruct (String.eqb (scope_Relation (req_Scope req)) Owner
            || String.eqb (scope_Relation (req_Scope req)) Node
            || String.eqb (scope_Relation (req_Scope req)) Selector) eqn:Hsup.
  - eexists. split; [reflexivity|done].
  - eexists. split; [reflexivity|]. intros Hin. exfalso.
    apply orb_false_elim in Hsup as [Hsup Hsel].
    apply orb_false_elim in Hsup as [Hown Hnode].
    apply String.eqb_neq in Hsel, Hown, Hnode.
    repeat (apply elem_of_cons in Hin as [Hin|Hin]; [done|]).
    by apply elem_of_nil in Hin.
Qed.

(** A requirement with a relation other than [same], on a registered
    invariant, reached with no violation so far, ends the evaluation with a
    violation that carries no actor. *)
Lemma eval_other_relation fuel inv ctx s pre req post reqInv s2 :
  inv_Requires inv = pre ++ req :: post ->
  invariants e !! req_Invariant req = Some reqInv ->
  scope_Relation (req_Scope req) <> Same ->
  ownPredicateHolds fmt_v inv ctx ->
  evaluateRequires rt e (eval fuel) inv ctx (newResult inv ctx) (clock rt (tick s))
    pre (advance s) = Ok (None, s2) ->
  exists reason,
    eval (S fuel) inv ctx s
    = Ok (Some (violated (newResult inv ctx)
                  ("Dependency " +:+ inv_ID reqInv +:+ " failed: " +:+ reason) "" []),
          logged rt (inv_ID inv) (uidOf ctx) false
            ("Dependency " +:+ inv_ID reqInv +:+ " failed: " +:+ reason)
            (clock rt (tick s)) s2)
    /\ (scope_Relation (req_Scope req) ∈ [Owner; Selector; Node] ->
        reason = "Dependency relation not supported by StateStore").
Proof.
  intros Hreqs Hreg Hrel Hown Hpre.
  destruct (evaluateDependency_other_relation (eval fuel) req reqInv ctx s2 Hreg Hrel)
    as (reason & Hdep & Hreason).
  exists reason. split; [|exact Hreason].
  simpl. rewrite bind_unfold. simpl. rewrite bind_unfold.
  rewrite (evaluateOwnPredicate_holds _ _ _ _ _ Hown).
  rewrite bind_unfold, Hreqs, evaluateRequires_app, Hpre. simpl.
  rewrite Hreg, bind_unfold, Hdep. by rewrite log_step.
Qed.

Lemma evaluateRequires_same_ID rec inv inv' ctx result start reqs s :
  inv_ID inv = inv_ID inv' ->
  evaluateRequires rt e rec inv ctx result start reqs s
  = evaluateRequires rt e rec inv' ctx result start reqs s.
Proof.
  intros Hid. revert s. induction reqs as [|req reqs IH]; intros s; [done|]. simpl.
  destruct (invariants e !! req_Invariant req) as [reqInv|]; [|apply IH].
  rewrite !(bind_unfold (evaluateDependency e rec req ctx)).
  destruct (evaluateDependency e rec req ctx s) as [[[dep|] s1]| |]; [|apply IH|done..].
  by rewrite Hid.
Qed.

Lemma evaluateRequires_skip rec inv ctx result start pre req post s :
  invariants e !! req_Invariant req = None ->
  evaluateRequires rt e rec inv ctx result start (pre ++ req :: post) s
  = evaluateRequires rt e rec inv ctx result start (pre ++ post) s.
Proof.
  intros Hreg. rewrite !evaluateRequires_app. simpl. by rewrite Hreg.
Qed.

(** C1, as the code has it. [evaluateDependency] answers a requirement on an
    unregistered invariant with the violation "Required invariant not
    registered", but [EvaluateWithContext] never asks it: the loop skips
    such a requirement, and the evaluation proceeds as if the requirement
    were not there. *)
Theorem unregistered_requirement_is_skipped rec req ctx :
  invariants e !! req_Invariant req = None ->
  (forall s,
      evaluateDependency e rec req ctx s
      = Ok (Some (zeroViolation (req_Invariant req) "Required invariant not registered"), s))
  /\ (forall fuel inv pre post s,
      inv_Requires inv = pre ++ req :: post ->
      eval fuel inv ctx s = eval fuel (withRequires inv (pre ++ post)) ctx s).
Proof.
  intros Hreg. split.
  - intros s. by apply evaluateDependency_unregistered.
  - intros [|fuel] inv pre post s Hreqs; [done|]. simpl.
    rewrite !(bind_unfold (timeNow rt)). simpl.
    rewrite !(bind_unfold (evaluateOwnPredicate _ _ _ _ _ _ _)).
    change (evaluateOwnPredicate fmt_v rt e (withRequires inv (pre ++ post)) ctx)
      with (evaluateOwnPredicate fmt_v rt e inv ctx).
    change (newResult (withRequires inv (pre ++ post)) ctx) with (newResult inv ctx).
    destruct (evaluateOwnPredicate fmt_v rt e inv ctx (newResult inv ctx)
                (clock rt (tick s)) (advance s)) as [[[v|] s1]| |]; [done| |done..].
    rewrite !(bind_unfold (evaluateRequires _ _ _ _ _ _ _ _)).
    rewrite Hreqs, (evaluateRequires_skip _ _ _ _ _ _ _ _ _ Hreg).
    by rewrite (evaluateRequires_same_ID _ inv (withRequires inv (pre ++ post))).
Qed.

(** C7, as the code has it. When the evaluation reaches, with no violation
    so far, a requirement on a registered invariant with relation [owner],
    [selector] or [node], it returns a violation whose reason is the text
    "Dependency relation not supported by StateStore" wrapped as the failure
    of that dependency; the violation does not depend on the environment. *)
Theorem unsupported_relation_violation fuel inv ctx s pre req post reqInv s2 :
  inv_Requires inv = pre ++ req :: post ->
  invariants e !! req_Invariant req = Some reqInv ->
  scope_Relation (req_Scope req) ∈ [Owner; Selector; Node] ->
  ownPredicateHolds fmt_v inv ctx ->
  evaluateRequires rt e (eval fuel) inv ctx (newResult inv ctx) (clock rt (tick s))
    pre (advance s) = Ok (None, s2) ->
  exists s',
    eval (S fuel) inv ctx s
    = Ok (Some (violated (newResult inv ctx)
                  ("Dependency " +:+ inv_ID reqInv
                     +:+ " failed: Dependency relation not supported by StateStore")
                  "" []),
          s').
Proof.
  intros Hreqs Hreg Hrel Hown Hpre.
  assert (scope_Relation (req_Scope req) <> Same) as Hne.
  { intros Heq. rewrite Heq in Hrel.
    repeat (apply elem_of_cons in Hrel as [Hrel|Hrel]; [done|]).
    by apply elem_of_nil in Hrel. }
  destruct (eval_other_relation fuel inv ctx s pre req post reqInv s2
              Hreqs Hreg Hne Hown Hpre) as (reason & Heval & Hreason).
  rewrite (Hreason Hrel) in Heval. eexists. exact Heval.
Qed.

(** C10. A violation raised by a requirement whose relation is not [same]
    ([owner], [selector], [node] or any unknown value), the invariant's own
    predicate being absent or satisfied, names no responsible actor and
    eliminates nobody. *)
Theorem foreign_dependency_violation_has_no_actors fuel inv ctx s pre req post reqInv s2 :
  inv_Requires inv = pre ++ req :: post ->
  invariants e !! req_Invariant req = Some reqInv ->
  scope_Relation (req_Scope req) <> Same ->
  ownPredicateHolds fmt_v inv ctx ->
  evaluateRequires rt e (eval fuel) inv ctx (newResult inv ctx) (clock rt (tick s))
    pre (advance s) = Ok (None, s2) ->
  exists v s',
    eval (S fuel) inv ctx s = Ok (Some v, s')
    /\ vr_Violated v = true
    /\ vr_ResponsibleActor v = ""
    /\ vr_EliminatedActors v = [].
Proof.
  intros Hreqs Hreg Hne Hown Hpre.
  destruct (eval_other_relation fuel inv ctx s pre req post reqInv s2
              Hreqs Hreg Hne Hown Hpre) as (reason & Heval & _).
  eexists _, _. split; [exact Heval|]. done.
Qed.

(** ** Panics *)

Lemma containsValue_comparable arr v :
  (forall item, eq_panics item v = false) -> exists b, containsValue arr v = Ok b.
Proof.
  intros Hv. induction arr as [|item arr [b IH]]; simpl; [by eexists|].
  unfold iface_eq. rewrite Hv. destruct (iface_eqb item v); by eexists.
Qed.

(** With an operand that is nil or of a comparable type, the evaluation of
    a predicate returns. *)
Lemma evaluatePredicateWithReason_comparable_operand pred subject :
  match dyntype (pred_Value pred) with
  | Some t => comparable t = true
  | None => True
  end ->
  exists r, evaluatePredicateWithReason fmt_v pred subject = Ok r.
Proof.
  intros Hop.
  assert (forall item, eq_panics item (pred_Value pred) = false) as Hcmp.
  { intros item. unfold eq_panics.
    destruct (dyntype item) as [ta|]; [|done].
    destruct (dyntype (pred_Value pred)) as [tb|]; [|done].
    case_bool_decide as Heq; [|done]. subst ta. by rewrite Hop. }
  unfold evaluatePredicateWithReason.
  repeat match goal with
         | |- context [if String.eqb ?a ?b then _ else _] => destruct (String.eqb a b)
         end;
    destruct (ev_FieldDiff subject !! pred_Field pred) as [value|];
    try (by eexists).
  - unfold iface_eq. rewrite Hcmp.
    destruct (iface_eqb value (pred_Value pred)); by eexists.
  - unfold iface_eq. rewrite Hcmp.
    destruct (iface_eqb value (pred_Value pred)); by eexists.
  - destruct (toNumber value); [|by eexists].
    destruct (toNumber (pred_Value pred)); [|by eexists].
    destruct (SFleb _ _); by eexists.
  - destruct (toNumber value); [|by eexists].
    destruct (toNumber (pred_Value pred)); [|by eexists].
    destruct (SFleb _ _); by eexists.
  - destruct value; try (destruct (isTruthy _); by eexists).
    destruct (existsb isTruthy items); by eexists.
  - destruct value; try (destruct (isTruthy _); by eexists).
    destruct (length items =? 0)%nat; [by eexists|].
    destruct (find _ items); by eexists.
  - destruct value; try (by eexists).
    destruct (containsValue_comparable items (pred_Value pred) Hcmp) as [b ->].
    destruct b; by eexists.
Qed.

(** C4, where the code departs from it: with the operator [equals] or
    [not_equals], a sequence in the field and a sequence as operand make the
    comparison of the two interface values panic; nothing recovers, and the
    panic leaves [EvaluateWithContext] and [Evaluate]. *)
Theorem comparing_sequences_panics :
  let subject := podEvent "pod-1" "1" 0 withContainers in
  let inv := bareInvariant "fixed_containers" (Some containersAre) [] in
  let msg := "runtime error: comparing uncomparable type" in
  evaluatePredicateWithReason fmt_v containersAre subject = Panic msg
  /\ evaluatePredicateWithReason fmt_v containersAreNot subject = Panic msg
  /\ (forall fuel ctx s, ctx_Resource ctx = subject -> eval (S fuel) inv ctx s = Panic msg)
  /\ (forall fuel s,
        Evaluate fmt_v rt
          {| store := recordAll NewMemoryStore [subject]; evalEngine := e |}
          (S fuel) inv s = Panic msg).
Proof.
  intros subject inv msg.
  assert (evaluatePredicateWithReason fmt_v containersAre subject = Panic msg) as Hp
    by (vm_compute; reflexivity).
  assert (forall fuel ctx s, ctx_Resource ctx = subject -> eval (S fuel) inv ctx s = Panic msg)
    as Heval.
  { intros fuel ctx s Hctx. simpl. rewrite bind_unfold. simpl. rewrite bind_unfold.
    unfold evaluateOwnPredicate. simpl. rewrite bind_unfold. unfold liftO.
    by rewrite Hctx, Hp. }
  split; [exact Hp|]. split; [vm_compute; reflexivity|]. split; [exact Heval|].
  intros fuel s. unfold Evaluate.
  replace (GetLatestByKind _ _) with [subject] by (vm_compute; reflexivity).
  cbn [evaluateSubjects]. rewrite bind_unfold. unfold evaluateSubject.
  rewrite bind_unfold. cbn [timeNow]. by rewrite Heval.
Qed.

(** ** Responsibility and elimination *)

Local Abbreviation cam := (authorityMap e).
Local Abbreviation orderAt n := (rangeOrder rt n _ (map_to_list (mappings (authorityMap e)))).

Lemma orderAt_visits n : lawful rt -> visits cam (orderAt n).
Proof. intros Hrt. unfold visits. apply Hrt. Qed.

Lemma determineResponsibility_Ok inv resource s :
  exists responsible s',
    determineResponsibility rt e inv resource s = Ok (responsible, s')
    /\ evaluationLog s' = evaluationLog s.
Proof.
  unfold determineResponsibility.
  destruct (inv_Predicate inv) as [pred|]; [|by eexists _, _].
  rewrite bind_unfold. cbn [rangeMap].
  destruct (GetAuthorizedControllers cam (orderAt (tick s)) (pred_Field pred))
    as [|c [|c' l]]; [| by eexists _, _ |];
    destruct (find _ _); by eexists _, _.
Qed.

Lemma eliminateActors_eq field primary s :
  eliminateActors rt e field primary s
  = Ok (List.filter
          (fun controller =>
             negb (String.eqb controller primary)
             && negb (contains (GetAuthorizedControllers cam (orderAt (tick s)) field)
                        controller))
          (GetAllControllers cam (orderAt (S (tick s)))),
        advance (advance s)).
Proof. reflexivity. Qed.

Lemma contains_elem (slice : list string) (item : string) :
  contains slice item = true <-> item ∈ slice.
Proof.
  unfold contains. rewrite existsb_exists. split.
  - intros (x & Hin & Heq). apply String.eqb_eq in Heq as ->. by apply list_elem_of_In.
  - intros Hin. exists item. split; [by apply list_elem_of_In|apply String.eqb_refl].
Qed.

(** What [eliminateActors] keeps. *)
Lemma eliminated_elem (authorized allControllers : list string) (primary c : string) :
  c ∈ List.filter
        (fun controller =>
           negb (String.eqb controller primary) && negb (contains authorized controller))
        allControllers
  <-> c ∈ allControllers /\ c <> primary /\ c ∉ authorized.
Proof.
  rewrite list_elem_of_In, filter_In, andb_true_iff, !negb_true_iff.
  rewrite <- list_elem_of_In, String.eqb_neq, <- not_true_iff_false, contains_elem.
  done.
Qed.

(** The two ways out of steps 1 and 2. *)
Lemma evaluateOwnPredicate_inv inv ctx result start s r s' :
  evaluateOwnPredicate fmt_v rt e inv ctx result start s = Ok (r, s') ->
  (r = None /\ s' = s /\ ownPredicateHolds fmt_v inv ctx)
  \/ (exists pred reason responsible n n' s1,
        inv_Predicate inv = Some pred
        /\ evaluatePredicateWithReason fmt_v pred (ctx_Resource ctx) = Ok (false, reason)
        /\ r = Some (violated result reason responsible
                      (List.filter
                         (fun controller =>
                            negb (String.eqb controller responsible)
                            && negb (contains
                                       (GetAuthorizedControllers cam (orderAt n)
                                          (pred_Field pred))
                                       controller))
                         (GetAllControllers cam (orderAt n'))))
        /\ evaluationLog s1 = evaluationLog s
        /\ s' = logged rt (inv_ID inv) (uidOf ctx) false reason start s1).
Proof.
  unfold evaluateOwnPredicate, ownPredicateHolds.
  destruct (inv_Predicate inv) as [pred|] eqn:Hpred; [|intros [= <- <-]; by left].
  rewrite bind_unfold. unfold liftO.
  destruct (evaluatePredicateWithReason fmt_v pred (ctx_Resource ctx))
    as [[[] reason]| |] eqn:Hcheck; [| |done..]; simpl.
  { intros [= <- <-]. left. repeat split. by exists reason. }
  rewrite bind_unfold.
  destruct (determineResponsibility_Ok inv (ctx_Resource ctx) s)
    as (responsible & s1 & -> & Hlog).
  rewrite bind_unfold, eliminateActors_eq, log_step. intros [= <- <-].
  right. exists pred, reason, responsible, (tick s1), (S (tick s1)), (advance (advance s1)).
  repeat split; assumption.
Qed.

Lemma evaluateDependency_actors rec req ctx s dep s' :
  (forall inv' ctx' s0 v s1, rec inv' ctx' s0 = Ok (Some v, s1) -> consistentActors v) ->
  evaluateDependency e rec req ctx s = Ok (Some dep, s') -> consistentActors dep.
Proof.
  intros Hrec. unfold evaluateDependency.
  destruct (invariants e !! req_Invariant req) as [reqInv|].
  - destruct (String.eqb _ Same); [by apply Hrec|].
    destruct (_ || _); intros [= <- <-]; apply not_elem_of_nil.
  - intros [= <- <-]. apply not_elem_of_nil.
Qed.

Lemma evaluateRequires_actors rec inv ctx result start reqs s v s' :
  (forall inv' ctx' s0 v s1, rec inv' ctx' s0 = Ok (Some v, s1) -> consistentActors v) ->
  evaluateRequires rt e rec inv ctx result start reqs s = Ok (Some v, s') ->
  consistentActors v.
Proof.
  intros Hrec. revert s. induction reqs as [|req reqs IH]; intros s; [done|]. simpl.
  destruct (invariants e !! req_Invariant req) as [reqInv|]; [|apply IH].
  rewrite bind_unfold.
  destruct (evaluateDependency e rec req ctx s) as [[[dep|] s1]| |] eqn:Hdep;
    [|apply IH|done..].
  rewrite log_step. intros [= <- <-].
  exact (evaluateDependency_actors rec req ctx s dep s1 Hrec Hdep).
Qed.

(** The three ways out of [EvaluateWithContext]. *)
Lemma eval_S_inv fuel inv ctx s r s' :
  eval (S fuel) inv ctx s = Ok (r, s') ->
  (exists v, r = Some v
     /\ evaluateOwnPredicate fmt_v rt e inv ctx (newResult inv ctx) (clock rt (tick s))
          (advance s) = Ok (Some v, s'))
  \/ (exists v s1, r = Some v
     /\ evaluateOwnPredicate fmt_v rt e inv ctx (newResult inv ctx) (clock rt (tick s))
          (advance s) = Ok (None, s1)
     /\ evaluateRequires rt e (eval fuel) inv ctx (newResult inv ctx) (clock rt (tick s))
          (inv_Requires inv) s1 = Ok (Some v, s'))
  \/ (exists s1 s2, r = None
     /\ evaluateOwnPredicate fmt_v rt e inv ctx (newResult inv ctx) (clock rt (tick s))
          (advance s) = Ok (None, s1)
     /\ evaluateRequires rt e (eval fuel) inv ctx (newResult inv ctx) (clock rt (tick s))
          (inv_Requires inv) s1 = Ok (None, s2)
     /\ s' = logged rt (inv_ID inv) (uidOf ctx) true "satisfied" (clock rt (tick s)) s2).
Proof.
  cbn [EvaluateWithContext]. rewrite bind_unfold. cbn [timeNow]. rewrite bind_unfold.
  destruct (evaluateOwnPredicate _ _ _ _ _ _ _ _) as [[[v|] s1]| |] eqn:Hown;
    [| |done..].
  { intros [= <- <-]. left. by exists v. }
  rewrite bind_unfold.
  destruct (evaluateRequires _ _ _ _ _ _ _ _ _) as [[[v|] s2]| |] eqn:Hreq;
    [| |done..].
  { intros [= <- <-]. right. left. by exists v, s1. }
  rewrite log_step. intros [= <- <-]. right. right. by exists s1, s2.
Qed.

Lemma eval_actors fuel inv ctx s v s' :
  eval fuel inv ctx s = Ok (Some v, s') -> consistentActors v.
Proof.
  revert inv ctx s v s'. induction fuel as [|fuel IH]; intros inv ctx s v s'; [done|].
  intros [(v' & [= <-] & Hown)|[(v' & s1 & [= <-] & _ & Hreq)|(? & ? & [=] & _)]]%eval_S_inv.
  - apply evaluateOwnPredicate_inv in Hown
      as [([=] & _)|(pred & reason & responsible & n & n' & s1 & _ & _ & [= ->] & _)].
    unfold consistentActors; simpl. rewrite eliminated_elem. by intros (_ & ? & _).
  - by apply (evaluateRequires_actors _ _ _ _ _ _ _ _ _ IH Hreq).
Qed.

(** C6, as the code has it. No violation lists its responsible actor among
    the eliminated ones. When the violation comes from the invariant's own
    predicate on field [f], the eliminated actors are exactly the
    controllers of the map, other than the responsible actor, that the
    lookup for [f] does not return. (A violation that comes from a
    requirement carries the actors of the requirement's violation.) *)
Theorem eliminated_actors_of_own_predicate fuel inv ctx s v s' :
  lawful rt ->
  eval fuel inv ctx s = Ok (Some v, s') ->
  (vr_ResponsibleActor v ∉ vr_EliminatedActors v)
  /\ (forall pred reason,
        inv_Predicate inv = Some pred ->
        evaluatePredicateWithReason fmt_v pred (ctx_Resource ctx) = Ok (false, reason) ->
        exists order order',
          visits cam order /\ visits cam order'
          /\ forall c,
               c ∈ vr_EliminatedActors v
               <-> c ∈ GetAllControllers cam order'
                   /\ c <> vr_ResponsibleActor v
                   /\ c ∉ GetAuthorizedControllers cam order (pred_Field pred)).
Proof.
  intros Hrt Heval. split; [exact (eval_actors _ _ _ _ _ _ Heval)|].
  intros pred reason Hpred Hfails.
  destruct fuel as [|fuel]; [done|].
  assert (~ ownPredicateHolds fmt_v inv ctx) as Hnot.
  { unfold ownPredicateHolds. rewrite Hpred, Hfails. by intros [? [=]]. }
  apply eval_S_inv in Heval
    as [(v' & [= <-] & Hown)|[(v' & s1 & _ & Hown & _)|(? & ? & [=] & _)]];
    apply evaluateOwnPredicate_inv in Hown
      as [(Hr & _ & Hholds)|(pred' & reason' & responsible & n & n' & s1' & Hpred'
                               & _ & Hr & _)];
    try done.
  rewrite Hpred in Hpred'. injection Hpred' as <-. injection Hr as ->.
  exists (orderAt n), (orderAt n'). split; [by apply orderAt_visits|].
  split; [by apply orderAt_visits|].
  intros c. simpl. apply eliminated_elem.
Qed.

(** ** Termination *)

Lemma evaluateOwnPredicate_returns inv ctx result start s :
  comparableOperand inv = true ->
  exists r s', evaluateOwnPredicate fmt_v rt e inv ctx result start s = Ok (r, s').
Proof.
  unfold comparableOperand, evaluateOwnPredicate.
  destruct (inv_Predicate inv) as [pred|]; [|by eexists _, _].
  intros Hop. rewrite bind_unfold. unfold liftO.
  destruct (evaluatePredicateWithReason_comparable_operand pred (ctx_Resource ctx))
    as [[[] reason] ->]; simpl.
  - by destruct (dyntype (pred_Value pred)); [rewrite Hop|].
  - by eexists _, _.
  - rewrite bind_unfold.
    destruct (determineResponsibility_Ok inv (ctx_Resource ctx) s)
      as (responsible & s1 & -> & _).
    rewrite bind_unfold, eliminateActors_eq, log_step. by eexists _, _.
Qed.

Lemma evaluateRequires_returns rec inv ctx result start reqs s :
  (forall req reqInv,
      req ∈ reqs ->
      invariants e !! req_Invariant req = Some reqInv ->
      scope_Relation (req_Scope req) = Same ->
      forall s0, exists r s1, rec reqInv ctx s0 = Ok (r, s1)) ->
  exists r s', evaluateRequires rt e rec inv ctx result start reqs s = Ok (r, s').
Proof.
  revert s. induction reqs as [|req reqs IH]; intros s Hrec; simpl; [by eexists _, _|].
  assert (forall s0, exists r s',
            evaluateRequires rt e rec inv ctx result start reqs s0 = Ok (r, s')) as Hrest.
  { intros s0. apply IH. intros req' reqInv Hin. apply Hrec. by apply list_elem_of_further. }
  destruct (invariants e !! req_Invariant req) as [reqInv|] eqn:Hreg; [|apply Hrest].
  rewrite bind_unfold.
  assert (exists dep s1, evaluateDependency e rec req ctx s = Ok (dep, s1))
    as (dep & s1 & ->).
  { unfold evaluateDependency. rewrite Hreg.
    destruct (String.eqb_spec (scope_Relation (req_Scope req)) Same) as [Hsame|_].
    - apply (Hrec req reqInv); [apply list_elem_of_here|done..].
    - destruct (_ || _); by eexists _, _. }
  destruct dep as [dep|]; [|apply Hrest].
  rewrite log_step. by eexists _, _.
Qed.

(** With comparable operands and chains of [same] requirements no longer than
    the budget, the evaluation returns: no panic, and the budget suffices. *)
Lemma eval_returns n inv ctx s :
  safeWithin e n inv = true -> exists r s', eval n inv ctx s = Ok (r, s').
Proof.
  revert inv ctx s. induction n as [|n IH]; intros inv ctx s; [done|].
  cbn [safeWithin]. intros [Hop Hreqs]%andb_true_iff.
  cbn [EvaluateWithContext]. rewrite bind_unfold. cbn [timeNow]. rewrite bind_unfold.
  destruct (evaluateOwnPredicate_returns inv ctx (newResult inv ctx) (clock rt (tick s))
              (advance s) Hop) as ([v|] & s1 & ->); [by eexists _, _|].
  rewrite bind_unfold.
  destruct (evaluateRequires_returns (eval n) inv ctx (newResult inv ctx)
              (clock rt (tick s)) (inv_Requires inv) s1) as ([v|] & s2 & ->).
  - intros req reqInv Hin Hreg Hsame s0. apply IH.
    rewrite forallb_forall in Hreqs. apply list_elem_of_In in Hin.
    specialize (Hreqs req Hin). rewrite Hreg, Hsame in Hreqs. exact Hreqs.
  - by eexists _, _.
  - rewrite log_step. by eexists _, _.
Qed.

(** An invariant that requires itself on the same subject exhausts every
    budget: the source recurses without bound. *)
Lemma self_requirement_never_returns inv ctx :
  invariants e !! inv_ID inv = Some inv ->
  inv_Predicate inv = None ->
  inv_Requires inv = [mkRequirement (inv_ID inv) (mkScope Same)] ->
  forall fuel s, eval fuel inv ctx s = OutOfFuel.
Proof.
  intros Hreg Hpred Hreqs. induction fuel as [|fuel IH]; intros s; [done|].
  cbn [EvaluateWithContext]. rewrite bind_unfold. cbn [timeNow]. rewrite bind_unfold.
  unfold evaluateOwnPredicate. rewrite Hpred. cbn [ret]. rewrite bind_unfold, Hreqs.
  cbn [evaluateRequires req_Invariant]. rewrite Hreg, bind_unfold.
  unfold evaluateDependency. cbn [req_Invariant req_Scope scope_Relation].
  rewrite Hreg. cbn. by rewrite IH.
Qed.

(** ** The evaluation log *)

Lemma appendBounded_keepLast (log : list EvaluationLogEntry) entry :
  appendBounded log entry = keepLast 1000 (log ++ [entry]).
Proof.
  unfold appendBounded, keepLast.
  destruct (Nat.ltb_spec 1000 (length (log ++ [entry]))) as [Hlt|Hle]; [done|].
  replace (length (log ++ [entry]) - 1000)%nat with 0%nat by lia. done.
Qed.

Lemma length_keepLast {A : Type} (n : nat) (l : list A) :
  length (keepLast n l) = (length l `min` n)%nat.
Proof. unfold keepLast. rewrite length_drop. lia. Qed.

Lemma keepLast_app {A : Type} (n : nat) (l es : list A) :
  keepLast n (keepLast n l ++ es) = keepLast n (l ++ es).
Proof.
  unfold keepLast. rewrite !length_app, length_drop.
  destruct (Nat.le_gt_cases (length l) n) as [Hle|Hgt].
  - replace (length l - n)%nat with 0%nat by lia. simpl.
    by replace (length l - 0)%nat with (length l) by lia.
  - replace (length l - (length l - n) + length es - n)%nat with (length es) by lia.
    replace (length l + length es - n)%nat with ((length l - n) + length es)%nat by lia.
    rewrite <- drop_drop. f_equal. rewrite drop_app_le by lia. done.
Qed.

Lemma appendAll_keepLast (log es : list EvaluationLogEntry) :
  (length log <= 1000)%nat -> appendAll log es = keepLast 1000 (log ++ es).
Proof.
  unfold appendAll. revert log. induction es as [|entry es IH]; intros log Hlen; simpl.
  - unfold keepLast. rewrite app_nil_r.
    by replace (length log - 1000)%nat with 0%nat by lia.
  - rewrite IH.
    + rewrite appendBounded_keepLast, keepLast_app. by rewrite <- app_assoc.
    + rewrite appendBounded_keepLast, length_keepLast. lia.
Qed.

Lemma appendAll_app (log es es' : list EvaluationLogEntry) :
  appendAll log (es ++ es') = appendAll (appendAll log es) es'.
Proof. unfold appendAll. apply fold_left_app. Qed.

Lemma keepLast_covered {A : Type} (n : nat) (l es : list A) :
  (n <= length es)%nat -> keepLast n (l ++ es) = keepLast n es.
Proof.
  intros Hn. unfold keepLast. rewrite length_app, drop_app_ge by lia.
  f_equal. lia.
Qed.

(** Every exit appends its entry to the log it finds. *)
Lemma evaluationLog_logged inv ctx s r s1 :
  evaluationLog
    (logged rt (inv_ID inv) (uidOf ctx)
       match r with Some _ => false | None => true end
       match r with Some v => vr_Reason v | None => "satisfied" end
       (clock rt (tick s)) s1)
  = appendBounded (evaluationLog s1)
      (exitEntry rt inv ctx s r
         (logged rt (inv_ID inv) (uidOf ctx)
            match r with Some _ => false | None => true end
            match r with Some v => vr_Reason v | None => "satisfied" end
            (clock rt (tick s)) s1)).
Proof. unfold logged, exitEntry. cbn. by rewrite Nat.sub_0_r. Qed.

(** The log after a requirement loop: the entries of the evaluations that
    the loop called were appended, and when the loop ends the evaluation,
    the exit follows. *)
Lemma evaluateRequires_entries rec recEntries inv ctx result start reqs s r s' :
  (forall inv' s0 r0 s1,
      rec inv' ctx s0 = Ok (r0, s1) ->
      evaluationLog s1 = appendAll (evaluationLog s0) (recEntries inv' ctx s0)) ->
  evaluateRequires rt e rec inv ctx result start reqs s = Ok (r, s') ->
  exists s2,
    evaluationLog s2
    = appendAll (evaluationLog s) (requiresEntries e rec recEntries ctx reqs s)
    /\ match r with
       | Some v => s' = logged rt (inv_ID inv) (uidOf ctx) false (vr_Reason v) start s2
       | None => s' = s2
       end.
Proof.
  intros Hrec. revert s. induction reqs as [|req reqs IH]; intros s; simpl.
  { intros [= <- <-]. by exists s. }
  destruct (invariants e !! req_Invariant req) as [reqInv|] eqn:Hreg; [|apply IH].
  rewrite bind_unfold. unfold evaluateDependency. rewrite Hreg.
  destruct (String.eqb (scope_Relation (req_Scope req)) Same).
  - destruct (rec reqInv ctx s) as [[[dep|] s1]| |] eqn:Hdep; [| |done..].
    + rewrite log_step. intros [= <- <-]. exists s1.
      rewrite app_nil_r. split; [by apply Hrec in Hdep|done].
    + intros (s2 & Hlog & Hexit)%IH. exists s2. split; [|done].
      rewrite Hlog, (Hrec _ _ _ _ Hdep). by rewrite appendAll_app.
  - destruct (_ || _); simpl; rewrite log_step; intros [= <- <-]; by exists s.
Qed.

(** Every evaluation appends its entries, and nothing else. *)
Lemma eval_entries fuel inv ctx s r s' :
  eval fuel inv ctx s = Ok (r, s') ->
  evaluationLog s' = appendAll (evaluationLog s) (entriesOf fmt_v rt e fuel inv ctx s).
Proof.
  revert inv ctx s r s'. induction fuel as [|fuel IH]; intros inv ctx s r s' Hrun; [done|].
  cbn [entriesOf]. rewrite Hrun.
  apply eval_S_inv in Hrun
    as [(v & -> & Hown)|[(v & s1 & -> & Hown & Hreq)|(s1 & s2 & -> & Hown & Hreq & ->)]].
  - rewrite Hown.
    apply evaluateOwnPredicate_inv in Hown
      as [([=] & _)|(pred & reason & responsible & n & n' & s1 & _ & _ & [= ->] & Hlog & ->)].
    simpl in Hlog. rewrite <- Hlog.
    exact (evaluationLog_logged inv ctx s
             (Some (violated (newResult inv ctx) reason responsible _)) s1).
  - rewrite Hown.
    apply evaluateOwnPredicate_inv in Hown
      as [(_ & -> & _)|(? & ? & ? & ? & ? & ? & _ & _ & [=] & _)].
    apply (evaluateRequires_entries _ (entriesOf fmt_v rt e fuel) _ _ _ _ _ _ _ _
             (fun inv' s0 r0 s1 => IH inv' ctx s0 r0 s1)) in Hreq as (s2 & Hlog & ->).
    rewrite appendAll_app. simpl in Hlog. rewrite <- Hlog.
    exact (evaluationLog_logged inv ctx s (Some v) s2).
  - rewrite Hown.
    apply evaluateOwnPredicate_inv in Hown
      as [(_ & -> & _)|(? & ? & ? & ? & ? & ? & _ & _ & [=] & _)].
    apply (evaluateRequires_entries _ (entriesOf fmt_v rt e fuel) _ _ _ _ _ _ _ _
             (fun inv' s0 r0 s1 => IH inv' ctx s0 r0 s1)) in Hreq as (s3 & Hlog & <-).
    rewrite appendAll_app. simpl in Hlog. rewrite <- Hlog.
    exact (evaluationLog_logged inv ctx s None s2).
Qed.

(** The entries of an evaluation that returns end with its own entry. *)
Lemma entriesOf_exit fuel inv ctx s r s' :
  eval fuel inv ctx s = Ok (r, s') ->
  exists nested,
    entriesOf fmt_v rt e fuel inv ctx s = nested ++ [exitEntry rt inv ctx s r s'].
Proof.
  destruct fuel as [|fuel]; [done|]. intros Hrun. cbn [entriesOf]. rewrite Hrun.
  by eexists.
Qed.

Lemma evaluateMany_entries fuel calls s rs s' :
  evaluateMany fmt_v rt e fuel calls s = Ok (rs, s') ->
  evaluationLog s'
  = appendAll (evaluationLog s) (concat (entriesOfMany fmt_v rt e fuel calls s))
  /\ Forall3 (fun call r es =>
                exists nested s0 s1, es = nested ++ [exitEntry rt call.1 call.2 s0 r s1])
       calls rs (entriesOfMany fmt_v rt e fuel calls s).
Proof.
  revert s rs s'. induction calls as [|[inv ctx] calls IH]; intros s rs s'.
  { intros [= <- <-]. split; [done|constructor]. }
  cbn [evaluateMany entriesOfMany]. rewrite bind_unfold.
  destruct (eval fuel inv ctx s) as [[r s1]| |] eqn:Heval; [|done..].
  rewrite bind_unfold.
  destruct (evaluateMany fmt_v rt e fuel calls s1) as [[rs' s2]| |] eqn:Hmany; [|done..].
  intros [= <- <-]. apply IH in Hmany as [Hlog Hall]. split.
  - simpl. by rewrite appendAll_app, <- (eval_entries _ _ _ _ _ _ Heval).
  - constructor; [|exact Hall].
    destruct (entriesOf_exit _ _ _ _ _ _ Heval) as [nested ->]. by exists nested, s, s1.
Qed.

(** C8. The log after a sequence of single-subject evaluations is the log
    before it followed by the entries of the evaluations, one entry for
    each invocation in the order in which they return, cut to its last 1000
    entries; every evaluation of the sequence appended its own entry last,
    which names its invariant and its subject and tells its result. After
    at least 1000 evaluations the log holds exactly 1000 entries, the last
    1000 of the entries of the evaluations: nothing of the earlier log is
    left. *)
Theorem evaluation_log_keeps_last_1000 fuel calls s rs s' :
  (length (evaluationLog s) <= 1000)%nat ->
  evaluateMany fmt_v rt e fuel calls s = Ok (rs, s') ->
  evaluationLog s'
  = keepLast 1000 (evaluationLog s ++ concat (entriesOfMany fmt_v rt e fuel calls s))
  /\ Forall3 (fun call r es =>
                exists nested entry,
                  es = nested ++ [entry]
                  /\ le_InvariantID entry = inv_ID call.1
                  /\ le_ResourceUID entry = uidOf call.2
                  /\ le_Result entry = match r with Some _ => false | None => true end
                  /\ le_Reason entry
                     = match r with Some v => vr_Reason v | None => "satisfied" end)
       calls rs (entriesOfMany fmt_v rt e fuel calls s)
  /\ ((1000 <= length calls)%nat ->
      length (evaluationLog s') = 1000%nat
      /\ evaluationLog s'
         = keepLast 1000 (concat (entriesOfMany fmt_v rt e fuel calls s))).
Proof.
  intros Hlen Hmany.
  apply evaluateMany_entries in Hmany as [Hlog Hall].
  rewrite appendAll_keepLast in Hlog by exact Hlen.
  split; [exact Hlog|]. split.
  - eapply Forall3_impl; [exact Hall|].
    intros call r es (nested & s0 & s1 & ->). by eexists nested, _.
  - intros Hcalls.
    assert (length calls <= length (concat (entriesOfMany fmt_v rt e fuel calls s)))%nat
      as Hconcat.
    { clear -Hall.
      induction Hall as [|call r es calls rs traces (nested & s0 & s1 & ->) _ IH];
        simpl; [done|].
      rewrite !length_app. simpl. lia. }
    split.
    + rewrite Hlog, length_keepLast, length_app. lia.
    + rewrite Hlog. apply keepLast_covered. lia.
Qed.

End EngineFacts.

(** ** The engine on the sample inputs *)

(** Every invariant of the minimum viable set is evaluated to the end on
    every subject, in any environment: a budget of two suffices and nothing
    panics. *)
Lemma default_invariants_return fmt_v rt inv ctx s :
  inv ∈ GetMVPInvariants ->
  exists r s', EvaluateWithContext fmt_v rt defaultEngine 2 inv ctx s = Ok (r, s').
Proof.
  intros Hin. apply eval_returns.
  assert (forallb (safeWithin defaultEngine 2) GetMVPInvariants = true) as Hall
    by (vm_compute; reflexivity).
  rewrite forallb_forall in Hall. apply Hall. by apply list_elem_of_In.
Qed.

(** C1, as stated, fails: the only requirement of the invariant names an
    invariant that is not registered, and the evaluation reports that the
    invariant is satisfied. *)
Lemma unregistered_requirement_raises_nothing :
  invariants defaultEngine !! "image_pulled" = None
  /\ exists s',
      EvaluateWithContext showValue sampleRuntime defaultEngine 1 needsUnregistered
        (podContext ∅) initialState = Ok (None, s')
      /\ exists entry, evaluationLog s' = [entry] /\ le_Reason entry = "satisfied".
Proof.
  split; [vm_compute; reflexivity|].
  eexists. split; [vm_compute; reflexivity|].
  eexists. split; reflexivity.
Qed.

Lemma unregistered_requirement_is_skipped_witness :
  (forall s,
      evaluateDependency defaultEngine
        (EvaluateWithContext showValue sampleRuntime defaultEngine 0)
        (mkRequirement "image_pulled" (mkScope Same)) (podContext ∅) s
      = Ok (Some (zeroViolation "image_pulled" "Required invariant not registered"), s))
  /\ (forall fuel inv pre post s,
      inv_Requires inv = pre ++ mkRequirement "image_pulled" (mkScope Same) :: post ->
      EvaluateWithContext showValue sampleRuntime defaultEngine fuel inv (podContext ∅) s
      = EvaluateWithContext showValue sampleRuntime defaultEngine fuel
          (withRequires inv (pre ++ post)) (podContext ∅) s).
Proof.
  apply (unregistered_requirement_is_skipped showValue sampleRuntime defaultEngine
           (EvaluateWithContext showValue sampleRuntime defaultEngine 0)
           (mkRequirement "image_pulled" (mkScope Same)) (podContext ∅)).
  vm_compute. reflexivity.
Defined.

(** C7, as stated, fails: the reason of the violation that the evaluation
    yields is not the text itself but the text wrapped as a dependency
    failure; and a requirement that fails earlier in the list decides the
    reason ([pod_ready] requires [node_ready] on the node, after
    [containers_running] on the same subject). *)
Lemma unsupported_relation_reason_is_wrapped :
  (exists v s',
      EvaluateWithContext showValue sampleRuntime defaultEngine 1 needsNode
        (podContext ∅) initialState = Ok (Some v, s')
      /\ vr_Reason v
         = "Dependency node_ready failed: Dependency relation not supported by StateStore"
      /\ vr_Reason v <> "Dependency relation not supported by StateStore")
  /\ (exists v s',
      EvaluateWithContext showValue sampleRuntime defaultEngine 2 podReady
        (podContext readyButNotRunning) initialState = Ok (Some v, s')
      /\ vr_Reason v
         = "Dependency containers_running failed: Field status.containerStatuses[*].state.running has non-truthy element: false").
Proof.
  split.
  - eexists _, _. split; [vm_compute; reflexivity|]. split; [reflexivity|done].
  - eexists _, _. split; [vm_compute; reflexivity|]. reflexivity.
Qed.

Lemma unsupported_relation_violation_witness :
  exists s',
    EvaluateWithContext showValue sampleRuntime defaultEngine 2 podReady
      (podContext readyAndRunning) initialState
    = Ok (Some (violated (newResult podReady (podContext readyAndRunning))
                  "Dependency node_ready failed: Dependency relation not supported by StateStore"
                  "" []),
          s').
Proof.
  edestruct (unsupported_relation_violation showValue sampleRuntime defaultEngine 1
               podReady (podContext readyAndRunning) initialState
               [mkRequirement "containers_running" (mkScope Same)]
               (mkRequirement "node_ready" (mkScope Node)) [])
    as [s' Hs'].
  - reflexivity.
  - vm_compute. reflexivity.
  - do 2 apply list_elem_of_further. apply list_elem_of_here.
  - eexists. vm_compute. reflexivity.
  - vm_compute. reflexivity.
  - exists s'. exact Hs'.
Defined.

Lemma foreign_dependency_violation_has_no_actors_witness :
  exists v s',
    EvaluateWithContext showValue sampleRuntime defaultEngine 2 podReady
      (podContext readyAndRunning) initialState = Ok (Some v, s')
    /\ vr_Violated v = true
    /\ vr_ResponsibleActor v = ""
    /\ vr_EliminatedActors v = [].
Proof.
  eapply (foreign_dependency_violation_has_no_actors showValue sampleRuntime
            defaultEngine 1 podReady (podContext readyAndRunning) initialState
            [mkRequirement "containers_running" (mkScope Same)]
            (mkRequirement "node_ready" (mkScope Node)) []).
  - reflexivity.
  - vm_compute. reflexivity.
  - vm_compute. discriminate.
  - eexists. vm_compute. reflexivity.
  - vm_compute. reflexivity.
Defined.

(** C6, as stated, fails: [pod_ready] has a predicate on the field
    "status.conditions[Ready].status", for which the node controller is
    authorized; when the pod is ready and a container is not running, the
    violation of [pod_ready] carries the eliminated actors of
    [containers_running], the node controller among them. *)
Lemma inherited_elimination_lists_authorized_actor :
  exists v s',
    EvaluateWithContext showValue sampleRuntime defaultEngine 2 podReady
      (podContext readyButNotRunning) initialState = Ok (Some v, s')
    /\ (exists pred,
          inv_Predicate podReady = Some pred
          /\ pred_Field pred = "status.conditions[Ready].status")
    /\ "node-controller" ∈ vr_EliminatedActors v
    /\ (forall order,
          visits NewControllerAuthorityMap order ->
          "node-controller"
            ∈ GetAuthorizedControllers NewControllerAuthorityMap order
                "status.conditions[Ready].status").
Proof.
  eexists _, _. split; [vm_compute; reflexivity|].
  split; [by eexists|]. split; [apply list_elem_of_here|].
  intros order Hv. rewrite (default_lookup_in_insertion_order order _ Hv).
  vm_compute. apply list_elem_of_here.
Qed.

Lemma sampleRuntime_lawful : lawful sampleRuntime.
Proof. intros n A l. reflexivity. Qed.

Lemma eliminated_actors_of_own_predicate_witness :
  exists v s',
    EvaluateWithContext showValue sampleRuntime defaultEngine 1 podReady
      (podContext notReady) initialState = Ok (Some v, s')
    /\ (vr_ResponsibleActor v ∉ vr_EliminatedActors v)
    /\ (forall pred reason,
          inv_Predicate podReady = Some pred ->
          evaluatePredicateWithReason showValue pred (ctx_Resource (podContext notReady))
          = Ok (false, reason) ->
          exists order order',
            visits NewControllerAuthorityMap order
            /\ visits NewControllerAuthorityMap order'
            /\ forall c,
                 c ∈ vr_EliminatedActors v
                 <-> c ∈ GetAllControllers NewControllerAuthorityMap order'
                     /\ c <> vr_ResponsibleActor v
                     /\ c ∉ GetAuthorizedControllers NewControllerAuthorityMap order
                           (pred_Field pred)).
Proof.
  eexists _, _. split; [vm_compute; reflexivity|].
  eapply (eliminated_actors_of_own_predicate showValue sampleRuntime defaultEngine 1
            podReady (podContext notReady) initialState).
  - exact sampleRuntime_lawful.
  - vm_compute. reflexivity.
Defined.

Lemma evaluation_log_keeps_last_1000_witness :
  exists rs s',
    evaluateMany showValue sampleRuntime defaultEngine 2
      (replicate 1000 (podReady, podContext readyButNotRunning)) initialState = Ok (rs, s')
    /\ length (evaluationLog s') = 1000%nat
    /\ evaluationLog s'
       = keepLast 1000
           (concat (entriesOfMany showValue sampleRuntime defaultEngine 2
                      (replicate 1000 (podReady, podContext readyButNotRunning))
                      initialState)).
Proof.
  eexists _, _. split; [vm_compute; reflexivity|].
  refine (proj2 (proj2 (evaluation_log_keeps_last_1000 showValue sampleRuntime
                          defaultEngine 2
                          (replicate 1000 (podReady, podContext readyButNotRunning))
                          initialState _ _ _ _)) _).
  - simpl. lia.
  - vm_compute. reflexivity.
  - rewrite length_replicate. lia.
Defined.

(* ===================================================================== *)
(** * Further properties: the state store *)
(* ===================================================================== *)

Section MoreStoreFacts.

Implicit Types (s : MemoryStore) (ev : StateEvent) (evs : list StateEvent).
Implicit Types (uid kind : string).

Local Abbreviation uidsOf s kind := (default [] (uidsByKind s !! kind)).

Lemma recordAll_snoc s evs ev :
  recordAll s (evs ++ [ev]) = MemoryStore_Record (recordAll s evs) ev.
Proof. unfold recordAll. by rewrite fold_left_app. Qed.

Lemma events_recordAll s evs : events (recordAll s evs) = events s ++ evs.
Proof.
  induction evs as [|ev evs IH] using rev_ind; [by rewrite app_nil_r|].
  rewrite recordAll_snoc. simpl. by rewrite IH, app_assoc.
Qed.

Lemma existsb_uid (uids : list string) uid :
  existsb (fun u => String.eqb u uid) uids = true <-> uid ∈ uids.
Proof.
  rewrite existsb_exists. split.
  - intros (u & Hin & Heq%String.eqb_eq). subst u. by apply list_elem_of_In.
  - intros Hin. exists uid. split; [by apply list_elem_of_In|apply String.eqb_refl].
Qed.

Lemma uidsOf_Record s ev kind :
  uidsOf (MemoryStore_Record s ev) kind
  = if decide (kind = ev_Kind ev) then
      if existsb (fun u => String.eqb u (ev_UID ev)) (uidsOf s kind)
      then uidsOf s kind
      else uidsOf s kind ++ [ev_UID ev]
    else uidsOf s kind.
Proof.
  unfold MemoryStore_Record; simpl.
  destruct (decide (kind = ev_Kind ev)) as [->|Hne].
  - destruct (existsb _ _); [done|]. by rewrite lookup_insert_eq.
  - destruct (existsb _ _); [done|]. by rewrite lookup_insert_ne.
Qed.

Lemma uidsOf_recordAll evs kind uid :
  uid ∈ uidsOf (recordAll NewMemoryStore evs) kind
  <-> exists ev, ev ∈ evs /\ ev_UID ev = uid /\ ev_Kind ev = kind.
Proof.
  induction evs as [|ev evs IH] using rev_ind.
  - simpl. rewrite lookup_empty. simpl. split; [by intros ?%elem_of_nil|].
    by intros (? & ?%elem_of_nil & _).
  - rewrite recordAll_snoc, uidsOf_Record.
    assert ((exists ev0, ev0 ∈ evs ++ [ev] /\ ev_UID ev0 = uid /\ ev_Kind ev0 = kind)
            <-> (exists ev0, ev0 ∈ evs /\ ev_UID ev0 = uid /\ ev_Kind ev0 = kind)
                \/ (ev_UID ev = uid /\ ev_Kind ev = kind)) as ->.
    { split.
      - intros (ev0 & [Hin|Hin%list_elem_of_singleton]%elem_of_app & Hu & Hk);
          [left; by exists ev0|right; by subst].
      - intros [(ev0 & Hin & Hu & Hk)|[Hu Hk]].
        + exists ev0. split; [apply elem_of_app; by left|done].
        + exists ev. split; [apply elem_of_app; right; by apply list_elem_of_singleton|done]. }
    rewrite <- IH. destruct (decide (kind = ev_Kind ev)) as [->|Hne].
    + destruct (existsb _ _) eqn:Hfound.
      * apply existsb_uid in Hfound. split; [by left|].
        intros [H|[<- _]]; done.
      * rewrite elem_of_app, list_elem_of_singleton. split.
        -- intros [H| ->]; [by left|by right].
        -- intros [H|[<- _]]; [by left|by right].
    + split; [by left|]. intros [H|[_ Hk]]; [done|congruence].
Qed.

Lemma uidsOf_NoDup evs kind : NoDup (uidsOf (recordAll NewMemoryStore evs) kind).
Proof.
  induction evs as [|ev evs IH] using rev_ind.
  - simpl. rewrite lookup_empty. constructor.
  - rewrite recordAll_snoc, uidsOf_Record.
    destruct (decide (kind = ev_Kind ev)) as [->|Hne]; [|done].
    destruct (existsb _ _) eqn:Hfound; [done|].
    apply NoDup_app. split; [done|]. split; [|apply NoDup_singleton].
    intros u Hu ->%list_elem_of_singleton.
    apply existsb_uid in Hu. congruence.
Qed.

Lemma GetByUID_recorded evs uid ev :
  GetByUID (recordAll NewMemoryStore evs) uid = Some ev -> ev ∈ evs /\ ev_UID ev = uid.
Proof.
  rewrite GetByUID_recordAll.
  destruct (last _) as [ev'|] eqn:Hlast; [|done]. intros [= ->].
  apply last_Some in Hlast as [l Hl].
  assert (In ev (List.filter (fun ev0 => String.eqb (ev_UID ev0) uid) evs)) as Hin.
  { rewrite Hl. apply in_app_iff. right. by left. }
  apply filter_In in Hin as [Hin Hu]. split; [by apply list_elem_of_In|].
  by apply String.eqb_eq.
Qed.

Lemma GetByUID_of_recorded evs ev0 :
  ev0 ∈ evs ->
  exists ev, GetByUID (recordAll NewMemoryStore evs) (ev_UID ev0) = Some ev.
Proof.
  intros Hin. rewrite GetByUID_recordAll.
  destruct (last _) as [ev|] eqn:Hlast; [by exists ev|].
  apply last_None in Hlast.
  assert (In ev0 (List.filter (fun ev => String.eqb (ev_UID ev) (ev_UID ev0)) evs)) as H.
  { apply filter_In. split; [by apply list_elem_of_In|apply String.eqb_refl]. }
  by rewrite Hlast in H.
Qed.

Lemma omap_uids (f : string -> option StateEvent) (l : list string) :
  (forall uid, uid ∈ l -> exists ev, f uid = Some ev /\ ev_UID ev = uid) ->
  ev_UID <$> omap f l = l.
Proof.
  induction l as [|uid l IH]; intros H; [done|]. simpl.
  destruct (H uid) as (ev & -> & Hu); [apply list_elem_of_here|]. simpl.
  f_equal; [exact Hu|]. apply IH. intros u Hin. apply H. by apply list_elem_of_further.
Qed.

Lemma GetLatestByKind_uids evs kind :
  ev_UID <$> GetLatestByKind (recordAll NewMemoryStore evs) kind
  = uidsOf (recordAll NewMemoryStore evs) kind.
Proof.
  unfold GetLatestByKind. apply omap_uids. intros uid Huid.
  apply uidsOf_recordAll in Huid as (ev0 & Hin & <- & _).
  destruct (GetByUID_of_recorded evs ev0 Hin) as [ev Hev]. exists ev.
  split; [exact Hev|]. by apply GetByUID_recorded in Hev as [_ ?].
Qed.

(** X1. The store keeps the whole history in recording order, and what
    [GetByUID] returns for a uid is one of the recorded events of that uid. *)
Theorem store_history_is_append_only evs :
  events (recordAll NewMemoryStore evs) = evs
  /\ (forall s ev, events (MemoryStore_Record s ev) = events s ++ [ev])
  /\ (forall uid ev,
        GetByUID (recordAll NewMemoryStore evs) uid = Some ev ->
        ev ∈ events (recordAll NewMemoryStore evs) /\ ev_UID ev = uid).
Proof.
  split; [by rewrite events_recordAll|]. split; [done|].
  intros uid ev Hev. rewrite events_recordAll. simpl.
  by apply GetByUID_recorded.
Qed.

Lemma GetLatestByKind_elem evs kind ev :
  ev ∈ GetLatestByKind (recordAll NewMemoryStore evs) kind
  <-> GetByUID (recordAll NewMemoryStore evs) (ev_UID ev) = Some ev
      /\ exists ev0, ev0 ∈ evs /\ ev_UID ev0 = ev_UID ev /\ ev_Kind ev0 = kind.
Proof.
  unfold GetLatestByKind. rewrite list_elem_of_omap. split.
  - intros (uid & Huid & Hev).
    pose proof (GetByUID_recorded evs uid ev Hev) as [_ <-].
    split; [exact Hev|]. by apply uidsOf_recordAll.
  - intros [Hev Hkind]. exists (ev_UID ev). split; [|exact Hev].
    by apply uidsOf_recordAll.
Qed.

(** X2. [GetLatestByKind] returns one event per uid: the uids of its result
    are pairwise distinct, and an event is in the result exactly when it is
    the latest event of its uid and some event of that uid was recorded with
    the kind asked for. *)
Theorem GetLatestByKind_one_event_per_uid evs kind :
  NoDup (ev_UID <$> GetLatestByKind (recordAll NewMemoryStore evs) kind)
  /\ (forall ev,
        ev ∈ GetLatestByKind (recordAll NewMemoryStore evs) kind
        <-> GetByUID (recordAll NewMemoryStore evs) (ev_UID ev) = Some ev
            /\ exists ev0, ev0 ∈ evs /\ ev_UID ev0 = ev_UID ev /\ ev_Kind ev0 = kind).
Proof.
  split; [rewrite GetLatestByKind_uids; apply uidsOf_NoDup|].
  intros ev. apply GetLatestByKind_elem.
Qed.

(** X3. When every uid is always recorded with the same kind, all the
    events that [GetLatestByKind] returns have the kind asked for. (A uid
    recorded under two kinds stays listed under both, with its latest
    event.) *)
Theorem GetLatestByKind_has_kind evs kind ev :
  (forall ev1 ev2, ev1 ∈ evs -> ev2 ∈ evs -> ev_UID ev1 = ev_UID ev2 ->
                   ev_Kind ev1 = ev_Kind ev2) ->
  ev ∈ GetLatestByKind (recordAll NewMemoryStore evs) kind ->
  ev_Kind ev = kind.
Proof.
  intros Hstable Hin.
  apply GetLatestByKind_elem in Hin as [Hev (ev0 & Hin0 & Hu & Hk)].
  apply GetByUID_recorded in Hev as [Hin _].
  rewrite <- Hk. symmetry. by apply Hstable.
Qed.

End MoreStoreFacts.

(* ===================================================================== *)
(** * Further properties: authority *)
(* ===================================================================== *)

Section MoreAuthorityFacts.

Implicit Types (cam : ControllerAuthorityMap) (order : list (string * list string)).
Implicit Types (field controller : string) (controllers : list string).

Lemma prefix_refl (s : string) : String.prefix s s = true.
Proof.
  induction s as [|a s IH]; simpl; [done|].
  destruct (Ascii.ascii_dec a a); [done|congruence].
Qed.

Lemma prefix_trans (a b c : string) :
  String.prefix a b = true -> String.prefix b c = true -> String.prefix a c = true.
Proof.
  revert b c. induction a as [|x a IH]; intros [|y b] [|z c]; simpl; try done.
  destruct (Ascii.ascii_dec x y) as [->|]; [|done].
  destruct (Ascii.ascii_dec y z) as [->|]; [|done].
  destruct (Ascii.ascii_dec z z); [|done]. apply IH.
Qed.

Lemma no_prefix_no_controllers cam order field :
  visits cam order ->
  (forall k controllers, mappings cam !! k = Some controllers -> HasPrefix field k = false) ->
  GetAuthorizedControllers cam order field = [].
Proof.
  intros Hv Hno. unfold GetAuthorizedControllers.
  destruct (mappings cam !! field) as [controllers|] eqn:Hex.
  - apply Hno in Hex. unfold HasPrefix in Hex. by rewrite prefix_refl in Hex.
  - rewrite find_no_match; [done|]. intros [k controllers] Hin. simpl.
    apply (Hno k controllers). by apply (visits_lookup cam order).
Qed.

Lemma collect_one seen controllers ctrl ctrls :
  collectControllers (seen, controllers) (ctrl :: ctrls)
  = collectControllers (collectControllers (seen, controllers) [ctrl]) ctrls.
Proof. reflexivity. Qed.

Lemma collectControllers_NoDup seen controllers ctrls :
  (forall c, default false (seen !! c) = true <-> c ∈ controllers) ->
  NoDup controllers ->
  NoDup (collectControllers (seen, controllers) ctrls).2.
Proof.
  revert seen controllers.
  induction ctrls as [|ctrl ctrls IH]; intros seen controllers Hinv Hnd; [done|].
  rewrite collect_one.
  destruct (collectControllers (seen, controllers) [ctrl]) as [seen' controllers'] eqn:Hone.
  destruct (collectControllers_elem _ _ _ _ _ Hinv Hone) as [Hinv' _].
  apply IH; [exact Hinv'|].
  revert Hone. unfold collectControllers. simpl.
  destruct (negb (default false (seen !! ctrl)) && negb (String.eqb ctrl "*")) eqn:Hnew;
    intros [= <- <-]; [|done].
  apply andb_true_iff in Hnew as [Hunseen _]. apply negb_true_iff in Hunseen.
  apply NoDup_app. split; [done|]. split; [|apply NoDup_singleton].
  intros c Hc ->%list_elem_of_singleton. apply Hinv in Hc. congruence.
Qed.

Lemma GetAllControllers_NoDup cam order : NoDup (GetAllControllers cam order).
Proof.
  unfold GetAllControllers.
  assert (forall (l : list (string * list string)) seen controllers,
            (forall c, default false (seen !! c) = true <-> c ∈ controllers) ->
            NoDup controllers ->
            NoDup (fold_left (fun acc entry => collectControllers acc entry.2) l
                     (seen, controllers)).2) as Hfold.
  { induction l as [|entry l IH]; intros seen controllers Hinv Hnd; [done|]. simpl.
    destruct (collectControllers (seen, controllers) entry.2)
      as [seen' controllers'] eqn:Hcol.
    destruct (collectControllers_elem _ _ _ _ _ Hinv Hcol) as [Hinv' _].
    apply IH; [exact Hinv'|].
    pose proof (collectControllers_NoDup seen controllers entry.2 Hinv Hnd) as H.
    by rewrite Hcol in H. }
  apply Hfold; [|constructor]. intros c. rewrite lookup_empty. simpl.
  split; [done|]. by intros ?%elem_of_nil.
Qed.

(** X4. [GetAllControllers] lists every actor that occurs in some entry of
    the map, except the token "*", and lists it once; as a set, the result
    does not depend on the order in which the map is traversed. *)
Theorem GetAllControllers_lists_each_actor_once cam order :
  visits cam order ->
  NoDup (GetAllControllers cam order)
  /\ (forall c,
        c ∈ GetAllControllers cam order
        <-> c <> "*"
            /\ exists k controllers,
                 mappings cam !! k = Some controllers /\ c ∈ controllers).
Proof.
  intros Hv. split; [apply GetAllControllers_NoDup|].
  intros c. by apply GetAllControllers_elem.
Qed.

(** X5. In a map where no key is a proper prefix of another, a field below
    a registered key is answered with the actors of that key, whatever the
    traversal. *)
Theorem nested_field_has_authority_of_its_key cam order k controllers field :
  prefixFree (mappings cam) ->
  visits cam order ->
  mappings cam !! k = Some controllers ->
  HasPrefix field k = true ->
  GetAuthorizedControllers cam order field = controllers.
Proof.
  intros Hfree Hv Hk Hpre. unfold GetAuthorizedControllers.
  destruct (mappings cam !! field) as [controllers'|] eqn:Hex.
  - assert (k = field) as -> by exact (Hfree k field _ _ Hk Hex Hpre). congruence.
  - destruct (find (fun entry => HasPrefix field entry.1) order) as [[k' c']|] eqn:Hfind.
    + apply find_some in Hfind as [Hin Hpre']. simpl in *.
      apply list_elem_of_In in Hin.
      pose proof (visits_lookup cam order k' c' Hv Hin) as Hk'.
      assert (k = k') as <-.
      { destruct (prefix_comparable k k' field Hpre Hpre') as [Hp|Hp].
        - exact (Hfree k k' _ _ Hk Hk' Hp).
        - symmetry. exact (Hfree k' k _ _ Hk' Hk Hp). }
      congruence.
    + exfalso. assert ((k, controllers) ∈ order) as Hin.
      { unfold visits in Hv. rewrite Hv. by apply elem_of_map_to_list. }
      apply list_elem_of_In in Hin.
      pose proof (find_none _ _ Hfind _ Hin) as Hno. simpl in Hno. congruence.
Qed.

(** X6. [ValidateAuthority] accepts a controller for a field exactly when
    the lookup for the field returns the controller or the token "*"; for a
    field that no key of the map covers it accepts nobody. *)
Theorem ValidateAuthority_accepts cam order controller field :
  visits cam order ->
  (ValidateAuthority cam order controller field = true
   <-> controller ∈ GetAuthorizedControllers cam order field
       \/ "*" ∈ GetAuthorizedControllers cam order field)
  /\ ((forall k controllers,
         mappings cam !! k = Some controllers -> HasPrefix field k = false) ->
      ValidateAuthority cam order controller field = false).
Proof.
  intros Hv. split.
  - unfold ValidateAuthority. rewrite existsb_exists. split.
    + intros (c & Hin%list_elem_of_In & [Hc|Hc]%orb_true_iff);
        apply String.eqb_eq in Hc; subst c; [by left|by right].
    + intros [Hin|Hin]; apply list_elem_of_In in Hin.
      * exists controller. split; [done|]. by rewrite String.eqb_refl.
      * exists "*". split; [done|]. apply orb_true_iff. by right.
  - intros Hno. unfold ValidateAuthority.
    by rewrite (no_prefix_no_controllers cam order field Hv Hno).
Qed.

(** ** The table of model.go *)

Lemma table_authorized_elem (table : list authority_table.AuthorityMapping) field c :
  c ∈ authority_table.GetAuthorizedControllers table field
  <-> exists mapping allowedField,
        mapping ∈ table
        /\ authority_table.am_Controller mapping = c
        /\ allowedField ∈ authority_table.am_AllowedFields mapping
        /\ HasPrefix field allowedField = true.
Proof.
  unfold authority_table.GetAuthorizedControllers.
  rewrite list_elem_of_fmap. split.
  - intros (mapping & -> & Hin). apply list_elem_of_In, filter_In in Hin as [Hin Hex].
    apply existsb_exists in Hex as (allowedField & Hf & Hp).
    exists mapping, allowedField. by rewrite !list_elem_of_In.
  - intros (mapping & allowedField & Hin & <- & Hf & Hp). exists mapping.
    split; [done|]. apply list_elem_of_In, filter_In.
    split; [by apply list_elem_of_In|]. apply existsb_exists.
    exists allowedField. by rewrite <- list_elem_of_In.
Qed.

(** X7. The table lookup of model.go returns the controllers of the
    mappings that allow a prefix of the field, each mapping at most once and
    in the order of the table; a field below another inherits all the
    controllers of that field, in the same order. *)
Theorem table_authority_extends_to_nested_fields
    (table : list authority_table.AuthorityMapping) field field' :
  HasPrefix field' field = true ->
  authority_table.GetAuthorizedControllers table field
    `sublist_of` authority_table.GetAuthorizedControllers table field'
  /\ authority_table.GetAuthorizedControllers table field'
       `sublist_of` (authority_table.am_Controller <$> table)
  /\ (forall c,
        c ∈ authority_table.GetAuthorizedControllers table field
        <-> exists mapping allowedField,
              mapping ∈ table
              /\ authority_table.am_Controller mapping = c
              /\ allowedField ∈ authority_table.am_AllowedFields mapping
              /\ HasPrefix field allowedField = true).
Proof.
  intros Hext. split; [|split; [|intros c; apply table_authorized_elem]].
  - unfold authority_table.GetAuthorizedControllers.
    induction table as [|mapping table IH]; simpl; [done|].
    destruct (existsb (fun allowedField => HasPrefix field allowedField)
                (authority_table.am_AllowedFields mapping)) eqn:Hex.
    + assert (existsb (fun allowedField => HasPrefix field' allowedField)
                (authority_table.am_AllowedFields mapping) = true) as ->.
      { apply existsb_exists in Hex as (f & Hf & Hp). apply existsb_exists.
        exists f. split; [done|]. unfold HasPrefix in *. by apply (prefix_trans f field). }
      simpl. by apply sublist_skip.
    + destruct (existsb (fun allowedField => HasPrefix field' allowedField)
                  (authority_table.am_AllowedFields mapping));
        rewrite ?fmap_cons; [by apply sublist_cons|done].
  - unfold authority_table.GetAuthorizedControllers.
    induction table as [|mapping table IH]; simpl; [done|].
    destruct (existsb (fun allowedField => HasPrefix field' allowedField)
                (authority_table.am_AllowedFields mapping));
      rewrite ?fmap_cons; [by apply sublist_skip|by apply sublist_cons].
Qed.

End MoreAuthorityFacts.

(* ===================================================================== *)
(** * Further properties: predicates *)
(* ===================================================================== *)

Section MorePredicateFacts.

Variable fmt_v : value -> string.

Local Abbreviation check := (evaluatePredicateWithReason fmt_v).

Lemma SFcompare_antisym (x y : spec_float) :
  SFcompare y x = option_map CompOpp (SFcompare x y).
Proof.
  destruct x as [sx|sx| |sx mx ex], y as [sy|sy| |sy my ey]; simpl; try done;
    try (by destruct sx); try (by destruct sy); try (by destruct sx, sy).
  assert (Pos.compare_cont Eq my mx = CompOpp (Pos.compare_cont Eq mx my)) as Hm
    by (by rewrite Pos.compare_cont_antisym).
  destruct sx, sy; try done; f_equal; rewrite (Z.compare_antisym ex ey);
    destruct (ex ?= ey); simpl; try done; rewrite Hm;
    by rewrite ?CompOpp_involutive.
Qed.

Lemma all_truthy_exists (arr : list value) :
  (length arr =? 0)%nat = false ->
  find (fun item => negb (isTruthy item)) arr = None ->
  existsb isTruthy arr = true.
Proof.
  destruct arr as [|item arr]; [done|]. intros _ Hfind. simpl in *.
  destruct (isTruthy item); [done|discriminate].
Qed.

(** X8. When the evaluation of a predicate returns, the reason it gives is
    empty exactly when the predicate is satisfied. *)
Theorem predicate_reason_empty_iff_satisfied pred subject satisfied reason :
  evaluatePredicateWithReason fmt_v pred subject = Ok (satisfied, reason) ->
  satisfied = true <-> reason = "".
Proof.
  unfold evaluatePredicateWithReason. intros H.
  repeat case_match; simplify_eq; split; intros; done || (simpl in *; discriminate).
Qed.

(** X9. [not_exists] and [not_equals] are the negations of [exists] and
    [equals]: on every subject exactly one of [exists] and [not_exists] on a
    field is satisfied, [exists] when the field is present; and [equals] and
    [not_equals] on a field and an operand either both panic with the same
    message or exactly one of them is satisfied, [not_equals] when the field
    is absent. *)
Theorem negated_operators_are_complementary field operand operand' subject :
  (exists satisfied reason reason',
     check (mkPredicate field Exists operand) subject = Ok (satisfied, reason)
     /\ check (mkPredicate field NotExists operand') subject = Ok (negb satisfied, reason')
     /\ (satisfied = true <-> is_Some (ev_FieldDiff subject !! field)))
  /\ ((exists msg,
         check (mkPredicate field Equals operand) subject = Panic msg
         /\ check (mkPredicate field NotEquals operand) subject = Panic msg)
      \/ (exists satisfied reason reason',
            check (mkPredicate field Equals operand) subject = Ok (satisfied, reason)
            /\ check (mkPredicate field NotEquals operand) subject
               = Ok (negb satisfied, reason')
            /\ (ev_FieldDiff subject !! field = None -> satisfied = false))).
Proof.
  unfold evaluatePredicateWithReason. simpl. split.
  - destruct (ev_FieldDiff subject !! field) as [value|].
    + exists true. eexists _, _. split; [done|]. split; [done|]. by split.
    + exists false. eexists _, _. split; [done|]. split; [done|].
      split; [done|]. by intros [? ?].
  - destruct (ev_FieldDiff subject !! field) as [value|].
    + unfold iface_eq. destruct (eq_panics value operand).
      * left. by eexists.
      * right. destruct (iface_eqb value operand).
        -- exists true. by eexists _, _.
        -- exists false. by eexists _, _.
    + right. exists false. by eexists _, _.
Qed.

(** X10. [gt] and [lt] against the same operand are both satisfied exactly
    when the field and the operand are numbers that do not compare, that is
    when one of them is not a number in the sense of the floating-point
    format; in every other case at most one of them is satisfied. *)
Theorem gt_and_lt_both_hold_iff_unordered field expected subject :
  (check (mkPredicate field GreaterThan expected) subject = Ok (true, "")
   /\ check (mkPredicate field LessThan expected) subject = Ok (true, ""))
  <-> exists value numValue expectedNum,
        ev_FieldDiff subject !! field = Some value
        /\ toNumber value = Some numValue
        /\ toNumber expected = Some expectedNum
        /\ SFcompare numValue expectedNum = None.
Proof.
  unfold evaluatePredicateWithReason. simpl. unfold SFleb. split.
  - intros [Hgt Hlt].
    destruct (ev_FieldDiff subject !! field) as [value|]; [|done].
    destruct (toNumber value) as [numValue|] eqn:Hnum; [|done].
    destruct (toNumber expected) as [expectedNum|] eqn:Hexp; [|done].
    exists value, numValue, expectedNum. repeat split; try done.
    revert Hgt Hlt. rewrite (SFcompare_antisym numValue expectedNum).
    by destruct (SFcompare numValue expectedNum) as [[]|].
  - intros (value & numValue & expectedNum & -> & -> & -> & Hc).
    by rewrite (SFcompare_antisym numValue expectedNum), Hc.
Qed.

(** X11. A subject that satisfies [all_true] on a field satisfies
    [any_true] on it. *)
Theorem all_true_implies_any_true field operand operand' subject reason :
  check (mkPredicate field AllTrue operand) subject = Ok (true, reason) ->
  check (mkPredicate field AnyTrue operand') subject = Ok (true, "").
Proof.
  unfold evaluatePredicateWithReason. simpl.
  destruct (ev_FieldDiff subject !! field) as [value|]; [|done].
  destruct value as [| | | | | | | |arr|]; try (by destruct (isTruthy _)).
  destruct (length arr =? 0)%nat eqn:Hlen; [done|].
  destruct (find _ arr) eqn:Hfind; [done|]. intros _.
  by rewrite (all_truthy_exists arr Hlen Hfind).
Qed.

End MorePredicateFacts.

Lemma predicate_reason_empty_iff_satisfied_witness :
  evaluatePredicateWithReason showValue
    (mkPredicate "status.phase" Equals (VString "Running"))
    (podEvent "pod-1" "1" 0 notReady)
  = Ok (false, "Field status.phase does not exist (expected: Running)")
  /\ (false = true <-> "Field status.phase does not exist (expected: Running)" = "").
Proof.
  split; [reflexivity|].
  apply (predicate_reason_empty_iff_satisfied showValue
           (mkPredicate "status.phase" Equals (VString "Running"))
           (podEvent "pod-1" "1" 0 notReady)).
  reflexivity.
Defined.

Lemma all_true_implies_any_true_witness :
  evaluatePredicateWithReason showValue
    (mkPredicate "status.containerStatuses[*].state.running" AllTrue VNil)
    (podEvent "pod-1" "1" 0 readyAndRunning)
  = Ok (true, "")
  /\ evaluatePredicateWithReason showValue
       (mkPredicate "status.containerStatuses[*].state.running" AnyTrue VNil)
       (podEvent "pod-1" "1" 0 readyAndRunning)
     = Ok (true, "").
Proof.
  split; [reflexivity|].
  apply (all_true_implies_any_true showValue _ VNil VNil _ "").
  reflexivity.
Defined.

(* ===================================================================== *)
(** * Further properties: the evaluation engine *)
(* ===================================================================== *)

Section MoreEngineFacts.

Variable fmt_v : value -> string.
Variable rt : Runtime.
Variable e : EvaluationEngine.

Implicit Types (inv : Invariant) (ctx : EvaluationContext) (s : EngineState).
Implicit Types (req : Requirement) (reqs : list Requirement) (fuel : nat).
Implicit Types (rec : Invariant -> EvaluationContext -> M (option ViolationResult)).

Local Abbreviation eval := (EvaluateWithContext fmt_v rt e).
Local Abbreviation uidOf ctx := (ev_UID (ctx_Resource ctx)).
Local Abbreviation cam := (authorityMap e).
Local Abbreviation dependencyFailed reqInv dep :=
  ("Dependency " +:+ inv_ID reqInv +:+ " failed: " +:+ vr_Reason dep).

Lemma unsatisfied_reason_nonempty pred subject reason :
  evaluatePredicateWithReason fmt_v pred subject = Ok (false, reason) -> reason <> "".
Proof.
  unfold evaluatePredicateWithReason. intros H.
  repeat case_match; simplify_eq; simpl; discriminate.
Qed.

(** The way out of the loop over the requirements with a violation. *)
Lemma evaluateRequires_Some_inv rec inv ctx result start reqs s v s' :
  evaluateRequires rt e rec inv ctx result start reqs s = Ok (Some v, s') ->
  exists pre req post reqInv dep s1 s2,
    reqs = pre ++ req :: post
    /\ invariants e !! req_Invariant req = Some reqInv
    /\ evaluateRequires rt e rec inv ctx result start pre s = Ok (None, s1)
    /\ evaluateDependency e rec req ctx s1 = Ok (Some dep, s2)
    /\ v = violated result (dependencyFailed reqInv dep) (vr_ResponsibleActor dep)
             (vr_EliminatedActors dep)
    /\ s' = logged rt (inv_ID inv) (uidOf ctx) false (dependencyFailed reqInv dep)
              start s2.
Proof.
  revert s. induction reqs as [|req reqs IH]; intros s; [done|]. simpl.
  destruct (invariants e !! req_Invariant req) as [reqInv|] eqn:Hreg.
  - rewrite bind_unfold.
    destruct (evaluateDependency e rec req ctx s) as [[[dep|] s1]| |] eqn:Hdep;
      [| |done..].
    + rewrite log_step. intros [= <- <-].
      by exists [], req, reqs, reqInv, dep, s, s1.
    + intros (pre & req' & post & reqInv' & dep & s2 & s3 & -> & ? & Hpre & ? & ? & ?)%IH.
      exists (req :: pre), req', post, reqInv', dep, s2, s3.
      repeat split; try done. simpl. by rewrite Hreg, bind_unfold, Hdep.
  - intros (pre & req' & post & reqInv' & dep & s2 & s3 & -> & ? & Hpre & ? & ? & ?)%IH.
    exists (req :: pre), req', post, reqInv', dep, s2, s3.
    repeat split; try done. simpl. by rewrite Hreg.
Qed.

(** The way through the loop over the requirements. *)
Lemma evaluateRequires_None_inv rec inv ctx result start reqs s s' :
  evaluateRequires rt e rec inv ctx result start reqs s = Ok (None, s') ->
  forall req reqInv,
    req ∈ reqs ->
    invariants e !! req_Invariant req = Some reqInv ->
    scope_Relation (req_Scope req) = Same
    /\ exists s1 s2, rec reqInv ctx s1 = Ok (None, s2).
Proof.
  revert s. induction reqs as [|req reqs IH]; intros s Hrun req' reqInv' Hin Hreg';
    [by apply elem_of_nil in Hin|].
  simpl in Hrun.
  destruct (invariants e !! req_Invariant req) as [reqInv|] eqn:Hreg.
  - rewrite bind_unfold in Hrun.
    destruct (evaluateDependency e rec req ctx s) as [[[dep|] s1]| |] eqn:Hdep;
      [by rewrite log_step in Hrun| |done..].
    apply elem_of_cons in Hin as [->|Hin]; [|by apply (IH s1)].
    revert Hdep. unfold evaluateDependency. rewrite Hreg.
    destruct (String.eqb (scope_Relation (req_Scope req)) Same) eqn:Hsame.
    + apply String.eqb_eq in Hsame. intros Hrec. split; [done|].
      assert (reqInv' = reqInv) as -> by congruence. by exists s, s1.
    + by destruct (_ || _).
  - apply elem_of_cons in Hin as [->|Hin]; [congruence|by apply (IH s)].
Qed.

Lemma evaluateOwnPredicate_fails inv ctx result start s pred reason :
  inv_Predicate inv = Some pred ->
  evaluatePredicateWithReason fmt_v pred (ctx_Resource ctx) = Ok (false, reason) ->
  exists responsible eliminated s1,
    evaluateOwnPredicate fmt_v rt e inv ctx result start s
    = Ok (Some (violated result reason responsible eliminated),
          logged rt (inv_ID inv) (uidOf ctx) false reason start s1)
    /\ evaluationLog s1 = evaluationLog s.
Proof.
  intros Hpred Hcheck. unfold evaluateOwnPredicate. rewrite Hpred, bind_unfold.
  unfold liftO. rewrite Hcheck. simpl. rewrite bind_unfold.
  destruct (determineResponsibility_Ok rt e inv (ctx_Resource ctx) s)
    as (responsible & s1 & -> & Hlog).
  rewrite bind_unfold, eliminateActors_eq, log_step.
  by eexists _, _, (advance (advance s1)).
Qed.

Lemma last_appendBounded (log : list EvaluationLogEntry) entry :
  last (appendBounded log entry) = Some entry
  /\ (1 <= length (appendBounded log entry) <= 1000)%nat.
Proof.
  rewrite appendBounded_keepLast. split.
  - unfold keepLast. rewrite length_app. simpl.
    rewrite drop_app_le by lia. apply last_snoc.
  - rewrite length_keepLast, length_app. simpl. lia.
Qed.

Lemma eval_violation_fields fuel inv ctx s v s' :
  eval fuel inv ctx s = Ok (Some v, s') ->
  vr_Violated v = true
  /\ vr_InvariantID v = inv_ID inv
  /\ vr_Severity v = inv_Severity inv
  /\ vr_AffectedResource v
     = ev_Namespace (ctx_Resource ctx) +:+ "/" +:+ ev_Name (ctx_Resource ctx)
  /\ vr_DetectedAt v = ctx_Timestamp ctx
  /\ vr_Reason v <> "".
Proof.
  destruct fuel as [|fuel]; [done|].
  intros [(v' & [= <-] & Hown)|[(v' & s1 & [= <-] & _ & Hreq)|(? & ? & [=] & _)]]%eval_S_inv.
  - apply evaluateOwnPredicate_inv in Hown
      as [([=] & _)|(pred & reason & responsible & n & n' & s1 & _ & Hcheck & [= ->] & _)].
    repeat split. simpl. by apply (unsatisfied_reason_nonempty pred (ctx_Resource ctx)).
  - apply evaluateRequires_Some_inv in Hreq
      as (pre & req & post & reqInv & dep & s2 & s3 & _ & _ & _ & _ & -> & _).
    repeat split. simpl. discriminate.
Qed.

(** X12. A violation that [EvaluateWithContext] returns describes the
    invariant that was evaluated and its subject, also when it comes from a
    requirement: it is marked violated, carries the ID and the severity of
    the invariant, the namespace and name of the subject, the timestamp of
    the context, and a reason that is not empty. *)
Theorem violation_describes_evaluated_invariant fuel inv ctx s v s' :
  EvaluateWithContext fmt_v rt e fuel inv ctx s = Ok (Some v, s') ->
  vr_Violated v = true
  /\ vr_InvariantID v = inv_ID inv
  /\ vr_Severity v = inv_Severity inv
  /\ vr_AffectedResource v
     = ev_Namespace (ctx_Resource ctx) +:+ "/" +:+ ev_Name (ctx_Resource ctx)
  /\ vr_DetectedAt v = ctx_Timestamp ctx
  /\ vr_Reason v <> "".
Proof. apply eval_violation_fields. Qed.

(** X13. When a requirement on the same subject fails, and the invariant's
    own predicate and the requirements before it raise nothing, the
    violation carries the reason of the requirement's violation behind the
    words "Dependency <id> failed: ", and the responsible and eliminated
    actors of the requirement's violation; the evaluation logs it after the
    entries of the requirement. *)
Theorem same_dependency_failure_is_inherited fuel inv ctx s pre req post reqInv s2 dep s3 :
  inv_Requires inv = pre ++ req :: post ->
  invariants e !! req_Invariant req = Some reqInv ->
  scope_Relation (req_Scope req) = Same ->
  ownPredicateHolds fmt_v inv ctx ->
  evaluateRequires rt e (eval fuel) inv ctx (newResult inv ctx) (clock rt (tick s))
    pre (advance s) = Ok (None, s2) ->
  eval fuel reqInv ctx s2 = Ok (Some dep, s3) ->
  eval (S fuel) inv ctx s
  = Ok (Some (violated (newResult inv ctx) (dependencyFailed reqInv dep)
                (vr_ResponsibleActor dep) (vr_EliminatedActors dep)),
        logged rt (inv_ID inv) (uidOf ctx) false (dependencyFailed reqInv dep)
          (clock rt (tick s)) s3).
Proof.
  intros Hreqs Hreg Hsame Hown Hpre Hdep.
  cbn [EvaluateWithContext]. rewrite bind_unfold. cbn [timeNow]. rewrite bind_unfold.
  rewrite (evaluateOwnPredicate_holds fmt_v rt e _ _ _ _ _ Hown).
  rewrite bind_unfold, Hreqs, evaluateRequires_app, Hpre. simpl.
  rewrite Hreg, bind_unfold. unfold evaluateDependency. rewrite Hreg, Hsame. simpl.
  rewrite Hdep. by rewrite log_step.
Qed.

(** X14. When the invariant's own predicate is not satisfied, nothing else
    is evaluated: the violation carries the reason of the predicate, one
    entry is logged, and neither the requirements of the invariant nor the
    depth allowed to the recursion change the outcome. *)
Theorem failing_predicate_stops_evaluation inv ctx s pred reason :
  inv_Predicate inv = Some pred ->
  evaluatePredicateWithReason fmt_v pred (ctx_Resource ctx) = Ok (false, reason) ->
  exists v s1,
    (forall fuel requires,
        eval (S fuel) (withRequires inv requires) ctx s
        = Ok (Some v, logged rt (inv_ID inv) (uidOf ctx) false reason (clock rt (tick s)) s1))
    /\ (forall fuel,
        eval (S fuel) inv ctx s
        = Ok (Some v, logged rt (inv_ID inv) (uidOf ctx) false reason (clock rt (tick s)) s1))
    /\ vr_Reason v = reason
    /\ evaluationLog s1 = evaluationLog s.
Proof.
  intros Hpred Hcheck.
  destruct (evaluateOwnPredicate_fails inv ctx (newResult inv ctx) (clock rt (tick s))
              (advance s) pred reason Hpred Hcheck)
    as (responsible & eliminated & s1 & Hown & Hlog).
  exists (violated (newResult inv ctx) reason responsible eliminated), s1.
  split; [|split; [|done]].
  - intros fuel requires.
    cbn [EvaluateWithContext]. rewrite bind_unfold. cbn [timeNow]. rewrite bind_unfold.
    change (evaluateOwnPredicate fmt_v rt e (withRequires inv requires) ctx
              (newResult (withRequires inv requires) ctx))
      with (evaluateOwnPredicate fmt_v rt e inv ctx (newResult inv ctx)).
    by rewrite Hown.
  - intros fuel.
    cbn [EvaluateWithContext]. rewrite bind_unfold. cbn [timeNow]. rewrite bind_unfold.
    by rewrite Hown.
Qed.

(** X15. When [EvaluateWithContext] reports no violation, the invariant's
    own predicate, if it has one, is satisfied, and every requirement that
    names a registered invariant is on the same subject and was itself
    evaluated without violation. *)
Theorem no_violation_means_all_checks_passed fuel inv ctx s s' :
  eval fuel inv ctx s = Ok (None, s') ->
  ownPredicateHolds fmt_v inv ctx
  /\ forall req reqInv,
       req ∈ inv_Requires inv ->
       invariants e !! req_Invariant req = Some reqInv ->
       scope_Relation (req_Scope req) = Same
       /\ exists fuel' s1 s2, fuel = S fuel' /\ eval fuel' reqInv ctx s1 = Ok (None, s2).
Proof.
  destruct fuel as [|fuel]; [done|].
  intros [(? & [=] & _)|[(? & ? & [=] & _)|(s1 & s2 & _ & Hown & Hreq & _)]]%eval_S_inv.
  apply evaluateOwnPredicate_inv in Hown as [(_ & -> & Hholds)|(? & ? & ? & ? & ? & ? & _ & _ & [=] & _)].
  split; [done|]. intros req reqInv Hin Hreg.
  destruct (evaluateRequires_None_inv _ _ _ _ _ _ _ _ Hreq req reqInv Hin Hreg)
    as (Hsame & s3 & s4 & Hrec).
  split; [done|]. by exists fuel, s3, s4.
Qed.

(** X16. After every evaluation that returns, the last entry of the log is
    the entry of that evaluation: it names the invariant and the subject,
    its result tells whether a violation was returned, and its reason is the
    reason of the violation, or "satisfied"; and the log holds between one
    and 1000 entries. *)
Theorem last_log_entry_reports_the_result fuel inv ctx s r s' :
  EvaluateWithContext fmt_v rt e fuel inv ctx s = Ok (r, s') ->
  (1 <= length (evaluationLog s') <= 1000)%nat
  /\ exists entry,
       last (evaluationLog s') = Some entry
       /\ le_InvariantID entry = inv_ID inv
       /\ le_ResourceUID entry = uidOf ctx
       /\ le_Result entry = match r with Some _ => false | None => true end
       /\ le_Reason entry = match r with Some v => vr_Reason v | None => "satisfied" end.
Proof.
  destruct fuel as [|fuel]; [done|].
  intros [(v & -> & Hown)|[(v & s1 & -> & _ & Hreq)|(s1 & s2 & -> & _ & _ & ->)]]%eval_S_inv.
  - apply evaluateOwnPredicate_inv in Hown
      as [([=] & _)|(pred & reason & responsible & n & n' & s1 & _ & _ & [= ->] & _ & ->)].
    cbn [logged evaluationLog].
    destruct (last_appendBounded (evaluationLog s1)
                (mkEvaluationLogEntry (inv_ID inv) (uidOf ctx) false reason
                   (clock rt (S (tick s1))) (clock rt (tick s1) - clock rt (tick s))))
      as [Hlast Hlen].
    split; [exact Hlen|]. eexists. split; [exact Hlast|]. done.
  - apply evaluateRequires_Some_inv in Hreq
      as (pre & req & post & reqInv & dep & s2 & s3 & _ & _ & _ & _ & -> & ->).
    cbn [logged evaluationLog].
    destruct (last_appendBounded (evaluationLog s3)
                (mkEvaluationLogEntry (inv_ID inv) (uidOf ctx) false
                   (dependencyFailed reqInv dep)
                   (clock rt (S (tick s3))) (clock rt (tick s3) - clock rt (tick s))))
      as [Hlast Hlen].
    split; [exact Hlen|]. eexists. split; [exact Hlast|]. done.
  - cbn [logged evaluationLog].
    destruct (last_appendBounded (evaluationLog s2)
                (mkEvaluationLogEntry (inv_ID inv) (uidOf ctx) true "satisfied"
                   (clock rt (S (tick s2))) (clock rt (tick s2) - clock rt (tick s))))
      as [Hlast Hlen].
    split; [exact Hlen|]. eexists. split; [exact Hlast|]. done.
Qed.

(** ** Depth of the recursion *)

Lemma eval_unfold fuel inv ctx s :
  eval (S fuel) inv ctx s
  = match evaluateOwnPredicate fmt_v rt e inv ctx (newResult inv ctx) (clock rt (tick s))
            (advance s) with
    | Ok (Some v, s1) => Ok (Some v, s1)
    | Ok (None, s1) =>
        match evaluateRequires rt e (eval fuel) inv ctx (newResult inv ctx)
                (clock rt (tick s)) (inv_Requires inv) s1 with
        | Ok (Some v, s2) => Ok (Some v, s2)
        | Ok (None, s2) =>
            Ok (None, logged rt (inv_ID inv) (uidOf ctx) true "satisfied"
                        (clock rt (tick s)) s2)
        | Panic msg => Panic msg
        | OutOfFuel => OutOfFuel
        end
    | Panic msg => Panic msg
    | OutOfFuel => OutOfFuel
    end.
Proof.
  cbn [EvaluateWithContext]. rewrite bind_unfold. cbn [timeNow]. rewrite bind_unfold.
  destruct (evaluateOwnPredicate _ _ _ _ _ _ _ _) as [[[v|] s1]| |]; [done| |done..].
  rewrite bind_unfold.
  destruct (evaluateRequires _ _ _ _ _ _ _ _ _) as [[[v|] s2]| |]; [done| |done..].
  by rewrite log_step.
Qed.

Lemma evaluateRequires_rec_ext rec rec' inv ctx result start reqs s r s' :
  (forall inv' s0 r0 s1, rec inv' ctx s0 = Ok (r0, s1) -> rec' inv' ctx s0 = Ok (r0, s1)) ->
  evaluateRequires rt e rec inv ctx result start reqs s = Ok (r, s') ->
  evaluateRequires rt e rec' inv ctx result start reqs s = Ok (r, s').
Proof.
  intros Hext. revert s. induction reqs as [|req reqs IH]; intros s; [done|]. simpl.
  destruct (invariants e !! req_Invariant req) as [reqInv|] eqn:Hreg; [|apply IH].
  rewrite !(bind_unfold (evaluateDependency e _ req ctx)).
  destruct (evaluateDependency e rec req ctx s) as [[dep s1]| |] eqn:Hdep; [|done..].
  assert (evaluateDependency e rec' req ctx s = Ok (dep, s1)) as ->.
  { revert Hdep. unfold evaluateDependency. rewrite Hreg.
    destruct (String.eqb _ Same); [apply Hext|done]. }
  destruct dep as [dep|]; [done|apply IH].
Qed.

Lemma eval_fuel_S fuel inv ctx s r s' :
  eval fuel inv ctx s = Ok (r, s') -> eval (S fuel) inv ctx s = Ok (r, s').
Proof.
  revert inv ctx s r s'.
  induction fuel as [|fuel IH]; intros inv ctx s r s'; [done|].
  rewrite (eval_unfold (S fuel)), (eval_unfold fuel).
  destruct (evaluateOwnPredicate _ _ _ _ _ _ _ _) as [[[v|] s1]| |]; [done| |done..].
  destruct (evaluateRequires rt e (eval fuel) _ _ _ _ _ _) as [[dep s2]| |] eqn:Hreq;
    [|done..].
  rewrite (evaluateRequires_rec_ext (eval fuel) (eval (S fuel)) _ _ _ _ _ _ _ _
             (fun inv' s0 r0 s1 => IH inv' ctx s0 r0 s1) Hreq).
  done.
Qed.

Lemma eval_fuel_le n fuel inv ctx s r s' :
  (n <= fuel)%nat -> eval n inv ctx s = Ok (r, s') -> eval fuel inv ctx s = Ok (r, s').
Proof.
  induction 1 as [|fuel _ IH]; [done|]. intros H. by apply eval_fuel_S, IH.
Qed.

(** X17. When following the requirements on the same subject from an
    invariant never takes more than [n] steps, and the operands of the
    predicates on the way are nil or of a comparable type, the evaluation
    returns, and it returns the same result and leaves the same state for
    every depth of recursion from [n] on. *)
Theorem evaluation_returns_within_depth n inv ctx s :
  safeWithin e n inv = true ->
  exists r s', forall fuel, (n <= fuel)%nat -> eval fuel inv ctx s = Ok (r, s').
Proof.
  intros Hsafe. destruct (eval_returns fmt_v rt e n inv ctx s Hsafe) as (r & s' & Hrun).
  exists r, s'. intros fuel Hle. by apply (eval_fuel_le n).
Qed.

(** X18. An invariant whose own predicate holds and whose first requirement
    is on the same subject and names, in the registry, the invariant itself,
    is never evaluated to the end: the evaluation calls itself again at
    every depth. *)
Theorem requirement_on_itself_never_returns inv ctx req post :
  invariants e !! req_Invariant req = Some inv ->
  scope_Relation (req_Scope req) = Same ->
  inv_Requires inv = req :: post ->
  ownPredicateHolds fmt_v inv ctx ->
  forall fuel s, eval fuel inv ctx s = OutOfFuel.
Proof.
  intros Hreg Hsame Hreqs Hown. induction fuel as [|fuel IH]; intros s; [done|].
  rewrite eval_unfold, (evaluateOwnPredicate_holds fmt_v rt e _ _ _ _ _ Hown), Hreqs.
  cbn [evaluateRequires]. rewrite Hreg, bind_unfold.
  unfold evaluateDependency. rewrite Hreg, Hsame. simpl. by rewrite IH.
Qed.

(** ** Responsibility *)

(** X19. The actor that [determineResponsibility] names is the only actor
    that the authority map returns for the field of the predicate, when
    there is exactly one, and the primary actor that the invariant declares
    in every other case: searching the authorized actors for the primary
    one does not change the answer. *)
Theorem responsibility_is_sole_authority_or_primary inv resource s responsible s' :
  lawful rt ->
  determineResponsibility rt e inv resource s = Ok (responsible, s') ->
  match inv_Predicate inv with
  | Some pred =>
      exists order,
        visits cam order
        /\ responsible
           = match GetAuthorizedControllers cam order (pred_Field pred) with
             | [controller] => controller
             | _ => resp_Primary (inv_Responsibility inv)
             end
  | None => responsible = resp_Primary (inv_Responsibility inv)
  end.
Proof.
  intros Hlaw. unfold determineResponsibility.
  destruct (inv_Predicate inv) as [pred|]; [|by intros [= <- _]].
  rewrite bind_unfold. cbn [rangeMap]. intros Hrun.
  exists (rangeOrder rt (tick s) _ (map_to_list (mappings cam))).
  split; [by apply orderAt_visits|]. revert Hrun.
  destruct (GetAuthorizedControllers cam _ (pred_Field pred)) as [|c [|c' l]];
    [by intros [= <- _]|by intros [= <- _]|].
  destruct (find _ _) as [controller|] eqn:Hfind; intros [= <- _]; [|done].
  apply find_some in Hfind as [_ Heq]. by apply String.eqb_eq in Heq.
Qed.

(** ** Evaluation over the store *)

Local Abbreviation describes inv :=
  (fun (subject : StateEvent) (v : ViolationResult) =>
     vr_Violated v = true
     /\ vr_InvariantID v = inv_ID inv
     /\ vr_Severity v = inv_Severity inv
     /\ vr_AffectedResource v = ev_Namespace subject +:+ "/" +:+ ev_Name subject).

Lemma evaluateSubjects_inv st fuel inv subjects acc s vs s' :
  evaluateSubjects fmt_v rt (mkInvariantEngine st e) fuel inv subjects acc s = Ok (vs, s') ->
  exists found new,
    vs = acc ++ new /\ found `sublist_of` subjects /\ Forall2 (describes inv) found new.
Proof.
  revert acc s. induction subjects as [|subject subjects IH]; intros acc s.
  - intros [= <- _]. exists [], []. by rewrite app_nil_r.
  - cbn [evaluateSubjects]. rewrite bind_unfold. unfold evaluateSubject.
    rewrite bind_unfold. cbn [timeNow evalEngine].
    destruct (EvaluateWithContext _ _ _ _ _ _ _) as [[[v|] s1]| |] eqn:Hrun; [| |done..].
    + intros (found & new & -> & Hsub & Hall)%IH.
      exists (subject :: found), (v :: new). rewrite <- app_assoc.
      split; [done|]. split; [by apply sublist_skip|].
      constructor; [|done].
      destruct (eval_violation_fields _ _ _ _ _ _ Hrun) as (? & ? & ? & ? & _).
      done.
    + intros (found & new & -> & Hsub & Hall)%IH.
      exists found, new. split; [done|]. split; [by apply sublist_cons|done].
Qed.

(** X20. [Evaluate] looks at the latest event of each resource of the kind
    of the invariant, in the order of the store, and returns at most one
    violation for each, in the same order; every violation it returns is
    marked violated and carries the ID and the severity of the invariant and
    the namespace and name of its subject. *)
Theorem Evaluate_reports_each_subject_once st fuel inv s vs s' :
  Evaluate fmt_v rt (mkInvariantEngine st e) fuel inv s = Ok (vs, s') ->
  exists found,
    found `sublist_of` GetLatestByKind st (subj_Kind (inv_Subject inv))
    /\ Forall2 (describes inv) found vs.
Proof.
  unfold Evaluate. cbn [store].
  intros (found & new & -> & Hsub & Hall)%evaluateSubjects_inv. by exists found.
Qed.

Lemma evaluateEach_inv st fuel (invs : list (string * Invariant)) acc s vs s' :
  evaluateEach fmt_v rt (mkInvariantEngine st e) fuel invs acc s = Ok (vs, s') ->
  exists new,
    vs = acc ++ new
    /\ Forall (fun v =>
                 vr_Violated v = true
                 /\ exists entry, entry ∈ invs /\ vr_InvariantID v = inv_ID entry.2
                                   /\ vr_Severity v = inv_Severity entry.2) new
    /\ ((forall kind, GetLatestByKind st kind = []) -> new = []).
Proof.
  revert acc s. induction invs as [|[id inv] invs IH]; intros acc s.
  - intros [= <- _]. exists []. by rewrite app_nil_r.
  - cbn [evaluateEach]. rewrite bind_unfold.
    destruct (Evaluate _ _ _ _ _ _) as [[results s1]| |] eqn:Hrun; [|done..].
    intros (new & -> & Hall & Hempty)%IH.
    exists (results ++ new). rewrite <- app_assoc. split; [done|]. split.
    + apply Forall_app. split.
      * unfold Evaluate in Hrun. cbn [store] in Hrun.
        apply evaluateSubjects_inv in Hrun as (found & new' & -> & _ & Hdesc).
        simpl. clear -Hdesc. induction Hdesc as [|subject v found new' Hd _ IHd];
          constructor; [|done].
        destruct Hd as (? & ? & ? & _). split; [done|].
        exists (id, inv). split; [apply list_elem_of_here|done].
      * eapply Forall_impl; [exact Hall|]. intros v (? & entry & ? & ?).
        split; [done|]. exists entry. split; [by apply list_elem_of_further|done].
    + intros Hnone. rewrite (Hempty Hnone), app_nil_r.
      revert Hrun. unfold Evaluate. cbn [store]. rewrite Hnone. by intros [= <- _].
Qed.

(** X21. Every violation that [EvaluateAll] returns is marked violated and
    carries the ID and the severity of an invariant of the registry; and
    [EvaluateAll] returns nothing when the store has no resource of any
    kind. *)
Theorem EvaluateAll_reports_registered_invariants st fuel s vs s' :
  lawful rt ->
  EvaluateAll fmt_v rt (mkInvariantEngine st e) fuel s = Ok (vs, s') ->
  Forall (fun v =>
            vr_Violated v = true
            /\ exists id inv,
                 invariants e !! id = Some inv
                 /\ vr_InvariantID v = inv_ID inv
                 /\ vr_Severity v = inv_Severity inv) vs
  /\ ((forall kind, GetLatestByKind st kind = []) -> vs = []).
Proof.
  intros Hlaw. unfold EvaluateAll. rewrite bind_unfold. cbn [rangeMap evalEngine].
  intros (new & -> & Hall & Hempty)%evaluateEach_inv. simpl. split; [|done].
  eapply Forall_impl; [exact Hall|]. intros v (? & [id inv] & Hin & ? & ?).
  split; [done|]. exists id, inv. split; [|done].
  apply elem_of_map_to_list. by rewrite <- (Hlaw (tick s) _ (map_to_list (invariants e))).
Qed.

End MoreEngineFacts.

(* ===================================================================== *)
(** * Further properties: registry, statistics, reports *)
(* ===================================================================== *)

Section ReaderFacts.

Variable fmt_v : value -> string.
Variable rt : Runtime.
Variable e : EvaluationEngine.

Implicit Types (inv : Invariant) (ctx : EvaluationContext) (s : EngineState).
Implicit Types (st : MemoryStore) (v : ViolationResult) (vs : list ViolationResult).

Local Abbreviation eval := (EvaluateWithContext fmt_v rt e).
Local Abbreviation failed := (fun entry : EvaluationLogEntry => negb (le_Result entry)).
Local Abbreviation total log := (foldr Z.add 0 (le_Duration <$> log)).

(** ** The registry *)

Lemma load_other (l : list Invariant) (registry : gmap string Invariant) id :
  id ∉ inv_ID <$> l ->
  fold_left (fun m inv => <[inv_ID inv := inv]> m) l registry !! id = registry !! id.
Proof.
  revert registry. induction l as [|a l IH]; intros registry Hid; [done|]. simpl.
  rewrite fmap_cons, not_elem_of_cons in Hid. destruct Hid as [Hne Hid].
  rewrite (IH _ Hid). by apply lookup_insert_ne.
Qed.

Lemma load_member (l : list Invariant) (registry : gmap string Invariant) inv :
  NoDup (inv_ID <$> l) ->
  inv ∈ l ->
  fold_left (fun m inv => <[inv_ID inv := inv]> m) l registry !! inv_ID inv = Some inv.
Proof.
  revert registry. induction l as [|a l IH]; intros registry Hnd Hin;
    [by apply elem_of_nil in Hin|].
  rewrite fmap_cons in Hnd. apply NoDup_cons in Hnd as [Hfresh Hnd]. simpl.
  apply elem_of_cons in Hin as [->|Hin]; [|by apply IH].
  rewrite (load_other _ _ _ Hfresh). apply lookup_insert_eq.
Qed.

Lemma MVP_IDs_NoDup : NoDup (inv_ID <$> GetMVPInvariants).
Proof.
  assert (bool_decide (NoDup (inv_ID <$> GetMVPInvariants)) = true) as H
    by (vm_compute; reflexivity).
  by apply bool_decide_eq_true in H.
Qed.

(** X22. [LoadDefaultInvariants] registers every invariant of the minimum
    viable set under its own ID, none displacing another, and leaves the
    entries of the registry under other IDs as they were. *)
Theorem LoadDefaultInvariants_registers_by_ID (registry : gmap string Invariant) :
  (forall inv,
      inv ∈ GetMVPInvariants ->
      LoadDefaultInvariants registry !! inv_ID inv = Some inv)
  /\ (forall id,
        (forall inv, inv ∈ GetMVPInvariants -> inv_ID inv <> id) ->
        LoadDefaultInvariants registry !! id = registry !! id)
  /\ (forall id inv,
        LoadDefaultInvariants registry !! id = Some inv ->
        (inv ∈ GetMVPInvariants /\ inv_ID inv = id) \/ registry !! id = Some inv).
Proof.
  unfold LoadDefaultInvariants. split; [|split].
  - intros inv Hin. by apply load_member; [apply MVP_IDs_NoDup|].
  - intros id Hid. apply load_other. intros (inv & -> & Hin)%list_elem_of_fmap.
    by apply (Hid inv).
  - intros id inv Hreg.
    destruct (decide (id ∈ inv_ID <$> GetMVPInvariants)) as [Hin|Hout].
    + apply list_elem_of_fmap in Hin as (inv' & -> & Hin). left.
      rewrite (load_member _ _ _ MVP_IDs_NoDup Hin) in Hreg. by injection Hreg as <-.
    + right. by rewrite (load_other _ _ _ Hout) in Hreg.
Qed.

(** X23. [GetInvariants] returns as many invariants as the registry has
    keys, and an invariant is among them exactly when [GetInvariantByID]
    finds it under some ID, whatever the order of the traversal. *)
Theorem registry_readers_agree st (order : list (string * Invariant)) :
  visitsRegistry e order ->
  length (GetInvariants (mkInvariantEngine st e) order) = size (invariants e)
  /\ forall inv,
       inv ∈ GetInvariants (mkInvariantEngine st e) order
       <-> exists id, GetInvariantByID (mkInvariantEngine st e) id = Some inv.
Proof.
  unfold visitsRegistry, GetInvariants, GetInvariantByID. cbn [evalEngine].
  intros Hv. split.
  - by rewrite length_fmap, Hv, length_map_to_list.
  - intros inv. rewrite list_elem_of_fmap. split.
    + intros ([id inv'] & -> & Hin). exists id. apply elem_of_map_to_list.
      by rewrite <- Hv.
    + intros [id Hreg]. exists (id, inv). split; [done|].
      rewrite Hv. by apply elem_of_map_to_list.
Qed.

(** ** Statistics *)

Lemma wrap64_small (z : Z) : - 2 ^ 63 <= z < 2 ^ 63 -> wrap64 z = z.
Proof. intros Hz. unfold wrap64. rewrite Z.mod_small; lia. Qed.

Lemma statsLoop_violations (log : list EvaluationLogEntry) (acc : Z * Z) :
  (fold_left
     (fun '(violations, totalDuration) entry =>
        (if le_Result entry then violations else violations + 1,
         wrap64 (totalDuration + le_Duration entry)))
     log acc).1
  = acc.1 + Z.of_nat (length (List.filter failed log)).
Proof.
  revert acc. induction log as [|entry log IH]; intros [violations totalDuration];
    simpl; [lia|].
  rewrite IH. destruct (le_Result entry); simpl; lia.
Qed.

Lemma total_cons entry (log : list EvaluationLogEntry) :
  total (entry :: log) = le_Duration entry + total log.
Proof. reflexivity. Qed.

Lemma total_nonneg (log : list EvaluationLogEntry) :
  Forall (fun entry => 0 <= le_Duration entry) log -> 0 <= total log.
Proof. induction 1 as [|entry log Hentry _ IH]; [done|]. rewrite total_cons. lia. Qed.

Lemma statsLoop_duration (log : list EvaluationLogEntry) (acc : Z * Z) :
  Forall (fun entry => 0 <= le_Duration entry) log ->
  0 <= acc.2 ->
  acc.2 + total log < 2 ^ 63 ->
  (fold_left
     (fun '(violations, totalDuration) entry =>
        (if le_Result entry then violations else violations + 1,
         wrap64 (totalDuration + le_Duration entry)))
     log acc).2
  = acc.2 + total log.
Proof.
  intros Hall. revert acc.
  induction Hall as [|entry log Hentry Hall IH]; intros [violations totalDuration];
    rewrite ?total_cons; cbn [fold_left snd]; intros Hacc Hsum; [simpl; lia|].
  pose proof (total_nonneg log Hall) as Hnn.
  rewrite IH; cbn [snd]; rewrite wrap64_small; lia.
Qed.

(** X24. [GetEvaluationStats] reports the length of the log, the number of
    its entries whose result is a violation, and the number of registered
    invariants; the mean duration is zero on an empty log and, when the
    durations are not negative and their sum fits the 64-bit counter, the
    sum divided by the length of the log and then by one million, each
    division rounded down. *)
Theorem GetEvaluationStats_counts_the_log s :
  GetEvaluationStats e s !! "total_evaluations"
  = Some (VInt (Z.of_nat (length (evaluationLog s))))
  /\ GetEvaluationStats e s !! "violations_found"
     = Some (VInt (Z.of_nat (length (List.filter failed (evaluationLog s)))))
  /\ GetEvaluationStats e s !! "total_invariants"
     = Some (VInt (Z.of_nat (size (invariants e))))
  /\ (evaluationLog s = [] ->
      GetEvaluationStats e s !! "avg_duration_ms" = Some (VInt64 0))
  /\ (Forall (fun entry => 0 <= le_Duration entry) (evaluationLog s) ->
      total (evaluationLog s) < 2 ^ 63 ->
      evaluationLog s <> [] ->
      GetEvaluationStats e s !! "avg_duration_ms"
      = Some (VInt64 (total (evaluationLog s) / Z.of_nat (length (evaluationLog s))
                      / 1000000))).
Proof.
  unfold GetEvaluationStats.
  pose proof (statsLoop_violations (evaluationLog s) (0, 0)) as Hviol.
  pose proof (statsLoop_duration (evaluationLog s) (0, 0)) as Hdur.
  unfold statsLoop.
  destruct (fold_left _ (evaluationLog s) (0, 0)) as [violations totalDuration] eqn:Hloop.
  simpl in Hviol, Hdur. subst violations.
  split; [by rewrite lookup_insert_eq|].
  split; [by rewrite lookup_insert_ne, lookup_insert_eq by done|].
  split; [by rewrite 3!lookup_insert_ne, lookup_singleton_eq by done|].
  rewrite lookup_insert_ne, lookup_insert_ne, lookup_insert_eq by done.
  split.
  - intros Hnil. by rewrite Hnil.
  - intros Hall Hsum Hne. rewrite (Hdur Hall) by lia. rewrite Z.add_0_l.
    pose proof (total_nonneg _ Hall) as Hnn.
    assert (0 < Z.of_nat (length (evaluationLog s))) as Hlen
      by (destruct (evaluationLog s); [done|simpl; lia]).
    apply Z.ltb_lt in Hlen as Hlt. rewrite Hlt.
    rewrite (Z.quot_div_nonneg (total (evaluationLog s))) by lia.
    rewrite Z.quot_div_nonneg; [done| |lia].
    apply Z.div_pos; lia.
Qed.

(** ** Reports *)

Lemma summarizeAll_fold vs (summary : Summary) :
  summarizeAll (Some <$> vs) summary = Ok (fold_left summarize vs summary).
Proof. revert summary. induction vs as [|v vs IH]; intros summary; [done|apply IH]. Qed.

Lemma summarize_counts vs (summary : Summary) :
  let result := fold_left summarize vs summary in
  sum_total result = sum_total summary
  /\ sum_violated result
     = sum_violated summary + Z.of_nat (length (List.filter vr_Violated vs))
  /\ sum_satisfied result
     = sum_satisfied summary
       + Z.of_nat (length (List.filter (fun v => negb (vr_Violated v)) vs))
  /\ sum_critical result
     = sum_critical summary
       + Z.of_nat (length (List.filter
                             (fun v => vr_Violated v && String.eqb (vr_Severity v) Critical)
                             vs))
  /\ forall actor,
       default 0 (sum_responsible result !! actor)
       = default 0 (sum_responsible summary !! actor)
         + Z.of_nat (length (List.filter
                               (fun v => vr_Violated v
                                         && String.eqb (vr_ResponsibleActor v) actor)
                               vs)).
Proof.
  revert summary. induction vs as [|v vs IH]; intros summary.
  { simpl. repeat split; intros; lia. }
  cbn [fold_left]. destruct (IH (summarize summary v)) as (Ht & Hv & Hs & Hc & Hr).
  cbv zeta. rewrite Ht, Hv, Hs, Hc.
  split; [|split; [|split; [|split]]].
  - unfold summarize. by destruct (vr_Violated v).
  - unfold summarize. simpl. destruct (vr_Violated v); simpl; lia.
  - unfold summarize. simpl. destruct (vr_Violated v); simpl; lia.
  - unfold summarize. simpl. destruct (vr_Violated v); simpl; [|lia].
    destruct (String.eqb (vr_Severity v) Critical); simpl; lia.
  - intros actor. rewrite Hr. unfold summarize. simpl.
    destruct (vr_Violated v); simpl; [|lia].
    destruct (String.eqb_spec (vr_ResponsibleActor v) actor) as [->|Hne]; simpl.
    + rewrite lookup_insert_eq. simpl. lia.
    + rewrite lookup_insert_ne by done. lia.
Qed.

Lemma filter_split_length {A : Type} (f : A -> bool) (l : list A) :
  (length (List.filter f l) + length (List.filter (fun a => negb (f a)) l))%nat = length l.
Proof. induction l as [|a l IH]; simpl; [done|]. destruct (f a); simpl; lia. Qed.

Lemma filter_and_length {A : Type} (f g : A -> bool) (l : list A) :
  (length (List.filter (fun a => f a && g a) l) <= length (List.filter f l))%nat.
Proof. induction l as [|a l IH]; simpl; [done|]. destruct (f a), (g a); simpl; lia. Qed.

(** X25. On a list without nil entries [GenerateSummary] returns: the total
    is the length of the list, the violated and the satisfied entries add up
    to it, the critical ones are among the violated, and each actor is
    counted with the number of violated entries that name it. *)
Theorem GenerateSummary_counts vs :
  exists summary,
    GenerateSummary (Some <$> vs) = Ok summary
    /\ sum_total summary = Z.of_nat (length vs)
    /\ sum_violated summary = Z.of_nat (length (List.filter vr_Violated vs))
    /\ sum_violated summary + sum_satisfied summary = sum_total summary
    /\ 0 <= sum_critical summary <= sum_violated summary
    /\ forall actor,
         default 0 (sum_responsible summary !! actor)
         = Z.of_nat (length (List.filter
                               (fun v => vr_Violated v
                                         && String.eqb (vr_ResponsibleActor v) actor)
                               vs)).
Proof.
  unfold GenerateSummary. rewrite summarizeAll_fold, length_fmap.
  eexists. split; [done|].
  destruct (summarize_counts vs (mkSummary (Z.of_nat (length vs)) 0 0 0 ∅))
    as (Ht & Hv & Hs & Hc & Hr).
  cbv zeta in Ht, Hv, Hs, Hc, Hr. rewrite Ht, Hv, Hs, Hc. cbn [sum_total sum_violated
    sum_satisfied sum_critical].
  pose proof (filter_split_length vr_Violated vs).
  pose proof (filter_and_length vr_Violated
                (fun v => String.eqb (vr_Severity v) Critical) vs).
  split; [done|]. split; [lia|]. split; [lia|]. split; [lia|].
  intros actor. rewrite Hr. cbn [sum_responsible]. rewrite lookup_empty. simpl. lia.
Qed.

Lemma FormatMultipleExplanations_filter vs :
  FormatMultipleExplanations (Some <$> vs)
  = Ok (FormatExplanation <$> List.filter vr_Violated vs).
Proof.
  induction vs as [|v vs IH]; [done|].
  rewrite fmap_cons. cbn [FormatMultipleExplanations]. rewrite IH. simpl.
  by destruct (vr_Violated v).
Qed.

(** X26. [FormatMultipleExplanations] and [GenerateSummary] read a field of
    every entry: they panic on a nil pointer dereference exactly when the
    list holds a nil entry, and on a list without one the explanations are
    those of the violated entries, in the order of the list. *)
Theorem reports_panic_exactly_on_nil (violations : list (option ViolationResult)) :
  (FormatMultipleExplanations violations = Panic nilDereference <-> None ∈ violations)
  /\ (GenerateSummary violations = Panic nilDereference <-> None ∈ violations)
  /\ (forall vs,
        violations = Some <$> vs ->
        FormatMultipleExplanations violations
        = Ok (FormatExplanation <$> List.filter vr_Violated vs)).
Proof.
  split; [|split].
  - induction violations as [|[v|] violations IH]; simpl.
    + split; [done|by intros ?%elem_of_nil].
    + rewrite elem_of_cons, <- IH.
      destruct (FormatMultipleExplanations violations); split; try done;
        try (by intros [|]); by right.
    + split; [intros _; apply list_elem_of_here|done].
  - unfold GenerateSummary. generalize (mkSummary (Z.of_nat (length violations)) 0 0 0 ∅).
    induction violations as [|[v|] violations IH]; intros summary; simpl.
    + split; [done|by intros ?%elem_of_nil].
    + rewrite elem_of_cons, IH. split; [by right|by intros [|]].
    + split; [intros _; apply list_elem_of_here|done].
  - intros vs ->. apply FormatMultipleExplanations_filter.
Qed.

Lemma filter_all {A : Type} (f : A -> bool) (l : list A) :
  Forall (fun a => f a = true) l -> List.filter f l = l.
Proof. induction 1 as [|a l Ha _ IH]; simpl; [done|]. by rewrite Ha, IH. Qed.

Lemma filter_none {A : Type} (f : A -> bool) (l : list A) :
  Forall (fun a => f a = true) l -> List.filter (fun a => negb (f a)) l = [].
Proof. induction 1 as [|a l Ha _ IH]; simpl; [done|]. by rewrite Ha. Qed.

(** X27. Everything that [Evaluate] returns is reported: the explanations
    are one for each result, in order, and the summary counts every result
    as violated and none as satisfied. *)
Theorem evaluation_results_are_all_reported st fuel inv s vs s' :
  Evaluate fmt_v rt (mkInvariantEngine st e) fuel inv s = Ok (vs, s') ->
  FormatMultipleExplanations (Some <$> vs) = Ok (FormatExplanation <$> vs)
  /\ exists summary,
       GenerateSummary (Some <$> vs) = Ok summary
       /\ sum_total summary = Z.of_nat (length vs)
       /\ sum_violated summary = Z.of_nat (length vs)
       /\ sum_satisfied summary = 0.
Proof.
  unfold Evaluate. cbn [store].
  intros (found & new & -> & _ & Hdesc)%evaluateSubjects_inv. simpl.
  assert (Forall (fun v => vr_Violated v = true) new) as Hall.
  { clear -Hdesc. induction Hdesc as [|? ? ? ? (? & _) _ IH]; by constructor. }
  split; [by rewrite FormatMultipleExplanations_filter, (filter_all _ _ Hall)|].
  unfold GenerateSummary. rewrite summarizeAll_fold, length_fmap.
  eexists. split; [done|].
  destruct (summarize_counts new (mkSummary (Z.of_nat (length new)) 0 0 0 ∅))
    as (Ht & Hv & Hs & _).
  cbv zeta in Ht, Hv, Hs. rewrite Ht, Hv, Hs.
  rewrite (filter_all _ _ Hall), (filter_none _ _ Hall). simpl.
  split; [done|]. split; lia.
Qed.

(** ** The causal chain *)

(** X28. The causal chain of a registered invariant starts with the
    invariant itself; and when the evaluation of the invariant returns a
    violation, either its own predicate failed with the reason of the
    violation, or the violation names, in its reason, an invariant that
    stands in the chain behind the first entry, with a relation. *)
Theorem failed_dependency_is_in_causal_chain st id inv fuel ctx s v s' :
  invariants e !! id = Some inv ->
  eval fuel inv ctx s = Ok (Some v, s') ->
  exists first rest,
    buildCausalChain (mkInvariantEngine st e) id = first :: rest
    /\ ce_invariant_id first = inv_ID inv
    /\ ce_relation first = None
    /\ ((exists pred,
           inv_Predicate inv = Some pred
           /\ evaluatePredicateWithReason fmt_v pred (ctx_Resource ctx)
              = Ok (false, vr_Reason v))
        \/ (ownPredicateHolds fmt_v inv ctx
            /\ exists entry relation reason,
                 entry ∈ rest
                 /\ ce_relation entry = Some relation
                 /\ vr_Reason v
                    = "Dependency " +:+ ce_invariant_id entry +:+ " failed: " +:+ reason)).
Proof.
  intros Hreg Hrun. unfold buildCausalChain, GetInvariantByID. cbn [evalEngine].
  rewrite Hreg. eexists _, _. split; [done|]. split; [done|]. split; [done|].
  destruct fuel as [|fuel]; [done|].
  apply eval_S_inv in Hrun
    as [(v' & [= <-] & Hown)|[(v' & s1 & [= <-] & Hown & Hreq)|(? & ? & [=] & _)]].
  - left. apply evaluateOwnPredicate_inv in Hown
      as [([=] & _)|(pred & reason & responsible & n & n' & s1 & Hpred & Hcheck & [= ->] & _)].
    by exists pred.
  - right. apply evaluateOwnPredicate_inv in Hown
      as [(_ & _ & Hholds)|(? & ? & ? & ? & ? & ? & _ & _ & [=] & _)].
    split; [done|].
    apply evaluateRequires_Some_inv in Hreq
      as (pre & req & post & reqInv & dep & s2 & s3 & Hreqs & Hreg' & _ & _ & -> & _).
    exists (mkChainEntry (inv_ID reqInv) (inv_Description reqInv) (inv_Severity reqInv)
              (resp_Primary (inv_Responsibility reqInv))
              (Some (scope_Relation (req_Scope req)))),
      (scope_Relation (req_Scope req)), (vr_Reason dep).
    split; [|split; [|reflexivity]].
    + apply list_elem_of_omap. exists req. split.
      * rewrite Hreqs. apply elem_of_app. right. apply list_elem_of_here.
      * by rewrite Hreg'.
    + done.
Qed.

End ReaderFacts.

(* ===================================================================== *)
(** * The further properties on the sample inputs *)
(* ===================================================================== *)

Lemma GetLatestByKind_has_kind_witness :
  exists ev,
    ev ∈ GetLatestByKind
           (recordAll NewMemoryStore
              [podEvent "pod-1" "1" 10 notReady; podEvent "pod-2" "1" 20 readyAndRunning;
               podEvent "pod-1" "2" 40 readyButNotRunning])
           "Pod"
    /\ ev_Version ev = "2"
    /\ ev_Kind ev = "Pod".
Proof.
  exists (podEvent "pod-1" "2" 40 readyButNotRunning).
  assert (podEvent "pod-1" "2" 40 readyButNotRunning
            ∈ GetLatestByKind
                (recordAll NewMemoryStore
                   [podEvent "pod-1" "1" 10 notReady;
                    podEvent "pod-2" "1" 20 readyAndRunning;
                    podEvent "pod-1" "2" 40 readyButNotRunning])
                "Pod") as Hin by (vm_compute; apply list_elem_of_here).
  split; [exact Hin|]. split; [reflexivity|].
  apply (GetLatestByKind_has_kind
           [podEvent "pod-1" "1" 10 notReady; podEvent "pod-2" "1" 20 readyAndRunning;
            podEvent "pod-1" "2" 40 readyButNotRunning]
           "Pod" (podEvent "pod-1" "2" 40 readyButNotRunning)); [|exact Hin].
  intros ev1 ev2 H1 H2 _.
  assert (forall ev,
            ev ∈ [podEvent "pod-1" "1" 10 notReady; podEvent "pod-2" "1" 20 readyAndRunning;
                  podEvent "pod-1" "2" 40 readyButNotRunning] ->
            ev_Kind ev = "Pod") as Hpod.
  { intros ev Hev. repeat (apply elem_of_cons in Hev as [->|Hev]; [reflexivity|]).
    by apply elem_of_nil in Hev. }
  by rewrite (Hpod ev1 H1), (Hpod ev2 H2).
Defined.

Lemma GetAllControllers_lists_each_actor_once_witness :
  NoDup (GetAllControllers NewControllerAuthorityMap
           (map_to_list (mappings NewControllerAuthorityMap)))
  /\ (forall c,
        c ∈ GetAllControllers NewControllerAuthorityMap
              (map_to_list (mappings NewControllerAuthorityMap))
        <-> c <> "*"
            /\ exists k controllers,
                 mappings NewControllerAuthorityMap !! k = Some controllers
                 /\ c ∈ controllers).
Proof.
  apply (GetAllControllers_lists_each_actor_once NewControllerAuthorityMap
           (map_to_list (mappings NewControllerAuthorityMap))).
  unfold visits. reflexivity.
Defined.

Lemma nested_field_has_authority_of_its_key_witness :
  GetAuthorizedControllers NewControllerAuthorityMap
    (map_to_list (mappings NewControllerAuthorityMap))
    "status.conditions[Ready].status"
  = ["node-controller"; "kubelet"].
Proof.
  apply (nested_field_has_authority_of_its_key NewControllerAuthorityMap
           (map_to_list (mappings NewControllerAuthorityMap))
           "status.conditions" ["node-controller"; "kubelet"]
           "status.conditions[Ready].status").
  - exact default_prefixFree.
  - unfold visits. reflexivity.
  - vm_compute. reflexivity.
  - vm_compute. reflexivity.
Defined.

Lemma ValidateAuthority_accepts_witness :
  (ValidateAuthority NewControllerAuthorityMap
     (map_to_list (mappings NewControllerAuthorityMap)) "kubelet" "status.phase" = true
   <-> "kubelet" ∈ GetAuthorizedControllers NewControllerAuthorityMap
                     (map_to_list (mappings NewControllerAuthorityMap)) "status.phase"
       \/ "*" ∈ GetAuthorizedControllers NewControllerAuthorityMap
                  (map_to_list (mappings NewControllerAuthorityMap)) "status.phase")
  /\ ((forall k controllers,
         mappings NewControllerAuthorityMap !! k = Some controllers ->
         HasPrefix "status.phase" k = false) ->
      ValidateAuthority NewControllerAuthorityMap
        (map_to_list (mappings NewControllerAuthorityMap)) "kubelet" "status.phase"
      = false).
Proof.
  apply (ValidateAuthority_accepts NewControllerAuthorityMap
           (map_to_list (mappings NewControllerAuthorityMap)) "kubelet" "status.phase").
  unfold visits. reflexivity.
Defined.

Lemma table_authority_extends_to_nested_fields_witness :
  authority_table.GetAuthorizedControllers authority_table.AuthorityTable
    "status.conditions"
  = ["kubelet"; "node-controller"]
  /\ authority_table.GetAuthorizedControllers authority_table.AuthorityTable
       "status.conditions"
       `sublist_of` authority_table.GetAuthorizedControllers
                      authority_table.AuthorityTable "status.conditions[Ready]".
Proof.
  split; [reflexivity|].
  apply (table_authority_extends_to_nested_fields authority_table.AuthorityTable
           "status.conditions" "status.conditions[Ready]").
  vm_compute. reflexivity.
Defined.

Lemma violation_describes_evaluated_invariant_witness :
  exists v s',
    EvaluateWithContext showValue sampleRuntime defaultEngine 2 podReady
      (podContext readyButNotRunning) initialState = Ok (Some v, s')
    /\ vr_Violated v = true
    /\ vr_InvariantID v = inv_ID podReady
    /\ vr_Severity v = inv_Severity podReady
    /\ vr_AffectedResource v
       = ev_Namespace (ctx_Resource (podContext readyButNotRunning)) +:+ "/"
           +:+ ev_Name (ctx_Resource (podContext readyButNotRunning))
    /\ vr_DetectedAt v = ctx_Timestamp (podContext readyButNotRunning)
    /\ vr_Reason v <> "".
Proof.
  eexists _, _. split; [vm_compute; reflexivity|].
  eapply (violation_describes_evaluated_invariant showValue sampleRuntime defaultEngine 2
            podReady (podContext readyButNotRunning) initialState).
  vm_compute. reflexivity.
Defined.

Lemma same_dependency_failure_is_inherited_witness :
  exists v s',
    EvaluateWithContext showValue sampleRuntime defaultEngine 2 podReady
      (podContext readyButNotRunning) initialState = Ok (Some v, s')
    /\ vr_Reason v
       = "Dependency containers_running failed: Field status.containerStatuses[*].state.running has non-truthy element: false".
Proof.
  eexists _, _. split.
  - eapply (same_dependency_failure_is_inherited showValue sampleRuntime defaultEngine 1
              podReady (podContext readyButNotRunning) initialState []
              (mkRequirement "containers_running" (mkScope Same))
              [mkRequirement "node_ready" (mkScope Node)]).
    + reflexivity.
    + vm_compute. reflexivity.
    + reflexivity.
    + eexists. vm_compute. reflexivity.
    + vm_compute. reflexivity.
    + vm_compute. reflexivity.
  - vm_compute. reflexivity.
Defined.

Lemma failing_predicate_stops_evaluation_witness :
  exists v s1,
    (forall fuel requires,
        EvaluateWithContext showValue sampleRuntime defaultEngine (S fuel)
          (withRequires podReady requires) (podContext notReady) initialState
        = Ok (Some v,
              logged sampleRuntime (inv_ID podReady)
                (ev_UID (ctx_Resource (podContext notReady))) false
                "Field status.conditions[Ready].status is 'False' (expected: True)"
                (clock sampleRuntime (tick initialState)) s1))
    /\ (forall fuel,
        EvaluateWithContext showValue sampleRuntime defaultEngine (S fuel) podReady
          (podContext notReady) initialState
        = Ok (Some v,
              logged sampleRuntime (inv_ID podReady)
                (ev_UID (ctx_Resource (podContext notReady))) false
                "Field status.conditions[Ready].status is 'False' (expected: True)"
                (clock sampleRuntime (tick initialState)) s1))
    /\ vr_Reason v = "Field status.conditions[Ready].status is 'False' (expected: True)"
    /\ evaluationLog s1 = evaluationLog initialState.
Proof.
  apply (failing_predicate_stops_evaluation showValue sampleRuntime defaultEngine
           podReady (podContext notReady) initialState
           (mkPredicate "status.conditions[Ready].status" Equals (VString "True"))
           "Field status.conditions[Ready].status is 'False' (expected: True)").
  - reflexivity.
  - vm_compute. reflexivity.
Defined.

Lemma no_violation_means_all_checks_passed_witness :
  ownPredicateHolds showValue needsRunning (podContext readyAndRunning)
  /\ forall req reqInv,
       req ∈ inv_Requires needsRunning ->
       invariants defaultEngine !! req_Invariant req = Some reqInv ->
       scope_Relation (req_Scope req) = Same
       /\ exists fuel' s1 s2,
            2%nat = S fuel'
            /\ EvaluateWithContext showValue sampleRuntime defaultEngine fuel' reqInv
                 (podContext readyAndRunning) s1 = Ok (None, s2).
Proof.
  eapply (no_violation_means_all_checks_passed showValue sampleRuntime defaultEngine 2
            needsRunning (podContext readyAndRunning) initialState).
  vm_compute. reflexivity.
Defined.

Lemma last_log_entry_reports_the_result_witness :
  exists r s',
    EvaluateWithContext showValue sampleRuntime defaultEngine 2 podReady
      (podContext readyButNotRunning) initialState = Ok (r, s')
    /\ (1 <= length (evaluationLog s') <= 1000)%nat
    /\ exists entry,
         last (evaluationLog s') = Some entry
         /\ le_InvariantID entry = inv_ID podReady
         /\ le_ResourceUID entry = ev_UID (ctx_Resource (podContext readyButNotRunning))
         /\ le_Result entry = match r with Some _ => false | None => true end
         /\ le_Reason entry
            = match r with Some v => vr_Reason v | None => "satisfied" end.
Proof.
  eexists _, _. split; [vm_compute; reflexivity|].
  eapply (last_log_entry_reports_the_result showValue sampleRuntime defaultEngine 2
            podReady (podContext readyButNotRunning) initialState).
  vm_compute. reflexivity.
Defined.

Lemma evaluation_returns_within_depth_witness :
  exists r s',
    forall fuel,
      (2 <= fuel)%nat ->
      EvaluateWithContext showValue sampleRuntime defaultEngine fuel podReady
        (podContext readyAndRunning) initialState = Ok (r, s').
Proof.
  apply (evaluation_returns_within_depth showValue sampleRuntime defaultEngine 2
           podReady (podContext readyAndRunning) initialState).
  vm_compute. reflexivity.
Defined.

Lemma requirement_on_itself_never_returns_witness :
  EvaluateWithContext showValue sampleRuntime cyclicEngine 7 selfRequiring
    (podContext ∅) initialState = OutOfFuel.
Proof.
  apply (requirement_on_itself_never_returns showValue sampleRuntime cyclicEngine
           selfRequiring (podContext ∅) (mkRequirement "self" (mkScope Same)) []).
  - vm_compute. reflexivity.
  - reflexivity.
  - reflexivity.
  - exact I.
Defined.

Lemma responsibility_is_sole_authority_or_primary_witness :
  exists responsible s',
    determineResponsibility sampleRuntime defaultEngine podReady
      (podEvent "pod-1" "1" 0 notReady) initialState = Ok (responsible, s')
    /\ responsible = "kubelet"
    /\ match inv_Predicate podReady with
       | Some pred =>
           exists order,
             visits (authorityMap defaultEngine) order
             /\ responsible
                = match GetAuthorizedControllers (authorityMap defaultEngine) order
                          (pred_Field pred) with
                  | [controller] => controller
                  | _ => resp_Primary (inv_Responsibility podReady)
                  end
       | None => responsible = resp_Primary (inv_Responsibility podReady)
       end.
Proof.
  eexists _, _. split; [vm_compute; reflexivity|]. split; [reflexivity|].
  eapply (responsibility_is_sole_authority_or_primary sampleRuntime defaultEngine podReady
            (podEvent "pod-1" "1" 0 notReady) initialState).
  - exact sampleRuntime_lawful.
  - vm_compute. reflexivity.
Defined.

Lemma Evaluate_reports_each_subject_once_witness :
  exists vs s',
    Evaluate showValue sampleRuntime (mkInvariantEngine sampleStore defaultEngine) 2
      podReady initialState = Ok (vs, s')
    /\ length vs = 2%nat
    /\ exists found,
         found `sublist_of` GetLatestByKind sampleStore (subj_Kind (inv_Subject podReady))
         /\ length found = length vs.
Proof.
  eexists _, _. split; [vm_compute; reflexivity|]. split; [reflexivity|].
  edestruct (Evaluate_reports_each_subject_once showValue sampleRuntime defaultEngine
               sampleStore 2 podReady initialState)
    as (found & Hsub & Hall).
  - vm_compute. reflexivity.
  - exists found. split; [exact Hsub|]. exact (Forall2_length _ _ _ Hall).
Defined.

Lemma EvaluateAll_reports_registered_invariants_witness :
  exists vs s',
    EvaluateAll showValue sampleRuntime (mkInvariantEngine sampleStore defaultEngine) 2
      initialState = Ok (vs, s')
    /\ Forall (fun v =>
                 vr_Violated v = true
                 /\ exists id inv,
                      invariants defaultEngine !! id = Some inv
                      /\ vr_InvariantID v = inv_ID inv
                      /\ vr_Severity v = inv_Severity inv) vs
    /\ ((forall kind, GetLatestByKind sampleStore kind = []) -> vs = []).
Proof.
  eexists _, _. split; [vm_compute; reflexivity|].
  eapply (EvaluateAll_reports_registered_invariants showValue sampleRuntime defaultEngine
            sampleStore 2 initialState).
  - exact sampleRuntime_lawful.
  - vm_compute. reflexivity.
Defined.

Lemma registry_readers_agree_witness :
  length (GetInvariants (mkInvariantEngine NewMemoryStore defaultEngine)
            (map_to_list (invariants defaultEngine)))
  = size (invariants defaultEngine)
  /\ forall inv,
       inv ∈ GetInvariants (mkInvariantEngine NewMemoryStore defaultEngine)
               (map_to_list (invariants defaultEngine))
       <-> exists id,
             GetInvariantByID (mkInvariantEngine NewMemoryStore defaultEngine) id
             = Some inv.
Proof.
  apply (registry_readers_agree defaultEngine NewMemoryStore
           (map_to_list (invariants defaultEngine))).
  unfold visitsRegistry. reflexivity.
Defined.

Lemma evaluation_results_are_all_reported_witness :
  exists vs s',
    Evaluate showValue sampleRuntime (mkInvariantEngine sampleStore defaultEngine) 2
      podReady initialState = Ok (vs, s')
    /\ FormatMultipleExplanations (Some <$> vs) = Ok (FormatExplanation <$> vs)
    /\ exists summary,
         GenerateSummary (Some <$> vs) = Ok summary
         /\ sum_total summary = Z.of_nat (length vs)
         /\ sum_violated summary = Z.of_nat (length vs)
         /\ sum_satisfied summary = 0.
Proof.
  eexists _, _. split; [vm_compute; reflexivity|].
  eapply (evaluation_results_are_all_reported showValue sampleRuntime defaultEngine
            sampleStore 2 podReady initialState).
  vm_compute. reflexivity.
Defined.

Lemma failed_dependency_is_in_causal_chain_witness :
  exists inv v s',
    invariants defaultEngine !! "pod_ready" = Some inv
    /\ EvaluateWithContext showValue sampleRuntime defaultEngine 2 inv
         (podContext readyButNotRunning) initialState = Ok (Some v, s')
    /\ exists first rest,
         buildCausalChain (mkInvariantEngine NewMemoryStore defaultEngine) "pod_ready"
         = first :: rest
         /\ ce_invariant_id first = inv_ID inv
         /\ ce_relation first = None
         /\ ((exists pred,
                inv_Predicate inv = Some pred
                /\ evaluatePredicateWithReason showValue pred
                     (ctx_Resource (podContext readyButNotRunning))
                   = Ok (false, vr_Reason v))
             \/ (ownPredicateHolds showValue inv (podContext readyButNotRunning)
                 /\ exists entry relation reason,
                      entry ∈ rest
                      /\ ce_relation entry = Some relation
                      /\ vr_Reason v
                         = "Dependency " +:+ ce_invariant_id entry +:+ " failed: "
                             +:+ reason)).
Proof.
  eexists _, _, _. split; [vm_compute; reflexivity|].
  split; [vm_compute; reflexivity|].
  eapply (failed_dependency_is_in_causal_chain showValue sampleRuntime defaultEngine
            NewMemoryStore "pod_ready" _ 2 (podContext readyButNotRunning) initialState).
  - vm_compute. reflexivity.
  - vm_compute. reflexivity.
Defined.
